(** * loadforge-agent, package [scenario]: substitution engine and validator

    A shallow embedding of [substitution.go] (the [Substitutor]) and
    [parser.go] (the scenario [Parser] and its validator), with the parts
    of the Go standard library they call ([regexp], [strings], [strconv],
    [slices], [encoding/json]) modelled after their documented behaviour.

    Conventions.
    - A Go [string] is an immutable byte sequence: Rocq's [string], a list
      of 8-bit [ascii].  [len(s)] is [String.length s].
    - A Go function returning [(T, error)] returns a pair
      [T * option error]; [None] is the [nil] error.
    - Go maps and slices are references.  They live in an explicit store
      ([heap]); a map-typed field holds [option addr], [None] being the
      [nil] map. *)

From Stdlib Require Import Ascii String ZArith Lia SpecFloat DecimalString.
From stdpp Require Import gmap strings list sorting.
From Equations Require Import Equations.

Open Scope string_scope.
Open Scope nat_scope.

(** ** Errors

    One constructor per [fmt.Errorf] call site (and per library error the
    code can meet); the comment gives the format string.  [%w] operands are
    the wrapped [error]. *)

Inductive error : Type :=
  (* substitution.go *)
  | ErrUndefinedVariable (name : string)
      (* "undefined variable %q" *)
  | ErrURLSubstitution (e : error)
      (* "url substitution failed: %w" *)
  | ErrHeaderSubstitution (k : string) (e : error)
      (* "header %q substitution failed: %w" *)
  | ErrQueryParamSubstitution (k : string) (e : error)
      (* "query param %q substitution failed: %w" *)
  | ErrJSONEscape (k : string) (e : error)
      (* "failed to JSON-escape variable %q: %w" *)
  | ErrBodyMarshalling (e : error)
      (* "body marshalling failed: %w" *)
  | ErrBodySubstitution (e : error)
      (* "body substitution failed: %w" *)
  | ErrBodyUnmarshalling (e : error)
      (* "body unmarshalling after substitution failed: %w" *)
  | ErrRequestPathSubstitution (e : error)
      (* "request path substitution failed: %w" *)
  | ErrPathParamsSubstitution (e : error)
      (* "path_params substitution failed: %w" *)
  (* encoding/json *)
  | ErrJSONUnsupportedValue
      (* json.UnsupportedValueError: NaN, infinities, reference cycles *)
  | ErrJSONInvalidNumber (lit : string)
      (* "json: invalid number literal %q" *)
  | ErrJSONSyntax
      (* json.SyntaxError *)
  | ErrJSONNumberRange (lit : string)
      (* json.UnmarshalTypeError, Value "number <lit>" *)
  (* parser.go, Validate *)
  | ErrNoScenario
      (* "no scenario loaded" *)
  | ErrNameRequired
      (* "scenario.name is required" *)
  | ErrBaseURLRequired
      (* "scenario.base_url is required" *)
  | ErrVirtualUsers
      (* "scenario.virtual_users must be greater than 0" *)
  | ErrDurationZero
      (* "scenario.duration must be greater than 0" *)
  | ErrDurationTooLong
      (* "scenario.duration must be less than 1 year (31556952 seconds)" *)
  | ErrNoSteps
      (* "scenario.steps: at least one step is required" *)
  | ErrStepRequestRequired (i : nat)
      (* "step[%d]: request field is required" *)
  | ErrStepDuplicate (i : nat) (request : string)
      (* "step[%d]: duplicate request '%s'" *)
  | ErrStep (i : nat) (e : error)
      (* "step[%d]: %w" *)
  | ErrStepBody (i : nat) (request : string)
      (* "step[%d] (%s): GET and HEAD requests cannot have a body" *)
  | ErrStepDelayNegative (i : nat) (request : string)
      (* "step[%d] (%s): delay must be non-negative" *)
  | ErrStepDelayTooLong (i : nat) (request : string)
      (* "step[%d] (%s): delay must not exceed %s" *)
  | ErrNextRequestRequired (i j : nat)
      (* "step[%d], next_step[%d]: request field is required" *)
  | ErrNext (i j : nat) (e : error)
      (* "step[%d], next_step[%d]: %w" *)
  | ErrNextTargetNotFound (i j : nat) (request : string)
      (* "step[%d], next_step[%d]: target step '%s' not found" *)
  | ErrNextStatusCode (i j k : nat) (e : error)
      (* "step[%d], next_step[%d], status_code[%d]: %w" *)
  | ErrNextMapping (i j : nat) (source target : string) (e : error)
      (* "step[%d], next_step[%d]: invalid mapping '%s' -> '%s': %w" *)
  (* parser.go, parseRequest *)
  | ErrRequestEmpty
      (* "request cannot be empty" *)
  | ErrRequestFormat (request : string)
      (* "invalid request format '%s', expected 'METHOD /path'" *)
  | ErrInvalidMethod (method : string)
      (* "invalid HTTP method '%s', must be one of: %v" *)
  | ErrPathPrefix (path : string)
      (* "path must start with '/', got: %s" *)
  (* parser.go, validateStatusCode *)
  | ErrStatusEmpty
      (* "status code cannot be empty" *)
  | ErrWildcard (code : string)
      (* "wildcard must be 1xx-5xx, got: %s" *)
  | ErrStatusFormat (code : string)
      (* "invalid status code format '%s'" *)
  | ErrStatusRange (statusCode : Z)
      (* "status code must be 100-599, got: %d" *)
  (* parser.go, validateMapping *)
  | ErrSourceFormat (source : string)
      (* "invalid source format, expected 'source.field', got: %s" *)
  | ErrInvalidSource (prefix : string)
      (* "invalid source '%s', must be one of: %v" *)
  | ErrTargetFormat (target : string)
      (* "invalid target format, expected 'target.field', got: %s" *)
  | ErrInvalidTarget (prefix : string)
      (* "invalid target '%s', must be one of: %v" *).

(** ** Byte strings *)

(** [s[i:j]] for [i <= j <= len(s)]. *)
Definition slice (s : string) (i j : nat) : string := substring i (j - i) s.

(** [strings.Index(s, sep)] for a one-byte separator: the text before the
    first [sep] and the text after it, when [s] has one. *)
Fixpoint cutFirst (s : string) (sep : ascii) : option (string * string) :=
  match s with
  | EmptyString => None
  | String c t =>
      if Ascii.eqb c sep then Some (EmptyString, t)
      else match cutFirst t sep with
           | Some (a, b) => Some (String c a, b)
           | None => None
           end
  end.

(** [strings.SplitN(s, sep, 2)] for a one-byte separator: at most two
    substrings, the second being the unsplit remainder; [[s]] alone when
    [s] has no [sep]. *)
Definition SplitN2 (s : string) (sep : ascii) : list string :=
  match cutFirst s sep with
  | Some (a, b) => [a; b]
  | None => [s]
  end.

(** [strings.HasPrefix(s, p)]. *)
Definition HasPrefix (s p : string) : bool := String.prefix p s.

(** [slices.Contains(l, x)] on strings. *)
Definition Contains (l : list string) (x : string) : bool :=
  existsb (String.eqb x) l.

(** ** The placeholder pattern

    [varPattern = regexp.MustCompile(`\${([^}]+)}`)]: the two bytes [${],
    one or more bytes other than [}] (greedy), then [}]. *)

(** The greedy run [[^}]*] at the head of [s], and what follows it. *)
Fixpoint spanNotBrace (s : string) : string * string :=
  match s with
  | EmptyString => (EmptyString, EmptyString)
  | String c t =>
      if Ascii.eqb c "}" then (EmptyString, s)
      else let '(n, r) := spanNotBrace t in (String c n, r)
  end.

(** [varPattern] anchored at the head of [s]: the matched text and the
    rest of [s], when [s] starts with a match.  The run must be non-empty
    ([+]); being greedy it stops only at a [}] or at the end of [s], and
    giving bytes back cannot help, since the byte after a shorter run is
    not [}]. *)
Definition varPattern (s : string) : option (string * string) :=
  match s with
  | String "$" (String "{" t) =>
      match spanNotBrace t with
      | (String c n, String "}" r) => Some ("${" +:+ String c n +:+ "}", r)
      | _ => None
      end
  | _ => None
  end.

Lemma spanNotBrace_length s n r :
  spanNotBrace s = (n, r) → String.length r ≤ String.length s.
Proof.
  revert n r. induction s as [|c t IH]; simpl; intros n r H.
  - inversion H; simpl; lia.
  - destruct (Ascii.eqb c "}").
    + inversion H; subst; simpl; lia.
    + destruct (spanNotBrace t) as [n' r'] eqn:E. inversion H; subst.
      specialize (IH _ _ eq_refl). lia.
Qed.

Lemma varPattern_length s m r :
  varPattern s = Some (m, r) → String.length r < String.length s.
Proof.
  unfold varPattern. intros H.
  destruct s as [|a s]; [discriminate|].
  destruct s as [|b t]; [destruct a as [[] [] [] [] [] [] [] []]; discriminate|].
  destruct (spanNotBrace t) as [n' r'] eqn:E.
  pose proof (spanNotBrace_length _ _ _ E).
  destruct a as [[] [] [] [] [] [] [] []]; try discriminate.
  destruct b as [[] [] [] [] [] [] [] []]; try discriminate.
  destruct n'; try discriminate. destruct r' as [|c' r']; try discriminate.
  destruct c' as [[] [] [] [] [] [] [] []]; try discriminate.
  inversion H; subst. simpl in *. lia.
Qed.

(** The pieces of a string as [ReplaceAllStringFunc] sees them: bytes
    outside every match, copied as they are, and the successive matches. *)
Inductive token : Type :=
  | Lit (c : ascii)
  | Match (m : string).

Definition inspect {A : Type} (x : A) : {y : A | x = y} := exist _ x eq_refl.

(** Leftmost, non-overlapping matches of [varPattern] in [s]: at each
    position take the match that starts there if there is one and go on
    after it, else keep the byte and move one byte on. *)
Equations? scan (s : string) : list token by wf (String.length s) lt :=
  scan EmptyString := [];
  scan (String c t) with inspect (varPattern (String c t)) := {
    | exist _ (Some p) H => Match (fst p) :: scan (snd p)
    | exist _ None H => Lit c :: scan t }.
Proof.
  all: try (simpl; lia).
  exact (varPattern_length (String c t) _ _ H).
Qed.

(** [re.ReplaceAllStringFunc(s, repl)], for a [repl] that is a closure
    over a captured variable of type [St] (threaded through the calls in
    match order). *)
Fixpoint replaceTokens {St : Type} (repl : string → St → string * St)
    (ts : list token) (st : St) : string * St :=
  match ts with
  | [] => (EmptyString, st)
  | Lit c :: ts' =>
      let '(out, st') := replaceTokens repl ts' st in (String c out, st')
  | Match m :: ts' =>
      let '(r, st1) := repl m st in
      let '(out, st2) := replaceTokens repl ts' st1 in
      (r +:+ out, st2)
  end.

Definition ReplaceAllStringFunc {St : Type} (s : string)
    (repl : string → St → string * St) (st : St) : string * St :=
  replaceTokens repl (scan s) st.

(** ** [substitute] *)

(** The closure passed to [ReplaceAllStringFunc]; the captured variable is
    [firstErr]. *)
Definition substituteFunc (vars : gmap string string)
    (match_ : string) (firstErr : option error) : string * option error :=
  match firstErr with
  | Some _ => (match_, firstErr)
  | None =>
      let name := slice match_ 2 (String.length match_ - 1) in
      match vars !! name with
      | None => (match_, Some (ErrUndefinedVariable name))
      | Some val => (val, None)
      end
  end.

Definition substitute (s : string) (vars : gmap string string)
    : string * option error :=
  let '(result, firstErr) :=
    ReplaceAllStringFunc s (substituteFunc vars) None in
  match firstErr with
  | Some e => (EmptyString, Some e)
  | None => (result, None)
  end.


(** ** The store

    Values of the reference types [map[string]string],
    [map[string]interface{}] and [[]interface{}] are addresses into the
    store; the three kinds have separate address spaces.  Slices of
    structs and of strings ([[]Step], [[]NextStep], [[]string]) are never
    written after they are built and are plain lists. *)

Definition addr := positive.

(** Binary64 floating point numbers ([float64]). *)
Definition float64 := spec_float.

(** A dynamically typed value ([interface{}]), over the dynamic types that
    the YAML and JSON decoders produce and that the tests use: [nil],
    [bool], [string], [int]/[int64], [float64], [json.Number], and
    non-nil [[]interface{}] and [map[string]interface{}] references. *)
Inductive value : Type :=
  | VNil
  | VBool (b : bool)
  | VString (s : string)
  | VInt (n : Z)
  | VFloat64 (f : float64)
  | VNumber (lit : string)
  | VSlice (a : addr)
  | VMap (a : addr).

(** [v == nil] *)
Definition isNil (v : value) : bool :=
  match v with
  | VNil => true
  | _ => false
  end.

Record heap : Type := Heap {
  strmaps : gmap addr (gmap string string);
  anymaps : gmap addr (gmap string value);
  slices : gmap addr (list value)
}.

Definition emptyHeap : heap := Heap ∅ ∅ ∅.

(** The entries of a [map[string]string]; a [nil] map reads as empty. *)
Definition derefStrMap (h : heap) (m : option addr) : gmap string string :=
  match m with
  | Some a => default ∅ (strmaps h !! a)
  | None => ∅
  end.

(** [make(map[string]string, n)]: a new, empty map. *)
Definition makeStrMap (h : heap) : addr * heap :=
  let a := fresh (dom (strmaps h)) in
  (a, Heap (<[a := ∅]> (strmaps h)) (anymaps h) (slices h)).

(** [m[k] = v] on the map at [a]. *)
Definition storeStrMap (a : addr) (k v : string) (h : heap) : heap :=
  Heap (<[a := <[k := v]> (default ∅ (strmaps h !! a))]> (strmaps h))
       (anymaps h) (slices h).

(** A new [map[string]interface{}] holding [m]. *)
Definition allocAnyMap (m : gmap string value) (h : heap) : addr * heap :=
  let a := fresh (dom (anymaps h)) in
  (a, Heap (strmaps h) (<[a := m]> (anymaps h)) (slices h)).

(** A new [[]interface{}] holding [l]. *)
Definition allocSlice (l : list value) (h : heap) : addr * heap :=
  let a := fresh (dom (slices h)) in
  (a, Heap (strmaps h) (anymaps h) (<[a := l]> (slices h))).

(** ** The scenario model (scenario.go) *)

Record NextStep : Type := mkNextStep {
  NextStep_Request : string;
  NextStep_StatusCodes : list string;
  NextStep_Map : option addr
}.

(** [Delay] is a [Duration], a struct embedding [time.Duration]: a signed
    64-bit count of nanoseconds. *)
Record Step : Type := mkStep {
  Request : string;
  Headers : option addr;
  Query : option addr;
  PathParams : option addr;
  Body : value;
  Delay : Z;
  SaveToContext : option addr;
  NextSteps : list NextStep
}.

(** [VirtualUsers] and [Duration] are [uint64]. *)
Record Scenario : Type := mkScenario {
  Name : string;
  BaseURL : string;
  VirtualUsers : N;
  Duration : N;
  Variables : option addr;
  Steps : list Step
}.

(** [Step{}] *)
Definition zeroStep : Step := mkStep "" None None None VNil 0 None [].

(** ** strconv.Atoi *)

Definition isDigit (c : ascii) : bool :=
  (48 <=? nat_of_ascii c) && (nat_of_ascii c <=? 57).

Definition digitValue (c : ascii) : Z := Z.of_nat (nat_of_ascii c - 48).

(** The value of a run of decimal digits, most significant first; [None]
    when a byte is not a digit. *)
Fixpoint parseDigits (acc : Z) (s : string) : option Z :=
  match s with
  | EmptyString => Some acc
  | String c t =>
      if isDigit c then parseDigits (10 * acc + digitValue c)%Z t else None
  end.

(** [strconv.Atoi(s)] on a 64-bit platform: an optional sign, then one or
    more decimal digits, the value within the range of [int]; [None]
    stands for a [*NumError] (syntax or range). *)
Definition Atoi (s : string) : option Z :=
  let '(neg, digits) :=
    match s with
    | String c t =>
        if Ascii.eqb c "+" then (false, t)
        else if Ascii.eqb c "-" then (true, t)
        else (false, s)
    | EmptyString => (false, s)
    end in
  match digits with
  | EmptyString => None
  | _ =>
      match parseDigits 0 digits with
      | None => None
      | Some n =>
          let v := if neg then (- n)%Z else n in
          if ((- 2 ^ 63 <=? v) && (v <=? 2 ^ 63 - 1))%Z then Some v else None
      end
  end.

(** ** The validator (parser.go) *)

Record Parser : Type := mkParser {
  scenario : option Scenario
}.

Definition FindStep (s : Scenario) (request : string) : option Step :=
  find (λ st, String.eqb (Request st) request) (Steps s).

(** [10 * time.Minute], in nanoseconds. *)
Definition maxDelay : Z := 10 * 60 * 1000000000.

Definition validMethods : list string :=
  ["GET"; "POST"; "PUT"; "PATCH"; "DELETE"; "HEAD"].

Definition parseRequest (request : string) : string * string * option error :=
  if String.eqb request "" then ("", "", Some ErrRequestEmpty)
  else
    match SplitN2 request " " with
    | [method; path] =>
        if negb (Contains validMethods method) then
          ("", "", Some (ErrInvalidMethod method))
        else if negb (HasPrefix path "/") then
          ("", "", Some (ErrPathPrefix path))
        else (method, path, None)
    | _ => ("", "", Some (ErrRequestFormat request))
    end.

Definition validateStatusCode (code : string) : option error :=
  if String.eqb code "" then Some ErrStatusEmpty
  else if (String.length code =? 3) && String.eqb (slice code 1 (String.length code)) "xx" then
    match code with
    | String firstChar _ =>
        if (nat_of_ascii firstChar <? nat_of_ascii "1")
           || (nat_of_ascii "5" <? nat_of_ascii firstChar)
        then Some (ErrWildcard code)
        else None
    | EmptyString => None
    end
  else
    match Atoi code with
    | None => Some (ErrStatusFormat code)
    | Some statusCode =>
        if ((statusCode <? 100) || (600 <=? statusCode))%Z
        then Some (ErrStatusRange statusCode)
        else None
    end.

Definition validSources : list string :=
  ["response"; "headers"; "query"; "path_params"; "body"; "cookies";
   "variables"].

Definition validTargets : list string :=
  ["headers"; "query"; "path_params"; "body"; "cookies"; "variables"].

Definition validateMapping (source target : string) : option error :=
  match SplitN2 source "." with
  | [sourcePrefix; _] =>
      if negb (Contains validSources sourcePrefix) then
        Some (ErrInvalidSource sourcePrefix)
      else
        match SplitN2 target "." with
        | [targetPrefix; _] =>
            if negb (Contains validTargets targetPrefix) then
              Some (ErrInvalidTarget targetPrefix)
            else None
        | _ => Some (ErrTargetFormat target)
        end
  | _ => Some (ErrSourceFormat source)
  end.

(** [for i, x := range l { if err := body(i, x); err != nil { return err } }],
    the index starting at [i]. *)
Fixpoint forRange {A : Type} (body : nat → A → option error) (i : nat)
    (l : list A) : option error :=
  match l with
  | [] => None
  | x :: l' =>
      match body i x with
      | Some err => Some err
      | None => forRange body (S i) l'
      end
  end.

Section Range.

(** Go leaves the order in which [range] visits a map's entries
    unspecified.  [rangeOrder m] is the order the runtime picks for a map
    with entries [m]; the model is parametric in it. *)
Variable rangeOrder : gmap string string → list (string * string).

(** The body of the [next_steps] loop of [Validate]. *)
Definition validateNextStep (s : Scenario) (h : heap) (i j : nat)
    (nextStep : NextStep) : option error :=
  if String.eqb (NextStep_Request nextStep) "" then
    Some (ErrNextRequestRequired i j)
  else
    match parseRequest (NextStep_Request nextStep) with
    | (_, _, Some err) => Some (ErrNext i j err)
    | (_, _, None) =>
        match FindStep s (NextStep_Request nextStep) with
        | None => Some (ErrNextTargetNotFound i j (NextStep_Request nextStep))
        | Some _ =>
            match forRange
                    (λ k code, ErrNextStatusCode i j k <$> validateStatusCode code)
                    0 (NextStep_StatusCodes nextStep) with
            | Some err => Some err
            | None =>
                forRange
                  (λ _ '(mapSource, mapTarget),
                     ErrNextMapping i j mapSource mapTarget
                       <$> validateMapping mapSource mapTarget)
                  0 (rangeOrder (derefStrMap h (NextStep_Map nextStep)))
            end
        end
    end.

(** The body of the [steps] loop of [Validate], but for the insertion into
    [uniqueRequests], which [validateSteps] does. *)
Definition validateStep (s : Scenario) (h : heap)
    (uniqueRequests : gset string) (i : nat) (step : Step) : option error :=
  if String.eqb (Request step) "" then Some (ErrStepRequestRequired i)
  else if bool_decide (Request step ∈ uniqueRequests) then
    Some (ErrStepDuplicate i (Request step))
  else
    match parseRequest (Request step) with
    | (_, _, Some err) => Some (ErrStep i err)
    | (httpMethod, _, None) =>
        if (String.eqb httpMethod "GET" || String.eqb httpMethod "HEAD")
           && negb (isNil (Body step))
        then Some (ErrStepBody i (Request step))
        else if (Delay step <? 0)%Z then
          Some (ErrStepDelayNegative i (Request step))
        else if (maxDelay <? Delay step)%Z then
          Some (ErrStepDelayTooLong i (Request step))
        else forRange (validateNextStep s h i) 0 (NextSteps step)
    end.

(** [for i := range p.scenario.Steps { ... }] with its local
    [uniqueRequests]. *)
Fixpoint validateSteps (s : Scenario) (h : heap)
    (uniqueRequests : gset string) (i : nat) (steps : list Step)
    : option error :=
  match steps with
  | [] => None
  | step :: steps' =>
      match validateStep s h uniqueRequests i step with
      | Some err => Some err
      | None =>
          validateSteps s h ({[ Request step ]} ∪ uniqueRequests) (S i) steps'
      end
  end.

Definition Validate (p : Parser) (h : heap) : option error :=
  match scenario p with
  | None => Some ErrNoScenario
  | Some s =>
      if String.eqb (Name s) "" then Some ErrNameRequired
      else if String.eqb (BaseURL s) "" then Some ErrBaseURLRequired
      else if (VirtualUsers s <=? 0)%N then Some ErrVirtualUsers
      else if (Duration s <=? 0)%N then Some ErrDurationZero
      else if (31556952 <? Duration s)%N then Some ErrDurationTooLong
      else if length (Steps s) =? 0 then Some ErrNoSteps
      else validateSteps s h ∅ 0 (Steps s)
  end.

End Range.

(** ** Numbers as text (strconv) *)

(** [strconv.FormatInt(n, 10)] *)
Definition FormatInt (n : Z) : string := NilZero.string_of_int (Z.to_int n).

Definition prec64 : Z := 53.
Definition emax64 : Z := 1024.

(** The [float64] nearest to [num / den] ([0 <= num], [0 < den]), ties to
    even, with sign [neg]; an infinity beyond the largest finite value.
    The quotient is taken to at least 64 bits and the remainder folded
    into a sticky last bit, so rounding it to 53 bits rounds the exact
    quotient. *)
Definition roundRational (neg : bool) (num den : Z) : float64 :=
  if (num =? 0)%Z then S754_zero neg
  else
    let k := Z.max 0 (64 + Z.log2 den - Z.log2 num) in
    let n := (num * 2 ^ k)%Z in
    let q := (n / den)%Z in
    let sticky := if (n mod den =? 0)%Z then 0%Z else 1%Z in
    let m := (2 * q + sticky)%Z in
    binary_normalize prec64 emax64 (if neg then - m else m)%Z (- k - 1)%Z neg.

(** The [float64] nearest to [d * 10^e] ([0 <= d]).  Exponents far outside
    the range of [float64] are settled without computing the power. *)
Definition decimalToFloat (neg : bool) (d e : Z) : float64 :=
  if (d =? 0)%Z then S754_zero neg
  else if (400 <? e)%Z then S754_infinity neg
  else if (e + Z.of_nat (String.length (FormatInt d)) <? - 400)%Z then
    S754_zero neg
  else if (0 <=? e)%Z then roundRational neg (d * 10 ^ e) 1
  else roundRational neg d (10 ^ (- e)).

(** The leading decimal digits of [s] and what follows them. *)
Fixpoint spanDigits (s : string) : string * string :=
  match s with
  | EmptyString => (EmptyString, EmptyString)
  | String c t =>
      if isDigit c then let '(d, r) := spanDigits t in (String c d, r)
      else (EmptyString, s)
  end.

Definition digitsOrZero (s : string) : Z := default 0%Z (parseDigits 0 s).

(** [strconv.ParseFloat(lit, 64)] on a literal of the JSON number grammar
    ([-]digits[.digits][(e|E)[+|-]digits]): the nearest [float64], or
    [None] for an error (a value out of range, or a literal that is not of
    that grammar). *)
Definition ParseFloat (lit : string) : option float64 :=
  let '(neg, s1) :=
    match lit with
    | String "-" t => (true, t)
    | _ => (false, lit)
    end in
  let '(ip, s2) := spanDigits s1 in
  let '(fp, s3) :=
    match s2 with
    | String "." t => spanDigits t
    | _ => (EmptyString, s2)
    end in
  let exp : option Z :=
    match s3 with
    | EmptyString => Some 0%Z
    | String c t =>
        if Ascii.eqb c "e" || Ascii.eqb c "E" then
          match t with
          | String "-" u => Z.opp <$> parseDigits 0 u
          | String "+" u => parseDigits 0 u
          | _ => parseDigits 0 t
          end
        else None
    end in
  match ip, exp with
  | EmptyString, _ => None
  | _, None => None
  | _, Some e =>
      let f := decimalToFloat neg (digitsOrZero (ip +:+ fp))
                 (e - Z.of_nat (String.length fp))%Z in
      match f with
      | S754_infinity _ => None
      | _ => Some f
      end
  end.

(** Same float: same sign, mantissa and exponent. *)
Definition float_same (f g : float64) : bool :=
  match f, g with
  | S754_zero s, S754_zero s' => Bool.eqb s s'
  | S754_infinity s, S754_infinity s' => Bool.eqb s s'
  | S754_nan, S754_nan => true
  | S754_finite s m e, S754_finite s' m' e' =>
      Bool.eqb s s' && Pos.eqb m m' && Z.eqb e e'
  | _, _ => false
  end.

(** [10^k <= num / den] *)
Definition pow10_le (k num den : Z) : bool :=
  if (0 <=? k)%Z then (10 ^ k * den <=? num)%Z
  else (den <=? num * 10 ^ (- k))%Z.

Fixpoint floorLog10_from (fuel : nat) (k num den : Z) : Z :=
  match fuel with
  | 0 => k
  | S fuel' =>
      if pow10_le (k + 1) num den then floorLog10_from fuel' (k + 1)%Z num den
      else k
  end.

(** The [k] with [10^k <= num / den < 10^(k+1)] ([0 < num], [0 < den]),
    found from an estimate by the bit lengths that is at most three too
    small. *)
Definition floorLog10 (num den : Z) : Z :=
  floorLog10_from 8 ((Z.log2 num - Z.log2 den) * 30103 / 100000 - 2)%Z num den.

(** The shortest decimal that reads back as the positive float [f] of
    value [num / den] with [10^k <= num / den < 10^(k+1)]: for
    [n = 1, 2, ...] digits, the two [n]-digit decimals around the value
    are tried, and the nearer one that reads back as [f] is taken (the
    lower one at equal distance).  The result is [(c, j)], standing for
    [c * 10^(-j)]. *)
Fixpoint shortestFrom (fuel : nat) (n : Z) (f : float64) (num den k : Z)
    : Z * Z :=
  let j := (n - 1 - k)%Z in
  let '(sn, sd) :=
    if (0 <=? j)%Z then ((num * 10 ^ j)%Z, den)
    else (num, (den * 10 ^ (- j))%Z) in
  let lo := (sn / sd)%Z in
  let hi := (lo + 1)%Z in
  let ok c := float_same (decimalToFloat false c (- j)) f in
  let hiNearer := (sd * (lo + hi) <? 2 * sn)%Z in
  match fuel with
  | 0 => (lo, j)
  | S fuel' =>
      match ok lo, ok hi with
      | true, true => (if hiNearer then hi else lo, j)
      | true, false => (lo, j)
      | false, true => (hi, j)
      | false, false => shortestFrom fuel' (n + 1)%Z f num den k
      end
  end.

(** [s] without its leading zeros. *)
Fixpoint dropZeros (s : string) : string :=
  match s with
  | String c t => if Ascii.eqb c "0" then dropZeros t else s
  | EmptyString => s
  end.

(** [s] without its trailing zeros. *)
Definition trimZeros (s : string) : string :=
  String.rev (dropZeros (String.rev s)).

Fixpoint zeros (n : nat) : string :=
  match n with
  | 0 => EmptyString
  | S n' => String "0" (zeros n')
  end.

(** The shortest digits of a positive finite float and the position of
    its decimal point: the digits [d1 d2 ... dn] and [dp] stand for
    [0.d1d2...dn * 10^dp]. *)
Definition shortestDigits (m : positive) (e : Z) : string * Z :=
  let '(num, den) :=
    if (0 <=? e)%Z then ((Z.pos m * 2 ^ e)%Z, 1%Z)
    else (Z.pos m, (2 ^ (- e))%Z) in
  let f := roundRational false num den in
  let '(c, j) := shortestFrom 17 1 f num den (floorLog10 num den) in
  let ds := FormatInt c in
  (trimZeros ds, (Z.of_nat (String.length ds) - j)%Z).

(** [strconv.FormatFloat(f, 'f', -1, 64)] from the shortest digits. *)
Definition fmtF (neg : bool) (ds : string) (dp : Z) : string :=
  let n := Z.of_nat (String.length ds) in
  (if neg then "-" else "") +:+
  (if (dp <=? 0)%Z then "0." +:+ zeros (Z.to_nat (- dp)) +:+ ds
   else if (n <=? dp)%Z then ds +:+ zeros (Z.to_nat (dp - n))
   else slice ds 0 (Z.to_nat dp) +:+ "." +:+
        slice ds (Z.to_nat dp) (String.length ds)).

(** [strconv.FormatFloat(f, 'e', -1, 64)] from the shortest digits: one
    digit, the others after a point, and an exponent of at least two
    digits. *)
Definition fmtE (neg : bool) (ds : string) (dp : Z) : string :=
  let exp := (dp - 1)%Z in
  let es := FormatInt (Z.abs exp) in
  (if neg then "-" else "") +:+
  slice ds 0 1 +:+
  (if 1 <? String.length ds then "." +:+ slice ds 1 (String.length ds)
   else "") +:+
  "e" +:+ (if (exp <? 0)%Z then "-" else "+") +:+
  (if String.length es <? 2 then "0" +:+ es else es).

(** The float64 constants [1e-6] and [1e21]. *)
Definition float_1e_6 : float64 := decimalToFloat false 1 (- 6).
Definition float_1e21 : float64 := decimalToFloat false 1 21.

(** The clean-up of [floatEncoder.encode]: [e-09] becomes [e-9]. *)
Definition cleanExponent (b : string) : string :=
  let n := String.length b in
  if (4 <=? n)
     && String.eqb (slice b (n - 4) (n - 3)) "e"
     && (String.eqb (slice b (n - 3) (n - 2)) "-"
         || String.eqb (slice b (n - 3) (n - 2)) "+")
     && String.eqb (slice b (n - 2) (n - 1)) "0"
  then slice b 0 (n - 2) +:+ slice b (n - 1) n
  else b.

(** [floatEncoder.encode] of encoding/json for a [float64]. *)
Definition encodeFloat (f : float64) : string * option error :=
  match f with
  | S754_nan | S754_infinity _ => ("", Some ErrJSONUnsupportedValue)
  | S754_zero s => (if s then "-0" else "0", None)
  | S754_finite s m e =>
      let abs := S754_finite false m e in
      let '(ds, dp) := shortestDigits m e in
      if SFltb abs float_1e_6 || negb (SFltb abs float_1e21)
      then (cleanExponent (fmtE s ds dp), None)
      else (fmtF s ds dp, None)
  end.

(** ** encoding/json: strings *)

Definition byte (c : ascii) : nat := nat_of_ascii c.

Definition dquote : ascii := "034".
Definition backslash : ascii := "092".

Definition isCont (c : ascii) : bool := (128 <=? byte c) && (byte c <=? 191).

Definition inRange (lo hi : nat) (c : ascii) : bool :=
  (lo <=? byte c) && (byte c <=? hi).

(** [utf8.DecodeRuneInString]: the number of bytes of the well-formed
    UTF-8 sequence at the head of [s]; [0] when [s] does not start with
    one (Go then yields [RuneError] of width 1). *)
Definition runeLen (s : string) : nat :=
  match s with
  | EmptyString => 0
  | String c0 t =>
      let b0 := byte c0 in
      if b0 <? 128 then 1
      else if (194 <=? b0) && (b0 <=? 223) then
        match t with
        | String c1 _ => if isCont c1 then 2 else 0
        | _ => 0
        end
      else if (224 <=? b0) && (b0 <=? 239) then
        match t with
        | String c1 (String c2 _) =>
            let lo := if b0 =? 224 then 160 else 128 in
            let hi := if b0 =? 237 then 159 else 191 in
            if inRange lo hi c1 && isCont c2 then 3 else 0
        | _ => 0
        end
      else if (240 <=? b0) && (b0 <=? 244) then
        match t with
        | String c1 (String c2 (String c3 _)) =>
            let lo := if b0 =? 240 then 144 else 128 in
            let hi := if b0 =? 244 then 143 else 191 in
            if inRange lo hi c1 && isCont c2 && isCont c3 then 4 else 0
        | _ => 0
        end
      else 0
  end.

Definition hexDigit (n : nat) : ascii :=
  ascii_of_nat (if n <? 10 then 48 + n else 87 + n).

(** [\u00XX] for a byte. *)
Definition escapeByte (c : ascii) : string :=
  String backslash
    (String "u" (String "0" (String "0"
      (String (hexDigit (byte c / 16)) (String (hexDigit (byte c mod 16))
        EmptyString))))).

(** [htmlSafeSet]: the ASCII bytes [appendString] copies as they are when
    HTML escaping is on. *)
Definition htmlSafe (c : ascii) : bool :=
  (32 <=? byte c) && (byte c <? 128)
  && negb (Ascii.eqb c dquote) && negb (Ascii.eqb c backslash)
  && negb (Ascii.eqb c "&") && negb (Ascii.eqb c "<")
  && negb (Ascii.eqb c ">").

(** The body of [appendString(dst, src, escapeHTML = true)], as from
    Go 1.22 (earlier versions write bytes 8 and 12 as [u00XX] escapes,
    which decode to the same bytes): a short escape for the quote, the
    backslash and the bytes 8, 12, 10, 13 and 9 (b, f, n, r, t), a [u00XX] escape for the other control bytes and for
    [<], [>] and [&], the escape of U+FFFD for a byte that starts no
    well-formed UTF-8 sequence, the escapes of U+2028 and U+2029 for these
    two runes, and the bytes themselves otherwise.  [skip] counts bytes
    already taken by a multi-byte sequence. *)
Fixpoint escapeString (skip : nat) (s : string) : string :=
  match s with
  | EmptyString => EmptyString
  | String c t =>
      match skip with
      | S skip' => escapeString skip' t
      | 0 =>
          if byte c <? 128 then
            if htmlSafe c then String c (escapeString 0 t)
            else if Ascii.eqb c backslash || Ascii.eqb c dquote then
              String backslash (String c (escapeString 0 t))
            else if byte c =? 8 then
              String backslash (String "b" (escapeString 0 t))
            else if byte c =? 12 then
              String backslash (String "f" (escapeString 0 t))
            else if byte c =? 10 then
              String backslash (String "n" (escapeString 0 t))
            else if byte c =? 13 then
              String backslash (String "r" (escapeString 0 t))
            else if byte c =? 9 then
              String backslash (String "t" (escapeString 0 t))
            else escapeByte c +:+ escapeString 0 t
          else
            match runeLen s with
            | 0 => String backslash "ufffd" +:+ escapeString 0 t
            | S n =>
                if String.eqb (slice s 0 3)
                     (String "226" (String "128" (String "168" EmptyString)))
                then String backslash "u2028" +:+ escapeString 2 t
                else if String.eqb (slice s 0 3)
                     (String "226" (String "128" (String "169" EmptyString)))
                then String backslash "u2029" +:+ escapeString 2 t
                else slice s 0 (S n) +:+ escapeString n t
            end
      end
  end.

(** [appendString]: the quoted, escaped form; this is also
    [json.Marshal] of a [string]. *)
Definition encodeString (s : string) : string :=
  String dquote (escapeString 0 s) +:+ String dquote EmptyString.

(** [utf8.EncodeRune]: the UTF-8 bytes of code point [r]; the bytes of
    U+FFFD for a surrogate or a value past U+10FFFF. *)
Definition encodeRune (r : Z) : string :=
  let b (n : Z) := ascii_of_N (Z.to_N n) in
  (if r <? 128 then String (b r) EmptyString
   else if r <? 2048 then
     String (b (192 + r / 64)) (String (b (128 + r mod 64)) EmptyString)
   else if ((55296 <=? r) && (r <=? 57343)) || (1114111 <? r) then
     String (b 239) (String (b 191) (String (b 189) EmptyString))
   else if r <? 65536 then
     String (b (224 + r / 4096))
       (String (b (128 + r / 64 mod 64))
         (String (b (128 + r mod 64)) EmptyString))
   else
     String (b (240 + r / 262144))
       (String (b (128 + r / 4096 mod 64))
         (String (b (128 + r / 64 mod 64))
           (String (b (128 + r mod 64)) EmptyString))))%Z.

Definition hexValue (c : ascii) : option Z :=
  if inRange 48 57 c then Some (Z.of_nat (byte c - 48))
  else if inRange 97 102 c then Some (Z.of_nat (byte c - 87))
  else if inRange 65 70 c then Some (Z.of_nat (byte c - 55))
  else None.

(** [getu4]: the value of the [u]-escape (backslash, [u], four hex digits)
    at the head of [s]. *)
Definition getu4 (s : string) : option Z :=
  match s with
  | String c0 (String c1 (String h1 (String h2 (String h3 (String h4 _))))) =>
      if Ascii.eqb c0 backslash && Ascii.eqb c1 "u" then
        match hexValue h1, hexValue h2, hexValue h3, hexValue h4 with
        | Some a, Some b, Some c, Some d =>
            Some (a * 4096 + b * 256 + c * 16 + d)%Z
        | _, _, _, _ => None
        end
      else None
  | _ => None
  end.

(** The rune a [u]-escape of value [rr] stands for, given what follows
    it, and whether a second escape is consumed with it: a high surrogate
    followed by a low one is the pair's rune; any other surrogate is
    U+FFFD. *)
Definition escapedRune (rr : Z) (rest : string) : Z * bool :=
  (if (55296 <=? rr) && (rr <=? 57343) then
     match getu4 rest with
     | Some rr1 =>
         if (rr <? 56320) && (56320 <=? rr1) && (rr1 <=? 57343)
         then (65536 + (rr - 55296) * 1024 + (rr1 - 56320), true)
         else (65533, false)
     | None => (65533, false)
     end
   else (rr, false))%Z.

(** The text of a string literal from after its opening quote: the
    decoded string ([unquote]) and what follows the closing quote; [None]
    for a syntax error (a control byte, a bad escape, no closing quote).
    [skip] counts bytes already taken by a multi-byte sequence. *)
Fixpoint parseStringBody (skip : nat) (s : string) : option (string * string) :=
  match s with
  | EmptyString => None
  | String c t =>
      match skip with
      | S skip' =>
          '(out, rest) ← parseStringBody skip' t; Some (out, rest)
      | 0 =>
          if Ascii.eqb c dquote then Some (EmptyString, t)
          else if byte c <? 32 then None
          else if Ascii.eqb c backslash then
            match t with
            | EmptyString => None
            | String e u =>
                let simple (x : nat) :=
                  '(out, rest) ← parseStringBody 1 t;
                  Some (String (ascii_of_nat x) out, rest) in
                if Ascii.eqb e dquote then simple 34
                else if Ascii.eqb e backslash then simple 92
                else if Ascii.eqb e "/" then simple 47
                else if Ascii.eqb e "b" then simple 8
                else if Ascii.eqb e "f" then simple 12
                else if Ascii.eqb e "n" then simple 10
                else if Ascii.eqb e "r" then simple 13
                else if Ascii.eqb e "t" then simple 9
                else if Ascii.eqb e "u" then
                  match getu4 s with
                  | None => None
                  | Some rr =>
                      let '(r, two) := escapedRune rr (slice s 6 (String.length s)) in
                      '(out, rest) ← parseStringBody (if two then 11 else 5) t;
                      Some (encodeRune r +:+ out, rest)
                  end
                else None
            end
          else if byte c <? 128 then
            '(out, rest) ← parseStringBody 0 t; Some (String c out, rest)
          else
            match runeLen s with
            | 0 =>
                '(out, rest) ← parseStringBody 0 t;
                Some (encodeRune 65533 +:+ out, rest)
            | S n =>
                '(out, rest) ← parseStringBody n t;
                Some (slice s 0 (S n) +:+ out, rest)
            end
      end
  end.

(** ** encoding/json: documents *)

(** A parsed JSON text.  A number keeps its literal; an object keeps its
    members in the order of the text. *)
#[warnings="-register-all"]
Inductive json : Type :=
  | JNull
  | JBool (b : bool)
  | JNumber (lit : string)
  | JString (s : string)
  | JArray (l : list json)
  | JObject (l : list (string * json)).

(** Induction on a JSON text, with the hypothesis for every element of
    an array and for every member of an object. *)
Section json_induction.

Variable P : json → Prop.
Hypothesis HNull : P JNull.
Hypothesis HBool : ∀ b, P (JBool b).
Hypothesis HNumber : ∀ lit, P (JNumber lit).
Hypothesis HString : ∀ s, P (JString s).
Hypothesis HArray : ∀ l, Forall P l → P (JArray l).
Hypothesis HObject : ∀ l, Forall (λ kv : string * json, P kv.2) l → P (JObject l).

Fixpoint json_nested_ind (j : json) : P j :=
  match j with
  | JNull => HNull
  | JBool b => HBool b
  | JNumber lit => HNumber lit
  | JString s => HString s
  | JArray l =>
      HArray l
        ((fix elements (l : list json) : Forall P l :=
            match l with
            | [] => @List.Forall_nil _ P
            | x :: l' => @List.Forall_cons _ P x l' (json_nested_ind x) (elements l')
            end) l)
  | JObject l =>
      HObject l
        ((fix members (l : list (string * json))
            : Forall (λ kv : string * json, P kv.2) l :=
            match l with
            | [] => @List.Forall_nil _ _
            | kv :: l' =>
                @List.Forall_cons _ (λ kv : string * json, P kv.2) kv l'
                  (json_nested_ind kv.2) (members l')
            end) l)
  end.

End json_induction.

Definition isSpace (c : ascii) : bool :=
  (byte c =? 32) || (byte c =? 9) || (byte c =? 13) || (byte c =? 10).

Fixpoint skipSpace (s : string) : string :=
  match s with
  | String c t => if isSpace c then skipSpace t else s
  | EmptyString => s
  end.

(** The number literal at the head of [s] and what follows it:
    [-]? then [0] or a digit [1-9] and more digits, then an optional
    fraction of at least one digit, then an optional exponent of at least
    one digit. *)
Definition scanNumber (s : string) : option (string * string) :=
  let '(sign, s1) :=
    match s with
    | String "-" t => ("-", t)
    | _ => ("", s)
    end in
  '(ip, s2) ←
    match s1 with
    | String "0" t => Some ("0", t)
    | String c _ => if isDigit c then Some (spanDigits s1) else None
    | EmptyString => None
    end;
  '(fp, s3) ←
    match s2 with
    | String "." t =>
        let '(ds, r) := spanDigits t in
        match ds with
        | EmptyString => None
        | _ => Some ("." +:+ ds, r)
        end
    | _ => Some ("", s2)
    end;
  '(ep, s4) ←
    match s3 with
    | String c t =>
        if Ascii.eqb c "e" || Ascii.eqb c "E" then
          let '(sg, u) :=
            match t with
            | String "+" u => ("+", u)
            | String "-" u => ("-", u)
            | _ => ("", t)
            end in
          let '(ds, r) := spanDigits u in
          match ds with
          | EmptyString => None
          | _ => Some (String c sg +:+ ds, r)
          end
        else Some ("", s3)
    | EmptyString => Some ("", s3)
    end;
  Some (sign +:+ ip +:+ fp +:+ ep, s4).

(** [isValidNumber] *)
Definition isValidNumber (lit : string) : bool :=
  match scanNumber lit with
  | Some (_, EmptyString) => true
  | _ => false
  end.

(** [maxNestingDepth] of the scanner. *)
Definition maxNestingDepth : nat := Z.to_nat 10000.

(** [s] without the prefix [p], when it has it. *)
Definition stripPrefix (p s : string) : option string :=
  if String.prefix p s then Some (slice s (String.length p) (String.length s))
  else None.

(** The JSON value at the head of [s] (which starts with no white space)
    and what follows it; [None] for a syntax error.  [depth] is the number
    of arrays and objects [s] is nested in.  Every call takes one unit of
    [fuel]. *)
Fixpoint parseValue (fuel depth : nat) (s : string) : option (json * string) :=
  match fuel with
  | 0 => None
  | S fuel' =>
      match s with
      | EmptyString => None
      | String c t =>
          if Ascii.eqb c "{" then
            if depth <? maxNestingDepth then
              match skipSpace t with
              | String "}" r => Some (JObject [], r)
              | t' =>
                  '(ms, r) ← parseMembers fuel' (S depth) t';
                  Some (JObject ms, r)
              end
            else None
          else if Ascii.eqb c "[" then
            if depth <? maxNestingDepth then
              match skipSpace t with
              | String "]" r => Some (JArray [], r)
              | t' =>
                  '(vs, r) ← parseElements fuel' (S depth) t';
                  Some (JArray vs, r)
              end
            else None
          else if Ascii.eqb c dquote then
            '(str, r) ← parseStringBody 0 t; Some (JString str, r)
          else if Ascii.eqb c "t" then
            r ← stripPrefix "true" s; Some (JBool true, r)
          else if Ascii.eqb c "f" then
            r ← stripPrefix "false" s; Some (JBool false, r)
          else if Ascii.eqb c "n" then
            r ← stripPrefix "null" s; Some (JNull, r)
          else
            '(lit, r) ← scanNumber s; Some (JNumber lit, r)
      end
  end
with parseElements (fuel depth : nat) (s : string)
    : option (list json * string) :=
  match fuel with
  | 0 => None
  | S fuel' =>
      '(v, r) ← parseValue fuel' depth s;
      match skipSpace r with
      | String "," r' =>
          '(vs, r'') ← parseElements fuel' depth (skipSpace r');
          Some (v :: vs, r'')
      | String "]" r' => Some ([v], r')
      | _ => None
      end
  end
with parseMembers (fuel depth : nat) (s : string)
    : option (list (string * json) * string) :=
  match fuel with
  | 0 => None
  | S fuel' =>
      match s with
      | String c t =>
          if Ascii.eqb c dquote then
            '(k, r) ← parseStringBody 0 t;
            match skipSpace r with
            | String ":" r1 =>
                '(v, r2) ← parseValue fuel' depth (skipSpace r1);
                match skipSpace r2 with
                | String "," r3 =>
                    '(ms, r4) ← parseMembers fuel' depth (skipSpace r3);
                    Some ((k, v) :: ms, r4)
                | String "}" r3 => Some ([(k, v)], r3)
                | _ => None
                end
            | _ => None
            end
          else None
      | EmptyString => None
      end
  end.

(** A whole JSON text: one value, white space around it allowed. *)
Definition parseJSON (data : string) : option json :=
  '(v, r) ← parseValue (2 * String.length data + 2) 0 (skipSpace data);
  match skipSpace r with
  | EmptyString => Some v
  | _ => None
  end.

(** The first error wins ([d.saveError]). *)
Definition saveError (saved : option error) (err : error) : option error :=
  match saved with
  | Some _ => saved
  | None => Some err
  end.

Section decodeLists.

Variable decode : json → heap → option error → value * heap * option error.

(** The elements of an array, decoded left to right. *)
Fixpoint decodeElements (l : list json) (h : heap) (saved : option error)
    : list value * heap * option error :=
  match l with
  | [] => ([], h, saved)
  | x :: l' =>
      let '(v, h1, saved1) := decode x h saved in
      let '(vs, h2, saved2) := decodeElements l' h1 saved1 in
      (v :: vs, h2, saved2)
  end.

(** The members of an object, decoded left to right and stored into [m];
    a repeated key keeps its last value. *)
Fixpoint decodeMembers (l : list (string * json)) (m : gmap string value)
    (h : heap) (saved : option error)
    : gmap string value * heap * option error :=
  match l with
  | [] => (m, h, saved)
  | (k, x) :: l' =>
      let '(v, h1, saved1) := decode x h saved in
      decodeMembers l' (<[k := v]> m) h1 saved1
  end.

End decodeLists.

(** Decoding into an [interface{}]: objects become new
    [map[string]interface{}] values, arrays new [[]interface{}] values,
    numbers [float64] ([convertNumber] with [UseNumber] off); a number out
    of range is recorded as the error and decodes to [nil].  The
    containers are allocated once their contents are built. *)
Fixpoint decodeValue (j : json) (h : heap) (saved : option error)
    : value * heap * option error :=
  match j with
  | JNull => (VNil, h, saved)
  | JBool b => (VBool b, h, saved)
  | JString s => (VString s, h, saved)
  | JNumber lit =>
      match ParseFloat lit with
      | Some f => (VFloat64 f, h, saved)
      | None => (VNil, h, saveError saved (ErrJSONNumberRange lit))
      end
  | JArray l =>
      let '(vs, h1, saved1) := decodeElements decodeValue l h saved in
      let '(a, h2) := allocSlice vs h1 in
      (VSlice a, h2, saved1)
  | JObject l =>
      let '(m, h1, saved1) := decodeMembers decodeValue l ∅ h saved in
      let '(a, h2) := allocAnyMap m h1 in
      (VMap a, h2, saved1)
  end.

(** [var result interface{}; err := json.Unmarshal(data, &result)]: the
    text is checked as a whole first, then decoded. *)
Definition Unmarshal (data : string) (h : heap) : value * option error * heap :=
  match parseJSON data with
  | None => (VNil, Some ErrJSONSyntax, h)
  | Some j =>
      let '(v, h', saved) := decodeValue j h None in
      (v, saved, h')
  end.

Global Instance string_leb_dec :
  RelDecision (λ a b : string * value, String.leb (fst a) (fst b) = true).
Proof.
  intros a b. unfold Decision.
  destruct (String.leb (fst a) (fst b)); [left | right]; congruence.
Defined.

(** The entries of a map in the order [json.Marshal] writes them: sorted
    by key, as byte strings. *)
Definition sortedEntries (m : gmap string value) : list (string * value) :=
  merge_sort (λ a b : string * value, String.leb (fst a) (fst b) = true)
    (map_to_list m).

(** The encoder on a value: the compact JSON text.  [seenMaps] and
    [seenSlices] are the containers being encoded around [v]; meeting one
    of them again is a reference cycle, an [UnsupportedValueError].  A
    dangling address encodes as a [nil] container does. *)
Fixpoint encodeValue (fuel : nat) (h : heap) (seenMaps seenSlices : gset addr)
    (v : value) : string * option error :=
  match v with
  | VNil => ("null", None)
  | VBool b => (if b then "true" else "false", None)
  | VString s => (encodeString s, None)
  | VInt n => (FormatInt n, None)
  | VFloat64 f => encodeFloat f
  | VNumber lit =>
      let numStr := if String.eqb lit "" then "0" else lit in
      if isValidNumber numStr then (numStr, None)
      else ("", Some (ErrJSONInvalidNumber numStr))
  | VSlice a =>
      match fuel with
      | 0 => ("", Some ErrJSONUnsupportedValue)
      | S fuel' =>
          if bool_decide (a ∈ seenSlices) then ("", Some ErrJSONUnsupportedValue)
          else
            match slices h !! a with
            | None => ("null", None)
            | Some l =>
                let '(body, err) :=
                  (fix elements (l : list value) (first : bool)
                     : string * option error :=
                     match l with
                     | [] => ("", None)
                     | x :: l' =>
                         let '(sx, err) :=
                           encodeValue fuel' h seenMaps ({[a]} ∪ seenSlices) x in
                         match err with
                         | Some e => ("", Some e)
                         | None =>
                             let '(rest, err') := elements l' false in
                             ((if first then "" else ",") +:+ sx +:+ rest, err')
                         end
                     end) l true in
                match err with
                | Some e => ("", Some e)
                | None => ("[" +:+ body +:+ "]", None)
                end
            end
      end
  | VMap a =>
      match fuel with
      | 0 => ("", Some ErrJSONUnsupportedValue)
      | S fuel' =>
          if bool_decide (a ∈ seenMaps) then ("", Some ErrJSONUnsupportedValue)
          else
            match anymaps h !! a with
            | None => ("null", None)
            | Some m =>
                let '(body, err) :=
                  (fix members (l : list (string * value)) (first : bool)
                     : string * option error :=
                     match l with
                     | [] => ("", None)
                     | (k, x) :: l' =>
                         let '(sx, err) :=
                           encodeValue fuel' h ({[a]} ∪ seenMaps) seenSlices x in
                         match err with
                         | Some e => ("", Some e)
                         | None =>
                             let '(rest, err') := members l' false in
                             ((if first then "" else ",") +:+ encodeString k
                                +:+ ":" +:+ sx +:+ rest, err')
                         end
                     end) (sortedEntries m) true in
                match err with
                | Some e => ("", Some e)
                | None => ("{" +:+ body +:+ "}", None)
                end
            end
      end
  end.

(** [json.Marshal(v)].  A chain of nested containers without a cycle is
    at most as long as the store has containers, so the fuel never runs
    out before a cycle is met. *)
Definition Marshal (v : value) (h : heap) : string * option error :=
  let '(raw, err) :=
    encodeValue (S (size (anymaps h) + size (slices h))) h ∅ ∅ v in
  match err with
  | Some e => ("", Some e)
  | None => (raw, None)
  end.

(** ** The substitutor (substitution.go) *)

Definition ApplyToURL (url : string) (vars : gmap string string)
    : string * option error :=
  let '(result, err) := substitute url vars in
  match err with
  | Some e => ("", Some (ErrURLSubstitution e))
  | None => (result, None)
  end.

(** [json.Marshal(v)] for a [string]; it has no error case. *)
Definition MarshalString (v : string) : string * option error :=
  (encodeString v, None).

Definition setRequest (s : Step) (request : string) : Step :=
  mkStep request (Headers s) (Query s) (PathParams s) (Body s) (Delay s)
    (SaveToContext s) (NextSteps s).

Definition setHeaders (s : Step) (headers : option addr) : Step :=
  mkStep (Request s) headers (Query s) (PathParams s) (Body s) (Delay s)
    (SaveToContext s) (NextSteps s).

Definition setQuery (s : Step) (query : option addr) : Step :=
  mkStep (Request s) (Headers s) query (PathParams s) (Body s) (Delay s)
    (SaveToContext s) (NextSteps s).

Definition setPathParams (s : Step) (pathParams : option addr) : Step :=
  mkStep (Request s) (Headers s) (Query s) pathParams (Body s) (Delay s)
    (SaveToContext s) (NextSteps s).

Definition setBody (s : Step) (body : value) : Step :=
  mkStep (Request s) (Headers s) (Query s) (PathParams s) body (Delay s)
    (SaveToContext s) (NextSteps s).

Section Substitutor.

(** The order in which [range] visits the entries of a
    [map[string]string], as in the validator. *)
Variable rangeOrder : gmap string string → list (string * string).

(** The loop of [ApplyToHeaders] and of [ApplyToQuery] over the entries
    of the input map, storing into the new map at [result]; [wrap] builds
    the error of the entry that fails. *)
Fixpoint substituteEntries (wrap : string → error → error)
    (entries : list (string * string)) (vars : gmap string string)
    (result : addr) (h : heap) : option error * heap :=
  match entries with
  | [] => (None, h)
  | (k, v) :: entries' =>
      let '(replaced, err) := substitute v vars in
      match err with
      | Some e => (Some (wrap k e), h)
      | None =>
          substituteEntries wrap entries' vars result
            (storeStrMap result k replaced h)
      end
  end.

Definition ApplyToHeaders (headers : option addr) (vars : gmap string string)
    (h : heap) : option addr * option error * heap :=
  let '(result, h0) := makeStrMap h in
  let '(err, h1) :=
    substituteEntries ErrHeaderSubstitution
      (rangeOrder (derefStrMap h0 headers)) vars result h0 in
  match err with
  | Some e => (None, Some e, h1)
  | None => (Some result, None, h1)
  end.

Definition ApplyToQuery (query : option addr) (vars : gmap string string)
    (h : heap) : option addr * option error * heap :=
  let '(result, h0) := makeStrMap h in
  let '(err, h1) :=
    substituteEntries ErrQueryParamSubstitution
      (rangeOrder (derefStrMap h0 query)) vars result h0 in
  match err with
  | Some e => (None, Some e, h1)
  | None => (Some result, None, h1)
  end.

(** The loop of [ApplyToBody] that fills [jsonVars], a map local to the
    call: each value JSON-encoded and stripped of its quotes. *)
Fixpoint escapeEntries (entries : list (string * string))
    (jsonVars : gmap string string) : gmap string string * option error :=
  match entries with
  | [] => (jsonVars, None)
  | (k, v) :: entries' =>
      let '(escaped, err) := MarshalString v in
      match err with
      | Some e => (jsonVars, Some (ErrJSONEscape k e))
      | None =>
          escapeEntries entries'
            (<[k := slice escaped 1 (String.length escaped - 1)]> jsonVars)
      end
  end.

Definition ApplyToBody (body : value) (vars : gmap string string) (h : heap)
    : value * option error * heap :=
  match body with
  | VNil => (VNil, None, h)
  | VString str =>
      let '(result, err) := substitute str vars in
      match err with
      | Some e => (VNil, Some (ErrBodySubstitution e), h)
      | None => (VString result, None, h)
      end
  | _ =>
      let '(jsonVars, err) := escapeEntries (rangeOrder vars) ∅ in
      match err with
      | Some e => (VNil, Some e, h)
      | None =>
          let '(raw, err) := Marshal body h in
          match err with
          | Some e => (VNil, Some (ErrBodyMarshalling e), h)
          | None =>
              let '(substituted, err) := substitute raw jsonVars in
              match err with
              | Some e => (VNil, Some (ErrBodySubstitution e), h)
              | None =>
                  let '(result, err, h') := Unmarshal substituted h in
                  match err with
                  | Some e => (VNil, Some (ErrBodyUnmarshalling e), h')
                  | None => (result, None, h')
                  end
              end
          end
      end
  end.

Definition ApplyToStep (step : Step) (vars : gmap string string) (h : heap)
    : Step * option error * heap :=
  let result := step in
  let parts := SplitN2 (Request step) " " in
  let '(result, err) :=
    match parts with
    | [method; path] =>
        let '(substitutedPath, err) := ApplyToURL path vars in
        match err with
        | Some e => (result, Some (ErrRequestPathSubstitution e))
        | None => (setRequest result (method +:+ " " +:+ substitutedPath), None)
        end
    | _ => (result, None)
    end in
  match err with
  | Some e => (zeroStep, Some e, h)
  | None =>
  let '(result, err, h) :=
    match Headers step with
    | Some _ =>
        let '(headers, err, h') := ApplyToHeaders (Headers step) vars h in
        match err with
        | Some e => (result, Some e, h')
        | None => (setHeaders result headers, None, h')
        end
    | None => (result, None, h)
    end in
  match err with
  | Some e => (zeroStep, Some e, h)
  | None =>
  let '(result, err, h) :=
    match Query step with
    | Some _ =>
        let '(query, err, h') := ApplyToQuery (Query step) vars h in
        match err with
        | Some e => (result, Some e, h')
        | None => (setQuery result query, None, h')
        end
    | None => (result, None, h)
    end in
  match err with
  | Some e => (zeroStep, Some e, h)
  | None =>
  let '(result, err, h) :=
    match PathParams step with
    | Some _ =>
        let '(pathParams, err, h') := ApplyToQuery (PathParams step) vars h in
        match err with
        | Some e => (result, Some (ErrPathParamsSubstitution e), h')
        | None => (setPathParams result pathParams, None, h')
        end
    | None => (result, None, h)
    end in
  match err with
  | Some e => (zeroStep, Some e, h)
  | None =>
  let '(result, err, h) :=
    if negb (isNil (Body step)) then
      let '(body, err, h') := ApplyToBody (Body step) vars h in
      match err with
      | Some e => (result, Some e, h')
      | None => (setBody result body, None, h')
      end
    else (result, None, h) in
  match err with
  | Some e => (zeroStep, Some e, h)
  | None => (result, None, h)
  end end end end end.

End Substitutor.

(** ** Vocabulary of the statements about [substitute] *)

(** The name inside a match of [varPattern], as [substituteFunc] takes it:
    [match[2 : len(match)-1]]. *)
Definition matchName (m : string) : string :=
  slice m 2 (String.length m - 1).

(** The names in the matches of a list of tokens, in order. *)
Definition tokenNames (ts : list token) : list string :=
  omap (λ t, match t with Match m => Some (matchName m) | Lit _ => None end) ts.

(** The names of the placeholders of a template, in scan order. *)
Definition placeholders (s : string) : list string := tokenNames (scan s).

(** The text a token stands for in the template. *)
Definition tokenText (t : token) : string :=
  match t with
  | Lit c => String c EmptyString
  | Match m => m
  end.

(** The text a token becomes: a placeholder becomes the value of its
    name, as it is (and stays as it is when the name has no value). *)
Definition tokenValue (vars : gmap string string) (t : token) : string :=
  match t with
  | Lit c => String c EmptyString
  | Match m => default m (vars !! matchName m)
  end.

Fixpoint concatStrings (l : list string) : string :=
  match l with
  | [] => EmptyString
  | s :: l' => s +:+ concatStrings l'
  end.

(** The template with every placeholder replaced by its value. *)
Definition expand (vars : gmap string string) (s : string) : string :=
  concatStrings (tokenValue vars <$> scan s).

(** [c] does not occur in [s]. *)
Fixpoint freeOf (c : ascii) (s : string) : bool :=
  match s with
  | EmptyString => true
  | String c' t => negb (Ascii.eqb c' c) && freeOf c t
  end.

(** ** Vocabulary of the statements about the validator *)

(** A wildcard status pattern: a digit [1]-[5], then [xx]. *)
Definition isWildcardPattern (code : string) : bool :=
  match code with
  | String c t =>
      String.eqb t "xx"
      && (nat_of_ascii "1" <=? nat_of_ascii c)
      && (nat_of_ascii c <=? nat_of_ascii "5")
  | EmptyString => false
  end.

(** An exact status code: three digits, the first being [1]-[5], that is
    a code from 100 to 599. *)
Definition isThreeDigitCode (code : string) : bool :=
  match code with
  | String a (String b (String c EmptyString)) =>
      (nat_of_ascii "1" <=? nat_of_ascii a) && (nat_of_ascii a <=? nat_of_ascii "5")
      && isDigit b && isDigit c
  | _ => false
  end.

(** [code] without a leading [+]. *)
Definition dropPlus (code : string) : string :=
  match code with
  | String c t => if Ascii.eqb c "+" then t else code
  | EmptyString => code
  end.

(** The scenario-level checks of [Validate], before the loop over the
    steps. *)
Definition scenarioViolation (s : Scenario) : option error :=
  if String.eqb (Name s) "" then Some ErrNameRequired
  else if String.eqb (BaseURL s) "" then Some ErrBaseURLRequired
  else if (VirtualUsers s <=? 0)%N then Some ErrVirtualUsers
  else if (Duration s <=? 0)%N then Some ErrDurationZero
  else if (31556952 <? Duration s)%N then Some ErrDurationTooLong
  else if length (Steps s) =? 0 then Some ErrNoSteps
  else None.

(** The requests collected from [steps] into [acc], as the loop of
    [Validate] collects them in [uniqueRequests]. *)
Definition collectRequests (acc : gset string) (steps : list Step) : gset string :=
  foldl (λ acc step, {[ Request step ]} ∪ acc) acc steps.

Definition requestsOf (steps : list Step) : gset string :=
  collectRequests ∅ steps.

(** The index of the step a validation error is about. *)
Definition stepIndex (e : error) : option nat :=
  match e with
  | ErrStepRequestRequired i | ErrStepDuplicate i _ | ErrStep i _
  | ErrStepBody i _ | ErrStepDelayNegative i _ | ErrStepDelayTooLong i _
  | ErrNextRequestRequired i _ | ErrNext i _ _ | ErrNextTargetNotFound i _ _
  | ErrNextStatusCode i _ _ _ | ErrNextMapping i _ _ _ _ => Some i
  | _ => None
  end.

(** ** Vocabulary of the statements about the store *)

(** Every container of [h] is in [h'], at the same address and with the
    same contents: going from [h] to [h'] only allocates. *)
Definition heapIncl (h h' : heap) : Prop :=
  strmaps h ⊆ strmaps h' ∧ anymaps h ⊆ anymaps h' ∧ slices h ⊆ slices h'.

(** The [map[string]string] that [m] refers to in [h] has the same
    entries in [h']. *)
Definition sameStrMap (h h' : heap) (m : option addr) : Prop :=
  ∀ a entries, m = Some a →
    strmaps h !! a = Some entries → strmaps h' !! a = Some entries.

(** A value with the containers it refers to in place of their
    addresses. *)
#[warnings="-register-all"]
Inductive tree : Type :=
  | TNil
  | TBool (b : bool)
  | TString (s : string)
  | TInt (n : Z)
  | TFloat64 (f : float64)
  | TNumber (lit : string)
  | TSlice (l : list tree)
  | TMap (l : list (string * tree)).

(** The deep value of [v] in [h], down to [fuel] levels of containers,
    the entries of a map sorted by key; [None] when [v] reaches deeper,
    or reaches an address with no container. *)
Fixpoint deepValue (fuel : nat) (h : heap) (v : value) : option tree :=
  match v with
  | VNil => Some TNil
  | VBool b => Some (TBool b)
  | VString s => Some (TString s)
  | VInt n => Some (TInt n)
  | VFloat64 f => Some (TFloat64 f)
  | VNumber lit => Some (TNumber lit)
  | VSlice a =>
      match fuel with
      | 0 => None
      | S fuel' =>
          l ← slices h !! a;
          TSlice <$> mapM (deepValue fuel' h) l
      end
  | VMap a =>
      match fuel with
      | 0 => None
      | S fuel' =>
          m ← anymaps h !! a;
          TMap <$> mapM (λ kv, pair kv.1 <$> deepValue fuel' h kv.2)
                        (sortedEntries m)
      end
  end.


(** The [float64] nearest to an integer. *)
Definition float64_of_Z (n : Z) : float64 :=
  roundRational (n <? 0)%Z (Z.abs n) 1.

(** ** Templates as the specification reads them

    The statements about [substitute] that speak of the placeholders of a
    template read the template off its text, without the scan of the
    implementation. *)

(** A piece of a template: a byte of fixed text, or a placeholder
    [${name}]. *)
Inductive piece : Type :=
  | Text (c : ascii)
  | Placeholder (name : string).

(** [s] starts with the placeholder [${name}], followed by [rest]: the
    two bytes [${], a name that is not empty and has no [}], and [}]. *)
Definition startsWithPlaceholder (s name rest : string) : Prop :=
  name ≠ "" ∧ freeOf "}" name = true
  ∧ s = "${" +:+ name +:+ "}" +:+ rest.

(** Reading a template from left to right: where the text starts with a
    placeholder, that placeholder and then the reading of what follows
    its [}]; where it does not, the byte there and then the reading of
    what follows the byte. *)
Inductive reads : string → list piece → Prop :=
  | reads_end : reads "" []
  | reads_placeholder s name rest ps :
      startsWithPlaceholder s name rest → reads rest ps →
      reads s (Placeholder name :: ps)
  | reads_text c t ps :
      (∀ name rest, ¬ startsWithPlaceholder (String c t) name rest) →
      reads t ps →
      reads (String c t) (Text c :: ps).

(** The names of the placeholders of a reading, from left to right. *)
Definition placeholderNames (ps : list piece) : list string :=
  omap (λ p, match p with Placeholder n => Some n | Text _ => None end) ps.

(** The text of a reading with the value of its name in place of every
    placeholder, byte for byte (and nothing for a name without a value,
    which the statements rule out). *)
Fixpoint filled (vars : gmap string string) (ps : list piece) : string :=
  match ps with
  | [] => EmptyString
  | Text c :: ps' => String c (filled vars ps')
  | Placeholder n :: ps' => default EmptyString (vars !! n) +:+ filled vars ps'
  end.

(** The token of the scan that a piece of a reading is. *)
Definition pieceToken (p : piece) : token :=
  match p with
  | Text c => Lit c
  | Placeholder n => Match ("${" +:+ n +:+ "}")
  end.

(** The piece of a reading that a token of the scan is. *)
Definition tokenPiece (t : token) : piece :=
  match t with
  | Lit c => Text c
  | Match m => Placeholder (matchName m)
  end.

(** ** The invariants of a scenario

    What validation enforces (the data model of the specification and
    its invariants 1 to 7), stated over the fields of a scenario and the
    text of its strings, without the functions of the validator. *)

(** A request identifier [METHOD /path]: one of the six methods, a
    space, and a path that starts with [/]. *)
Definition requestForm (request method path : string) : Prop :=
  request = method +:+ " " +:+ path
  ∧ In method ["GET"; "POST"; "PUT"; "PATCH"; "DELETE"; "HEAD"]
  ∧ ∃ rest, path = String "/" rest.

(** A status-code pattern: a wildcard [Nxx] with [N] from 1 to 5, or a
    code from 100 to 599 as a decimal integer is read (an optional [+],
    leading zeros, then three digits of which the first is 1 to 5). *)
Definition statusPatternForm (code : string) : Prop :=
  isWildcardPattern code = true
  ∨ isThreeDigitCode (dropZeros (dropPlus code)) = true.

(** A mapping [source.field -> target.field], each side split at its
    first [.], with a source prefix among the seven source names and a
    target prefix among the six target names. *)
Definition mappingForm (source target : string) : Prop :=
  ∃ sp sf tp tf,
    source = sp +:+ "." +:+ sf ∧ freeOf "." sp = true
    ∧ In sp ["response"; "headers"; "query"; "path_params"; "body";
             "cookies"; "variables"]
    ∧ target = tp +:+ "." +:+ tf ∧ freeOf "." tp = true
    ∧ In tp ["headers"; "query"; "path_params"; "body"; "cookies";
             "variables"].

(** The invariants of a next step of scenario [s]: its target is a
    request identifier and names a step of [s], every status-code
    pattern is one, and every mapping is one. *)
Definition nextStepInvariants (s : Scenario) (h : heap) (nextStep : NextStep)
    : Prop :=
  (∃ method path, requestForm (NextStep_Request nextStep) method path)
  ∧ (∃ target, target ∈ Steps s
               ∧ Request target = NextStep_Request nextStep)
  ∧ (∀ code, code ∈ NextStep_StatusCodes nextStep → statusPatternForm code)
  ∧ (∀ source target,
       derefStrMap h (NextStep_Map nextStep) !! source = Some target →
       mappingForm source target).

(** The invariants of the step at index [i] of scenario [s]: its request
    is a request identifier that no earlier step has, a GET or HEAD step
    has no body, the delay is from 0 to 10 minutes (in nanoseconds), and
    every next step keeps its invariants. *)
Definition stepInvariants (s : Scenario) (h : heap) (i : nat) (step : Step)
    : Prop :=
  (∃ method path,
     requestForm (Request step) method path
     ∧ ((method = "GET" ∨ method = "HEAD") → Body step = VNil))
  ∧ (∀ k earlier, k < i → Steps s !! k = Some earlier →
       Request earlier ≠ Request step)
  ∧ (0 ≤ Delay step ≤ 600000000000)%Z
  ∧ (∀ nextStep, nextStep ∈ NextSteps step → nextStepInvariants s h nextStep).

(** The invariants of the fields of a scenario: a name, a base URL, at
    least one virtual user, a duration from 1 to 31556952 seconds, and
    at least one step. *)
Definition scenarioInvariants (s : Scenario) : Prop :=
  Name s ≠ "" ∧ BaseURL s ≠ ""
  ∧ (0 < VirtualUsers s)%N
  ∧ (0 < Duration s ≤ 31556952)%N
  ∧ Steps s ≠ [].

(** ** Vocabulary of the further statements about the substitutor *)

(** The errors [ApplyToStep] can return, by the stage that fails: the
    request path, the headers, the query, the path parameters (whose
    error wraps the query-parameter error of [ApplyToQuery]) and the
    body. *)
Inductive stepError : error → Prop :=
  | stepError_path n :
      stepError (ErrRequestPathSubstitution
                   (ErrURLSubstitution (ErrUndefinedVariable n)))
  | stepError_header k n :
      stepError (ErrHeaderSubstitution k (ErrUndefinedVariable n))
  | stepError_query k n :
      stepError (ErrQueryParamSubstitution k (ErrUndefinedVariable n))
  | stepError_pathParams k n :
      stepError (ErrPathParamsSubstitution
                   (ErrQueryParamSubstitution k (ErrUndefinedVariable n)))
  | stepError_body n :
      stepError (ErrBodySubstitution (ErrUndefinedVariable n))
  | stepError_marshal e :
      stepError (ErrBodyMarshalling e)
  | stepError_unmarshal e :
      stepError (ErrBodyUnmarshalling e).

(** The error [e] of [ApplyToStep] blames the variable [n]: it is one of
    the five undefined-variable errors, for the name [n]. *)
Inductive blames : error → string → Prop :=
  | blames_path n :
      blames (ErrRequestPathSubstitution
                (ErrURLSubstitution (ErrUndefinedVariable n))) n
  | blames_header k n :
      blames (ErrHeaderSubstitution k (ErrUndefinedVariable n)) n
  | blames_query k n :
      blames (ErrQueryParamSubstitution k (ErrUndefinedVariable n)) n
  | blames_pathParams k n :
      blames (ErrPathParamsSubstitution
                (ErrQueryParamSubstitution k (ErrUndefinedVariable n))) n
  | blames_body n :
      blames (ErrBodySubstitution (ErrUndefinedVariable n)) n.

(** ** Vocabulary of the further statements about the validator *)

(** A scenario that [Validate] accepts, and the store its maps live in:
    a login step that goes on to a listing step on a 2xx status, taking
    the token of the response to a header. *)
Definition acceptedScenario : Scenario :=
  mkScenario "checkout" "http://localhost:8080" 10 60 None
    [ mkStep "POST /login" None None None (VString "user=${user}") 0 None
        [ mkNextStep "GET /items" ["200"; "2xx"] (Some 1%positive) ];
      mkStep "GET /items" None None None VNil 1000000000 None [] ].

Definition acceptedStore : heap :=
  Heap {[ 1%positive := {[ "response.token" := "headers.Authorization";
                          "body.id" := "query.id" ]} ]} ∅ ∅.

(** Two errors of [Validate] that differ at most in which invalid mapping
    of one next step they report. *)
Definition sameUpToMapping (e1 e2 : error) : Prop :=
  e1 = e2
  ∨ ∃ i j source1 target1 err1 source2 target2 err2,
      e1 = ErrNextMapping i j source1 target1 err1
      ∧ e2 = ErrNextMapping i j source2 target2 err2.

(** Two results of [Validate] that are both acceptance, or both errors
    that are the same up to the mapping reported. *)
Definition sameOutcome (r1 r2 : option error) : Prop :=
  match r1, r2 with
  | None, None => True
  | Some e1, Some e2 => sameUpToMapping e1 e2
  | _, _ => False
  end.

(** ** Vocabulary of the statements about JSON escaping *)

(** [s], after its first [skip] bytes, is a sequence of well-formed
    UTF-8 encodings ([utf8.ValidString]); [skip] counts bytes already
    taken by a multi-byte sequence, as in [escapeString]. *)
Fixpoint validUTF8 (skip : nat) (s : string) : bool :=
  match s with
  | EmptyString => skip =? 0
  | String c t =>
      match skip with
      | S skip' => validUTF8 skip' t
      | 0 =>
          match runeLen s with
          | 0 => false
          | S n => validUTF8 n t
          end
      end
  end.

(** [s] without its first [n] bytes. *)
Fixpoint dropBytes (n : nat) (s : string) : string :=
  match n, s with
  | S n', String _ t => dropBytes n' t
  | _, _ => s
  end.

(** ** Vocabulary of the statements about the containers of a body *)

(** Every container reachable from [v] in the store [h'] is one that the
    store [h] did not hold: it was allocated on the way from [h] to
    [h']. *)
#[warnings="-register-all"]
Inductive newIn (h h' : heap) : value → Prop :=
  | newIn_nil : newIn h h' VNil
  | newIn_bool b : newIn h h' (VBool b)
  | newIn_string s : newIn h h' (VString s)
  | newIn_int n : newIn h h' (VInt n)
  | newIn_float64 f : newIn h h' (VFloat64 f)
  | newIn_number lit : newIn h h' (VNumber lit)
  | newIn_slice a l :
      slices h !! a = None → slices h' !! a = Some l →
      Forall (newIn h h') l → newIn h h' (VSlice a)
  | newIn_map a m :
      anymaps h !! a = None → anymaps h' !! a = Some m →
      (∀ k x, m !! k = Some x → newIn h h' x) → newIn h h' (VMap a).

(** A value as decoding into an [interface{}] builds them, in the store
    [h']: [nil], a [bool], a [string], a [float64], or a slice or map of
    such values; no [int], [int64] or [json.Number]. *)
#[warnings="-register-all"]
Inductive decoded (h' : heap) : value → Prop :=
  | decoded_nil : decoded h' VNil
  | decoded_bool b : decoded h' (VBool b)
  | decoded_string s : decoded h' (VString s)
  | decoded_float64 f : decoded h' (VFloat64 f)
  | decoded_slice a l :
      slices h' !! a = Some l → Forall (decoded h') l → decoded h' (VSlice a)
  | decoded_map a m :
      anymaps h' !! a = Some m →
      (∀ k x, m !! k = Some x → decoded h' x) → decoded h' (VMap a).


(** * Package [parser] (OpenAPI): endpoints, tags and servers of a loaded
    specification

    [ParseFile] and [ParseData] hand the text to the loader of
    [kin-openapi] and keep the document it returns; the model starts from
    that document.  Of the library's structs the records below keep the
    fields the parser reads.  The entries of [openapi3.Tags] and
    [openapi3.Servers] are pointers the code dereferences without a test;
    a document with a [nil] entry does not pass the loader's validation,
    and the model has none. *)
Module OpenAPI.

Inductive error : Type :=
  | ErrNoDocument
      (* "no document loaded" *).

(** [openapi3.Operation] *)
Record Operation : Type := mkOperation {
  Operation_Tags : list string;
  Operation_OperationID : string;
  Operation_Summary : string;
  Operation_Description : string
}.

(** [openapi3.PathItem]: one operation pointer per method. *)
Record PathItem : Type := mkPathItem {
  PathItem_Get : option Operation;
  PathItem_Post : option Operation;
  PathItem_Put : option Operation;
  PathItem_Patch : option Operation;
  PathItem_Delete : option Operation;
  PathItem_Head : option Operation;
  PathItem_Options : option Operation;
  PathItem_Trace : option Operation
}.

(** [openapi3.Tag], [openapi3.Server], [openapi3.Info] *)
Record Tag : Type := mkTag { Tag_Name : string }.
Record Server : Type := mkServer { Server_URL : string }.
Record Info : Type := mkInfo { Info_Title : string; Info_Version : string }.

(** [openapi3.T].  [T_Paths] is the pointer [doc.Paths], read through
    [Paths.Map()]; [T_Tags] and [T_Servers] are slices, [None] being the
    [nil] slice. *)
Record T : Type := mkT {
  T_Paths : option (gmap string (option PathItem));
  T_Tags : option (list Tag);
  T_Servers : option (list Server);
  T_Info : option Info
}.

Record Endpoint : Type := mkEndpoint {
  Path : string;
  Method : string;
  Tags : list string;
  Responses : value;
  OperationID : string;
  Summary : string;
  Description : string
}.

Record Parser : Type := mkParser {
  doc : option T
}.

Definition New : Parser := mkParser None.

(** The map literal [operations] of [GetEndpoints]. *)
Definition operations (pathItem : PathItem) : gmap string (option Operation) :=
  {[ "GET" := PathItem_Get pathItem;
     "POST" := PathItem_Post pathItem;
     "PUT" := PathItem_Put pathItem;
     "PATCH" := PathItem_Patch pathItem;
     "DELETE" := PathItem_Delete pathItem;
     "HEAD" := PathItem_Head pathItem;
     "OPTIONS" := PathItem_Options pathItem;
     "TRACE" := PathItem_Trace pathItem ]}.

Section Range.

(** The orders in which [range] visits the entries of the three kinds of
    map the parser iterates over: the paths, the operations of a path
    item, and the set of tags (a [map[string]bool] whose values are all
    [true]). *)
Variable rangePaths :
  gmap string (option PathItem) → list (string * option PathItem).
Variable rangeOperations :
  gmap string (option Operation) → list (string * option Operation).
Variable rangeTagSet : gset string → list string.

(** The body of the inner loop of [GetEndpoints]. *)
Definition appendOperation (path : string) (endpoints : list Endpoint)
    (entry : string * option Operation) : list Endpoint :=
  let '(method, operation) := entry in
  match operation with
  | None => endpoints
  | Some operation =>
      (endpoints ++ [mkEndpoint path method (Operation_Tags operation) VNil
                       (Operation_OperationID operation)
                       (Operation_Summary operation)
                       (Operation_Description operation)])%list
  end.

(** The body of the outer loop of [GetEndpoints]. *)
Definition appendPathItem (endpoints : list Endpoint)
    (entry : string * option PathItem) : list Endpoint :=
  let '(path, pathItem) := entry in
  match pathItem with
  | None => endpoints
  | Some pathItem =>
      foldl (appendOperation path) endpoints
        (rangeOperations (operations pathItem))
  end.

Definition GetEndpoints (p : Parser) : list Endpoint * option error :=
  match doc p with
  | None => ([], Some ErrNoDocument)
  | Some d =>
      match T_Paths d with
      | None => ([], None)
      | Some paths => (foldl appendPathItem [] (rangePaths paths), None)
      end
  end.

Definition GetEndpointsByTag (p : Parser) (tag : string)
    : list Endpoint * option error :=
  let '(allEndpoints, err) := GetEndpoints p in
  match err with
  | Some e => ([], Some e)
  | None =>
      (foldl (λ (filtered : list Endpoint) endpoint,
                if Contains (Tags endpoint) tag
                then (filtered ++ [endpoint])%list
                else filtered)
             [] allEndpoints,
       None)
  end.

Definition GetTags (p : Parser) : list string * option error :=
  match doc p with
  | None => ([], Some ErrNoDocument)
  | Some d =>
      let tagSet : gset string := ∅ in
      let tagSet :=
        match T_Tags d with
        | Some tags =>
            foldl (λ tagSet tag,
                     if negb (String.eqb (Tag_Name tag) "")
                     then {[ Tag_Name tag ]} ∪ tagSet
                     else tagSet)
                  tagSet tags
        | None => tagSet
        end in
      let '(endpoints, err) := GetEndpoints p in
      match err with
      | Some e => ([], Some e)
      | None =>
          let tagSet :=
            foldl (λ tagSet endpoint,
                     foldl (λ tagSet tag, {[ tag ]} ∪ tagSet) tagSet
                           (Tags endpoint))
                  tagSet endpoints in
          (foldl (λ (tags : list string) tag, (tags ++ [tag])%list) []
                 (rangeTagSet tagSet),
           None)
      end
  end.

End Range.

Definition GetInfo (p : Parser) : option Info * option error :=
  match doc p with
  | None => (None, Some ErrNoDocument)
  | Some d => (T_Info d, None)
  end.

Definition GetServerURLs (p : Parser) : list string * option error :=
  match doc p with
  | None => ([], Some ErrNoDocument)
  | Some d =>
      match T_Servers d with
      | None => ([], None)
      | Some servers =>
          (foldl (λ (urls : list string) server,
                    (urls ++ [Server_URL server])%list) [] servers,
           None)
      end
  end.

End OpenAPI.

(** * Package [extractor]

    [Extract], [Exists] and [ExtractWithDefault] over [gjson.GetBytes],
    whose result they query through [Exists()] and [Value()]; the model
    is parametric in the library.  [jsonData] is a byte slice, of which
    the code reads the length alone. *)
Module Extractor.

Inductive error : Type :=
  | ErrJSONDataEmpty
      (* "json data cannot be empty" *)
  | ErrPathEmpty
      (* "path cannot be empty" *)
  | ErrPathNotFound (path : string)
      (* "path '%s' not found in JSON" *).

Section GJSON.

(** The values of type [any], with [nil], and [gjson.Result] with its two
    methods. *)
Variable any : Type.
Variable nil : any.
Variable Result : Type.
Variable GetBytes : string → string → Result.
Variable Result_Exists : Result → bool.
Variable Result_Value : Result → any.

Definition Extract (jsonData path : string) : any * option error :=
  if String.length jsonData =? 0 then (nil, Some ErrJSONDataEmpty)
  else if String.eqb path "" then (nil, Some ErrPathEmpty)
  else
    let result := GetBytes jsonData path in
    if negb (Result_Exists result) then (nil, Some (ErrPathNotFound path))
    else (Result_Value result, None).

Definition Exists (jsonData path : string) : bool :=
  if (String.length jsonData =? 0) || String.eqb path "" then false
  else
    let result := GetBytes jsonData path in
    Result_Exists result.

Definition ExtractWithDefault (jsonData path : string) (defaultValue : any)
    : any :=
  let '(value, err) := Extract jsonData path in
  match err with
  | Some _ => defaultValue
  | None => value
  end.

End GJSON.

End Extractor.

(** ** Vocabulary of the statements about the OpenAPI parser *)

(** The endpoint [GetEndpoints] builds for an operation of a path. *)
Definition endpointOf (path method : string) (operation : OpenAPI.Operation)
    : OpenAPI.Endpoint :=
  OpenAPI.mkEndpoint path method (OpenAPI.Operation_Tags operation) VNil
    (OpenAPI.Operation_OperationID operation)
    (OpenAPI.Operation_Summary operation)
    (OpenAPI.Operation_Description operation).

(** A document with two paths, three operations and one declared tag
    that no operation carries. *)
Definition petstore : OpenAPI.T :=
  OpenAPI.mkT
    (Some {[ "/pets" :=
               Some (OpenAPI.mkPathItem
                       (Some (OpenAPI.mkOperation ["pets"] "listPets" "" ""))
                       (Some (OpenAPI.mkOperation ["pets"; "write"] "addPet"
                                "" ""))
                       None None None None None None);
             "/health" :=
               Some (OpenAPI.mkPathItem
                       (Some (OpenAPI.mkOperation [""] "health" "" ""))
                       None None None None None None None);
             "/unused" := None ]})
    (Some [OpenAPI.mkTag "admin"; OpenAPI.mkTag ""])
    (Some [OpenAPI.mkServer "https://example.com/v1"])
    (Some (OpenAPI.mkInfo "Petstore" "1.0.0")).

(** * Properties of [substitute] *)

Local Arguments String.append : simpl nomatch.

Lemma scan_cons c t :
  scan (String c t) =
  match varPattern (String c t) with
  | Some (m, r) => Match m :: scan r
  | None => Lit c :: scan t
  end.
Proof.
  rewrite scan_equation_2. unfold scan_unfold_clause_2, inspect.
  destruct (varPattern (String c t)) as [[m r]|]; reflexivity.
Qed.

Lemma scan_ind' (P : string → list token → Prop) :
  P "" [] →
  (∀ c t m r, varPattern (String c t) = Some (m, r) →
     P r (scan r) → P (String c t) (Match m :: scan r)) →
  (∀ c t, varPattern (String c t) = None →
     P t (scan t) → P (String c t) (Lit c :: scan t)) →
  ∀ s, P s (scan s).
Proof.
  intros Hnil Hmatch Hlit s.
  remember (String.length s) as n eqn:Hn.
  revert s Hn. induction n as [n IH] using lt_wf_ind. intros s Hn.
  destruct s as [|c t].
  - rewrite scan_equation_1. exact Hnil.
  - rewrite scan_cons.
    destruct (varPattern (String c t)) as [[m r]|] eqn:E.
    + apply Hmatch; [exact E|].
      apply (IH (String.length r)); [|reflexivity].
      subst n. exact (varPattern_length _ _ _ E).
    + apply Hlit; [exact E|].
      apply (IH (String.length t)); [|reflexivity].
      subst n. simpl. lia.
Qed.

Lemma append_nil_r (s : string) : s +:+ "" = s.
Proof. induction s as [|c s IH]; simpl; [reflexivity | now rewrite IH]. Qed.

Lemma append_assoc (a b c : string) : (a +:+ b) +:+ c = a +:+ (b +:+ c).
Proof. induction a as [|x a IH]; simpl; [reflexivity | now rewrite IH]. Qed.

Lemma length_append (a b : string) :
  String.length (a +:+ b) = String.length a + String.length b.
Proof. induction a as [|x a IH]; simpl; [reflexivity | now rewrite IH]. Qed.

Lemma substring_0_append (a b : string) :
  substring 0 (String.length a) (a +:+ b) = a.
Proof. induction a as [|x a IH]; simpl; [now destruct b | now rewrite IH]. Qed.

Lemma spanNotBrace_spec s n r :
  spanNotBrace s = (n, r) →
  s = n +:+ r ∧ freeOf "}" n = true ∧ (r = "" ∨ ∃ r', r = String "}" r').
Proof.
  revert n r. induction s as [|c t IH]; simpl; intros n r H.
  - inversion H; subst. auto.
  - destruct (Ascii.eqb c "}") eqn:Ec.
    + inversion H; subst. apply Ascii.eqb_eq in Ec. subst c.
      simpl. eauto.
    + destruct (spanNotBrace t) as [n' r'] eqn:E. inversion H; subst.
      destruct (IH _ _ eq_refl) as (-> & Hf & Hr).
      simpl. rewrite Ec. simpl. auto.
Qed.

(** A match is [${name}] for a non-empty name without [}], and the
    matched text is a prefix of the scanned text. *)
Lemma varPattern_Some s m r :
  varPattern s = Some (m, r) →
  ∃ name, name ≠ "" ∧ freeOf "}" name = true
          ∧ m = "${" +:+ name +:+ "}" ∧ s = m +:+ r.
Proof.
  unfold varPattern. intros H.
  destruct s as [|a s]; [discriminate|].
  destruct s as [|b t]; [destruct a as [[] [] [] [] [] [] [] []]; discriminate|].
  destruct (spanNotBrace t) as [n' r'] eqn:E.
  destruct (spanNotBrace_spec _ _ _ E) as (-> & Hf & _).
  destruct a as [[] [] [] [] [] [] [] []]; try discriminate.
  destruct b as [[] [] [] [] [] [] [] []]; try discriminate.
  destruct n' as [|c n]; try discriminate.
  destruct r' as [|c' r']; try discriminate.
  destruct c' as [[] [] [] [] [] [] [] []]; try discriminate.
  inversion H; subst. exists (String c n).
  split; [discriminate|]. split; [exact Hf|]. split; [reflexivity|].
  simpl. do 3 f_equal. now rewrite append_assoc.
Qed.

Lemma matchName_spec name : matchName ("${" +:+ name +:+ "}") = name.
Proof.
  unfold matchName, slice. simpl.
  rewrite length_append. simpl.
  replace (String.length name + 1 - 1) with (String.length name) by lia.
  apply substring_0_append.
Qed.

(** The tokens of a template, put together again, are the template. *)
Lemma scan_text s : concatStrings (tokenText <$> scan s) = s.
Proof.
  apply (scan_ind' (λ s ts, concatStrings (tokenText <$> ts) = s)).
  - reflexivity.
  - intros c t m r E IH. rewrite fmap_cons. cbn [concatStrings tokenText].
    rewrite IH.
    destruct (varPattern_Some _ _ _ E) as (name & _ & _ & _ & ->).
    reflexivity.
  - intros c t E IH. rewrite fmap_cons. cbn [concatStrings tokenText].
    now rewrite IH.
Qed.

(** Every token that is a match is [${name}] with [name] non-empty and
    without [}]. *)
Lemma scan_Match s m :
  Match m ∈ scan s →
  ∃ name, name ≠ "" ∧ freeOf "}" name = true ∧ m = "${" +:+ name +:+ "}".
Proof.
  apply (scan_ind' (λ s ts, Match m ∈ ts → _)).
  - intros H. inversion H.
  - intros c t m' r E IH H. apply elem_of_cons in H as [H|H]; [|auto].
    inversion H; subst m'.
    destruct (varPattern_Some _ _ _ E) as (name & ? & ? & ? & _). eauto.
  - intros c t E IH H. apply elem_of_cons in H as [H|H]; [discriminate|auto].
Qed.

Lemma placeholders_nonempty s : "" ∉ placeholders s.
Proof.
  unfold placeholders. intros H.
  apply list_elem_of_omap in H as (t & Ht & Heq).
  destruct t as [c|m]; [discriminate|].
  destruct (scan_Match _ _ Ht) as (name & Hne & _ & ->).
  rewrite matchName_spec in Heq. congruence.
Qed.

(** Once [firstErr] is set, the closure leaves every later match as it
    is. *)
Lemma replaceTokens_failed vars ts e :
  replaceTokens (substituteFunc vars) ts (Some e)
  = (concatStrings (tokenText <$> ts), Some e).
Proof.
  induction ts as [|[c|m] ts IH]; rewrite ?fmap_cons;
    cbn [replaceTokens substituteFunc concatStrings tokenText].
  - reflexivity.
  - now rewrite IH.
  - now rewrite IH.
Qed.

Lemma replaceTokens_resolved vars ts :
  (∀ n, n ∈ tokenNames ts → is_Some (vars !! n)) →
  replaceTokens (substituteFunc vars) ts None
  = (concatStrings (tokenValue vars <$> ts), None).
Proof.
  induction ts as [|[c|m] ts IH]; rewrite ?fmap_cons;
    cbn [replaceTokens substituteFunc concatStrings tokenValue tokenNames omap
         list_omap]; intros H.
  - reflexivity.
  - rewrite IH; [reflexivity | exact H].
  - fold (matchName m) in *. fold (tokenNames ts) in *.
    destruct (H (matchName m)) as [v Hv]; [apply elem_of_cons; auto|].
    rewrite Hv. cbn [default].
    rewrite IH; [reflexivity|].
    intros n Hn. apply H. apply elem_of_cons. auto.
Qed.

Lemma replaceTokens_unresolved vars ts (before : list string) n after :
  tokenNames ts = (before ++ n :: after)%list →
  (∀ x, x ∈ before → is_Some (vars !! x)) →
  vars !! n = None →
  ∃ out, replaceTokens (substituteFunc vars) ts None
         = (out, Some (ErrUndefinedVariable n)).
Proof.
  revert before. induction ts as [|[c|m] ts IH];
    cbn [replaceTokens substituteFunc tokenNames omap list_omap];
    intros before Hts Hb Hn.
  - destruct before; discriminate.
  - destruct (IH before Hts Hb Hn) as [out ->]. eauto.
  - fold (matchName m) in *. fold (tokenNames ts) in *.
    destruct before as [|b before]; simpl in Hts.
    + inversion Hts; subst. rewrite Hn.
      rewrite replaceTokens_failed. eauto.
    + inversion Hts; subst.
      destruct (Hb (matchName m)) as [v Hv]; [apply elem_of_cons; auto|].
      rewrite Hv.
      destruct (IH before H1) as [out ->]; [|exact Hn|eauto].
      intros x Hx. apply Hb. apply elem_of_cons. auto.
Qed.

Lemma tokenValue_irrelevant vars ts :
  tokenNames ts = [] → tokenValue vars <$> ts = tokenText <$> ts.
Proof.
  induction ts as [|[c|m] ts IH]; intros H.
  - reflexivity.
  - rewrite !fmap_cons. f_equal. apply IH. exact H.
  - discriminate.
Qed.

Lemma replaceTokens_delete_empty vars ts st :
  "" ∉ tokenNames ts →
  replaceTokens (substituteFunc (delete "" vars)) ts st
  = replaceTokens (substituteFunc vars) ts st.
Proof.
  revert st. induction ts as [|[c|m] ts IH];
    cbn [replaceTokens tokenNames omap list_omap]; intros st H.
  - reflexivity.
  - now rewrite IH.
  - fold (matchName m) in *. fold (tokenNames ts) in *.
    apply not_elem_of_cons in H as [Hm Hts].
    assert (substituteFunc (delete "" vars) m st = substituteFunc vars m st)
      as ->.
    { unfold substituteFunc. destruct st; [reflexivity|].
      fold (matchName m). rewrite lookup_delete_ne by congruence.
      reflexivity. }
    destruct (substituteFunc vars m st) as [r st1]. now rewrite IH.
Qed.

Lemma spanNotBrace_complete n b :
  freeOf "}" n = true →
  spanNotBrace (n +:+ String "}" b) = (n, String "}" b).
Proof.
  induction n as [|c n IH]; cbn [freeOf String.append spanNotBrace]; intros H.
  - reflexivity.
  - apply andb_true_iff in H as [Hc Hn]. apply negb_true_iff in Hc.
    rewrite Hc, (IH Hn). reflexivity.
Qed.

Lemma varPattern_complete n b :
  n ≠ "" → freeOf "}" n = true →
  varPattern ("${" +:+ n +:+ String "}" b)
  = Some ("${" +:+ n +:+ "}", b).
Proof.
  intros Hne Hfree. cbn [String.append]. unfold varPattern.
  rewrite (spanNotBrace_complete n b Hfree).
  destruct n as [|c n]; [congruence|]. reflexivity.
Qed.

(** ** The scan and the reading of a template *)

Lemma startsWithPlaceholder_varPattern s name rest :
  startsWithPlaceholder s name rest →
  varPattern s = Some ("${" +:+ name +:+ "}", rest).
Proof.
  intros (Hne & Hfree & ->). exact (varPattern_complete name rest Hne Hfree).
Qed.

Lemma varPattern_startsWithPlaceholder s m r :
  varPattern s = Some (m, r) →
  startsWithPlaceholder s (matchName m) r ∧ m = "${" +:+ matchName m +:+ "}".
Proof.
  intros H. destruct (varPattern_Some _ _ _ H) as (name & Hne & Hfree & -> & ->).
  rewrite matchName_spec. split; [|reflexivity].
  split; [exact Hne|]. split; [exact Hfree|].
  cbn [String.append]. do 2 f_equal. apply append_assoc.
Qed.

(** The scan of the implementation finds the reading of the template:
    its tokens are the pieces of the reading, in order. *)
Lemma reads_scan s ps : reads s ps → scan s = pieceToken <$> ps.
Proof.
  induction 1 as [|s name rest ps Hp _ IH|c t ps Hno _ IH].
  - now rewrite scan_equation_1.
  - pose proof (startsWithPlaceholder_varPattern _ _ _ Hp) as E.
    destruct Hp as (_ & _ & ->). cbn [String.append] in E |- *.
    rewrite scan_cons, E, IH. reflexivity.
  - rewrite scan_cons.
    destruct (varPattern (String c t)) as [[m r]|] eqn:E.
    + exfalso. apply varPattern_startsWithPlaceholder in E as [E _].
      exact (Hno _ _ E).
    + now rewrite IH.
Qed.

(** Every template has a reading, the one the scan finds. *)
Lemma scan_reads s : reads s (tokenPiece <$> scan s).
Proof.
  apply (scan_ind' (λ s ts, reads s (tokenPiece <$> ts))).
  - constructor.
  - intros c t m r E IH. rewrite fmap_cons. cbn [tokenPiece].
    apply varPattern_startsWithPlaceholder in E as [E _].
    exact (reads_placeholder _ _ _ _ E IH).
  - intros c t E IH. rewrite fmap_cons. cbn [tokenPiece].
    apply reads_text; [|exact IH].
    intros name rest Hp.
    rewrite (startsWithPlaceholder_varPattern _ _ _ Hp) in E. discriminate.
Qed.

Lemma tokenNames_pieceToken ps :
  tokenNames (pieceToken <$> ps) = placeholderNames ps.
Proof.
  unfold tokenNames, placeholderNames.
  induction ps as [|[c|n] ps IH]; rewrite ?fmap_cons; cbn [omap list_omap].
  - reflexivity.
  - exact IH.
  - cbn [pieceToken]. rewrite matchName_spec. f_equal. exact IH.
Qed.

(** A template has one reading. *)
Lemma reads_unique s ps ps' : reads s ps → reads s ps' → ps = ps'.
Proof.
  intros H H'. apply reads_scan in H, H'. rewrite H in H'.
  apply (f_equal (fmap tokenPiece)) in H'.
  rewrite <- !list_fmap_compose in H'.
  assert (Hid : ∀ l : list piece, (tokenPiece ∘ pieceToken) <$> l = l).
  { induction l as [|[c|n] l IH]; [reflexivity| |];
      rewrite fmap_cons, IH; unfold compose; cbn [pieceToken tokenPiece];
      rewrite ?matchName_spec; reflexivity. }
  now rewrite !Hid in H'.
Qed.

(** The placeholders of the scan are the placeholders of the reading. *)
Lemma reads_placeholders s ps :
  reads s ps → placeholders s = placeholderNames ps.
Proof.
  intros H. unfold placeholders. rewrite (reads_scan _ _ H).
  apply tokenNames_pieceToken.
Qed.

Lemma tokenValue_filled vars ps :
  (∀ n, n ∈ placeholderNames ps → is_Some (vars !! n)) →
  concatStrings (tokenValue vars <$> (pieceToken <$> ps)) = filled vars ps.
Proof.
  unfold placeholderNames.
  induction ps as [|[c|n] ps IH]; rewrite ?fmap_cons;
    cbn [omap list_omap concatStrings tokenValue pieceToken filled];
    intros H.
  - reflexivity.
  - rewrite IH by exact H. reflexivity.
  - rewrite matchName_spec.
    destruct (H n) as [v Hv]; [apply elem_of_cons; auto|].
    rewrite Hv. cbn [default]. rewrite IH; [reflexivity|].
    intros x Hx. apply H. apply elem_of_cons. auto.
Qed.

(** The expansion of a template whose placeholders all have a value is
    its reading with the values filled in. *)
Lemma reads_expand vars s ps :
  reads s ps →
  (∀ n, n ∈ placeholderNames ps → is_Some (vars !! n)) →
  expand vars s = filled vars ps.
Proof.
  intros H Hall. unfold expand. rewrite (reads_scan _ _ H).
  now apply tokenValue_filled.
Qed.

(** C4. Every template has a reading from left to right into bytes of
    text and placeholders [${name}], and for every reading: if a
    placeholder has no entry in the context, [substitute] fails with the
    undefined-variable error that names the first such placeholder from
    the left, and the string it returns is empty (no partial result); if
    every placeholder has an entry, [substitute] returns the text with
    every placeholder replaced, byte for byte, by the value of its
    name. *)
Theorem substitute_first_undefined_or_expansion
    (s : string) (vars : gmap string string) :
  (∃ ps, reads s ps)
  ∧ ∀ ps, reads s ps →
      (∀ (before : list string) (n : string) (after : list string),
         placeholderNames ps = (before ++ n :: after)%list →
         (∀ x, x ∈ before → is_Some (vars !! x)) →
         vars !! n = None →
         substitute s vars = ("", Some (ErrUndefinedVariable n)))
      ∧ ((∀ n, n ∈ placeholderNames ps → is_Some (vars !! n)) →
         substitute s vars = (filled vars ps, None)).
Proof.
  split; [exists (tokenPiece <$> scan s); apply scan_reads|].
  intros ps Hreads. unfold substitute, ReplaceAllStringFunc.
  rewrite (reads_scan _ _ Hreads). split.
  - intros before n after Hp Hb Hn.
    rewrite <- tokenNames_pieceToken in Hp.
    destruct (replaceTokens_unresolved vars _ before n after Hp Hb Hn)
      as [out ->].
    reflexivity.
  - intros H. rewrite replaceTokens_resolved.
    + rewrite (tokenValue_filled vars ps H). reflexivity.
    + rewrite tokenNames_pieceToken. exact H.
Qed.

(** C5. On a template without placeholders [substitute] succeeds and
    returns the template unchanged, whatever the context. *)
Theorem substitute_identity_without_placeholders
    (s : string) (vars : gmap string string) :
  placeholders s = [] → substitute s vars = (s, None).
Proof.
  intros H. unfold substitute, ReplaceAllStringFunc.
  rewrite replaceTokens_resolved.
  - rewrite tokenValue_irrelevant by exact H. now rewrite scan_text.
  - intros n Hn. unfold placeholders in H.
    rewrite H in Hn. inversion Hn.
Qed.

Lemma substitute_identity_witness :
  placeholders "/users/all" = []
  ∧ substitute "/users/all" {[ "id" := "42" ]} = ("/users/all", None).
Proof.
  split; [vm_compute; reflexivity|].
  apply (substitute_identity_without_placeholders "/users/all").
  vm_compute; reflexivity.
Defined.

(** C3, as the claim states it, fails: with an entry keyed by the empty
    string the text [${}] is not replaced by the entry's value, and
    without one there is no undefined-variable error. *)
Lemma substitute_empty_placeholder_counterexample :
  substitute "${}" {[ "" := "v" ]} ≠ ("v", None)
  ∧ substitute "${}" ∅ ≠ ("", Some (ErrUndefinedVariable "")).
Proof. split; vm_compute; discriminate. Qed.

(** C3, amended. [${}] is not a placeholder: the pattern wants at least
    one byte between the braces.  No placeholder found by the scan has
    the empty name, the result of [substitute] is the same with and
    without an entry keyed by the empty string, and [substitute] returns
    the template [${}] unchanged and without error in every context. *)
Theorem substitute_empty_name_is_no_placeholder
    (s : string) (vars : gmap string string) :
  ("" ∉ placeholders s)
  ∧ substitute s (delete "" vars) = substitute s vars
  ∧ substitute "${}" vars = ("${}", None).
Proof.
  split; [apply placeholders_nonempty | split].
  - unfold substitute, ReplaceAllStringFunc.
    rewrite replaceTokens_delete_empty; [reflexivity|].
    apply placeholders_nonempty.
  - unfold substitute, ReplaceAllStringFunc.
    assert (scan "${}" = [Lit "$"; Lit "{"; Lit "}"]) as ->
      by (vm_compute; reflexivity).
    reflexivity.
Qed.

(** The reading of the template of the specification's examples. *)
Example reads_users_id :
  reads "/users/${id}"
    [Text "/"; Text "u"; Text "s"; Text "e"; Text "r"; Text "s"; Text "/";
     Placeholder "id"].
Proof.
  repeat (apply reads_text;
          [intros name rest (_ & _ & E); discriminate E|]).
  apply (reads_placeholder _ "id" "");
    [split; [discriminate | split; reflexivity] | constructor].
Qed.

(** The examples of the specification. *)
Example substitute_users_42 :
  substitute "/users/${id}" {[ "id" := "42" ]} = ("/users/42", None).
Proof. vm_compute. reflexivity. Qed.

Example substitute_users_undefined :
  substitute "/users/${id}" ∅ = ("", Some (ErrUndefinedVariable "id")).
Proof. vm_compute. reflexivity. Qed.

(** * Properties of the validator *)

Local Arguments Contains : simpl never.

Lemma cutFirst_Some s c a b :
  cutFirst s c = Some (a, b) ↔ s = a +:+ String c b ∧ freeOf c a = true.
Proof.
  revert a b. induction s as [|x t IH]; intros a b; simpl.
  - split; [discriminate|]. intros [H _]. destruct a; simpl in H; discriminate H.
  - destruct (Ascii.eqb x c) eqn:E.
    + apply Ascii.eqb_eq in E. subst x. split.
      * intros H. inversion H; subst. auto.
      * intros [H Hf]. destruct a as [|y a]; simpl in *.
        -- inversion H; subst. reflexivity.
        -- inversion H; subst. rewrite Ascii.eqb_refl in Hf. discriminate.
    + split.
      * destruct (cutFirst t c) as [[a' b']|] eqn:Ec; [|discriminate].
        intros H. inversion H; subst.
        destruct (proj1 (IH a' b) eq_refl) as [-> Hf].
        simpl. rewrite E. auto.
      * intros [H Hf]. destruct a as [|y a]; simpl in H.
        -- inversion H; subst. rewrite Ascii.eqb_refl in E. discriminate.
        -- inversion H; subst. simpl in Hf. rewrite E in Hf. simpl in Hf.
           rewrite (proj2 (IH a b)); auto.
Qed.


Lemma Contains_In l x : Contains l x = true ↔ In x l.
Proof.
  unfold Contains. rewrite existsb_exists. split.
  - intros (y & Hy & E). apply String.eqb_eq in E. now subst.
  - intros H. exists x. split; [exact H | apply String.eqb_refl].
Qed.

(** C8. [validateMapping] accepts a pair exactly when each side is
    [prefix.field], split at its first [.], the source prefix being one
    of the seven source names and the target prefix one of the six target
    names; a target with prefix [response] is rejected whatever the
    source. *)
Theorem validateMapping_accepts_iff (source target : string) :
  (validateMapping source target = None ↔
   ∃ sp sf tp tf,
     source = sp +:+ "." +:+ sf ∧ freeOf "." sp = true
     ∧ In sp ["response"; "headers"; "query"; "path_params"; "body";
              "cookies"; "variables"]
     ∧ target = tp +:+ "." +:+ tf ∧ freeOf "." tp = true
     ∧ In tp ["headers"; "query"; "path_params"; "body"; "cookies";
              "variables"])
  ∧ (∀ field, validateMapping source ("response." +:+ field) ≠ None).
Proof.
  split.
  - unfold validateMapping, SplitN2. split.
    + destruct (cutFirst source ".") as [[sp sf]|] eqn:Es; [|discriminate].
      destruct (Contains validSources sp) eqn:Cs; [|simpl; discriminate]. simpl.
      destruct (cutFirst target ".") as [[tp tf]|] eqn:Et; [|discriminate].
      destruct (Contains validTargets tp) eqn:Ct; [|simpl; discriminate]. simpl.
      intros _. apply cutFirst_Some in Es as [-> Hs].
      apply cutFirst_Some in Et as [-> Ht].
      apply Contains_In in Cs. apply Contains_In in Ct.
      exists sp, sf, tp, tf. auto 10.
    + intros (sp & sf & tp & tf & -> & Hs & Is & -> & Ht & It).
      rewrite (proj2 (cutFirst_Some _ _ sp sf)) by auto.
      rewrite (proj2 (Contains_In validSources sp)) by exact Is. simpl.
      rewrite (proj2 (cutFirst_Some _ _ tp tf)) by auto.
      rewrite (proj2 (Contains_In validTargets tp)) by exact It. reflexivity.
  - intros field. unfold validateMapping, SplitN2.
    destruct (cutFirst source ".") as [[sp sf]|]; [|discriminate].
    destruct (Contains validSources sp); [|simpl; discriminate].
    assert (cutFirst ("response." +:+ field) "." = Some ("response", field))
      as -> by reflexivity.
    assert (Contains validTargets "response" = false) as -> by reflexivity.
    discriminate.
Qed.

(** The examples of the specification for mappings. *)
Example validateMapping_examples :
  validateMapping "response.body" "variables.token" = None
  ∧ validateMapping "foo.bar" "variables.x" = Some (ErrInvalidSource "foo")
  ∧ validateMapping "response.body" "response.x"
    = Some (ErrInvalidTarget "response").
Proof. repeat split; vm_compute; reflexivity. Qed.

Lemma digitValue_nonneg c : (0 ≤ digitValue c)%Z.
Proof. unfold digitValue. lia. Qed.

Lemma parseDigits_ge t : ∀ acc n,
  (0 ≤ acc)%Z → parseDigits acc t = Some n → (acc ≤ n)%Z.
Proof.
  induction t as [|c t IH]; simpl; intros acc n Hacc H.
  - inversion H. lia.
  - destruct (isDigit c); [|discriminate].
    pose proof (digitValue_nonneg c).
    apply IH in H; lia.
Qed.

Lemma nat_of_ascii_inj c d : nat_of_ascii c = nat_of_ascii d → c = d.
Proof.
  intros H. rewrite <- (ascii_nat_embedding c), <- (ascii_nat_embedding d).
  now rewrite H.
Qed.

Lemma ascii_eqb_nat c d :
  Ascii.eqb c d = (nat_of_ascii c =? nat_of_ascii d).
Proof.
  destruct (Ascii.eqb c d) eqn:E.
  - apply Ascii.eqb_eq in E. subst. symmetry. apply Nat.eqb_refl.
  - symmetry. apply Nat.eqb_neq. intros H. apply nat_of_ascii_inj in H.
    subst. rewrite Ascii.eqb_refl in E. discriminate.
Qed.

(** A run of digits has a value from 100 to 599 exactly when, its leading
    zeros apart, it is three digits of which the first is 1 to 5. *)
Lemma parseDigits_code d :
  (∃ n, parseDigits 0 d = Some n ∧ (100 ≤ n < 600)%Z)
  ↔ isThreeDigitCode (dropZeros d) = true.
Proof.
  induction d as [|c t IH].
  - simpl. split; [intros (n & H & Hn); inversion H; lia | discriminate].
  - cbn [dropZeros]. rewrite ascii_eqb_nat.
    change (nat_of_ascii "0") with 48.
    cbn [parseDigits]. unfold isDigit at 1, digitValue at 1.
    destruct (nat_of_ascii c =? 48) eqn:E0.
    + apply Nat.eqb_eq in E0. rewrite E0. simpl. exact IH.
    + apply Nat.eqb_neq in E0. clear IH.
      unfold isThreeDigitCode.
      change (nat_of_ascii "1") with 49. change (nat_of_ascii "5") with 53.
      remember (nat_of_ascii c) as x eqn:Hx. clear Hx c.
      destruct ((48 <=? x) && (x <=? 57)) eqn:Dc.
      2:{ split; [intros (n & H & _); discriminate|].
          destruct t as [|b [|c2 [|? ?]]]; try discriminate.
          intros H. apply andb_prop in H as [H _].
          apply andb_prop in H as [H _].
          apply andb_prop in H as [H1 H2].
          apply Nat.leb_le in H1, H2.
          apply andb_false_iff in Dc as [Dc|Dc]; apply Nat.leb_gt in Dc; lia. }
      apply andb_prop in Dc as [D1 D2]. apply Nat.leb_le in D1, D2.
      destruct t as [|b [|c2 [|c3 rest]]].
      * simpl. split; [intros (n & H & Hn); inversion H; lia | discriminate].
      * simpl. split; [|discriminate].
        intros (n & H & Hn). destruct (isDigit b) eqn:Db; [|discriminate].
        unfold isDigit in Db. apply andb_prop in Db as [B1 B2].
        apply Nat.leb_le in B1, B2. unfold digitValue in H.
        inversion H. lia.
      * cbn [parseDigits]. split.
        -- intros (n & H & Hn).
           destruct (isDigit b) eqn:Db; [|discriminate].
           destruct (isDigit c2) eqn:Dc2; [|discriminate].
           rewrite !andb_true_r. apply andb_true_intro.
           unfold isDigit in Db, Dc2.
           apply andb_prop in Db as [B1 B2]. apply Nat.leb_le in B1, B2.
           apply andb_prop in Dc2 as [C1 C2]. apply Nat.leb_le in C1, C2.
           unfold digitValue in H. inversion H.
           split; apply Nat.leb_le; lia.
        -- intros H. apply andb_prop in H as [H Dc2].
           apply andb_prop in H as [H Db]. apply andb_prop in H as [H1 H2].
           apply Nat.leb_le in H1, H2. rewrite Db, Dc2.
           unfold isDigit in Db, Dc2.
           apply andb_prop in Db as [B1 B2]. apply Nat.leb_le in B1, B2.
           apply andb_prop in Dc2 as [C1 C2]. apply Nat.leb_le in C1, C2.
           eexists. split; [reflexivity|]. unfold digitValue. lia.
      * split; [|discriminate].
        intros (n & H & Hn). cbn [parseDigits] in H.
        destruct (isDigit b) eqn:Db; [|discriminate].
        destruct (isDigit c2) eqn:Dc2; [|discriminate].
        destruct (isDigit c3) eqn:Dc3; [|discriminate].
        apply parseDigits_ge in H.
        -- pose proof (digitValue_nonneg b). pose proof (digitValue_nonneg c2).
           pose proof (digitValue_nonneg c3). lia.
        -- pose proof (digitValue_nonneg b). pose proof (digitValue_nonneg c2).
           pose proof (digitValue_nonneg c3). lia.
Qed.

(** [Atoi] yields a value from 100 to 599 exactly on an optional [+],
    leading zeros, and three digits of which the first is 1 to 5. *)
Lemma Atoi_code code :
  (∃ n, Atoi code = Some n ∧ (100 ≤ n < 600)%Z)
  ↔ isThreeDigitCode (dropZeros (dropPlus code)) = true.
Proof.
  destruct code as [|c t].
  - split; [intros (n & H & _); discriminate | discriminate].
  - unfold Atoi, dropPlus. destruct (Ascii.eqb c "+") eqn:Ep.
    + rewrite <- parseDigits_code. destruct t as [|b t'].
      * split; [intros (n & H & _); discriminate|].
        intros (n & H & Hn). inversion H. lia.
      * split.
        -- intros (n & H & Hn).
           destruct (parseDigits 0 (String b t')) as [m|]; [|discriminate].
           destruct ((- 2 ^ 63 <=? m)%Z && (m <=? 2 ^ 63 - 1)%Z);
             inversion H; subst. eauto.
        -- intros (n & H & Hn). rewrite H.
           assert (((- 2 ^ 63 <=? n)%Z && (n <=? 2 ^ 63 - 1)%Z) = true) as ->
             by (apply andb_true_intro; split; apply Z.leb_le; lia).
           eauto.
    + destruct (Ascii.eqb c "-") eqn:Em.
      * apply Ascii.eqb_eq in Em. subst c. split.
        -- intros (n & H & Hn). exfalso.
           destruct t as [|b t']; [discriminate|].
           destruct (parseDigits 0 (String b t')) as [m|] eqn:Hm; [|discriminate].
           apply parseDigits_ge in Hm; [|lia].
           destruct ((- 2 ^ 63 <=? - m)%Z && (- m <=? 2 ^ 63 - 1)%Z);
             inversion H; subst. lia.
        -- cbn [dropZeros]. change (Ascii.eqb "-" "0") with false.
           cbv iota. unfold isThreeDigitCode.
           destruct t as [|? [|? [|? ?]]]; discriminate.
      * rewrite <- parseDigits_code. split.
        -- intros (n & H & Hn).
           destruct (parseDigits 0 (String c t)) as [m|]; [|discriminate].
           destruct ((- 2 ^ 63 <=? m)%Z && (m <=? 2 ^ 63 - 1)%Z);
             inversion H; subst. eauto.
        -- intros (n & H & Hn). rewrite H.
           assert (((- 2 ^ 63 <=? n)%Z && (n <=? 2 ^ 63 - 1)%Z) = true) as ->
             by (apply andb_true_intro; split; apply Z.leb_le; lia).
           eauto.
Qed.

Lemma validateStatusCode_by_Atoi code :
  match Atoi code with
  | None => Some (ErrStatusFormat code)
  | Some statusCode =>
      if ((statusCode <? 100) || (600 <=? statusCode))%Z
      then Some (ErrStatusRange statusCode)
      else None
  end = None
  ↔ ∃ n, Atoi code = Some n ∧ (100 ≤ n < 600)%Z.
Proof.
  destruct (Atoi code) as [n|].
  - destruct ((n <? 100)%Z || (600 <=? n)%Z) eqn:E.
    + split; [discriminate|]. intros (m & H & Hm). inversion H; subst.
      apply orb_prop in E as [E|E]; [apply Z.ltb_lt in E | apply Z.leb_le in E];
        lia.
    + apply orb_false_elim in E as [E1 E2].
      apply Z.ltb_ge in E1. apply Z.leb_gt in E2.
      split; [intros _; exists n; split; [reflexivity | lia] | reflexivity].
  - split; [discriminate | intros (m & H & _); discriminate].
Qed.

(** C7, as the claim states it, fails: [+200] and [0200] are accepted,
    and neither is a three-digit code or a wildcard. *)
Lemma validateStatusCode_counterexample :
  validateStatusCode "+200" = None
  ∧ isThreeDigitCode "+200" = false ∧ isWildcardPattern "+200" = false
  ∧ validateStatusCode "0200" = None
  ∧ isThreeDigitCode "0200" = false ∧ isWildcardPattern "0200" = false.
Proof. repeat split; vm_compute; reflexivity. Qed.

(** C7, amended. [validateStatusCode] accepts a string exactly when it is
    a wildcard (a digit 1 to 5, then [xx]) or a decimal integer as
    [strconv.Atoi] reads it, with a value from 100 to 599: an optional
    [+], any number of leading zeros, then three digits of which the
    first is 1 to 5. *)
Theorem validateStatusCode_accepts_iff (code : string) :
  validateStatusCode code = None
  ↔ isWildcardPattern code = true
    ∨ isThreeDigitCode (dropZeros (dropPlus code)) = true.
Proof.
  rewrite <- Atoi_code. unfold validateStatusCode.
  destruct code as [|c t].
  - split; [discriminate|]. intros [H|(n & H & _)]; discriminate.
  - change (String.eqb (String c t) "") with false. cbv iota.
    destruct ((String.length (String c t) =? 3)
              && String.eqb (slice (String c t) 1 (String.length (String c t))) "xx")
      eqn:W.
    + apply andb_prop in W as [W1 W2].
      destruct t as [|x1 [|x2 [|x3 rest]]]; try discriminate.
      change (slice (String c (String x1 (String x2 ""))) 1
                (String.length (String c (String x1 (String x2 "")))))
        with (String x1 (String x2 "")) in W2.
      apply String.eqb_eq in W2. inversion W2; subst x1 x2.
      unfold isWildcardPattern. change (String.eqb "xx" "xx") with true.
      cbn [andb].
      change (nat_of_ascii "1") with 49. change (nat_of_ascii "5") with 53.
      split.
      * intros H. left.
        destruct ((nat_of_ascii c <? 49) || (53 <? nat_of_ascii c)) eqn:E;
          [discriminate|].
        apply orb_false_elim in E as [E1 E2].
        apply Nat.ltb_ge in E1. apply Nat.ltb_ge in E2.
        apply andb_true_intro. split; apply Nat.leb_le; lia.
      * intros [H|H].
        -- apply andb_prop in H as [H1 H2]. apply Nat.leb_le in H1, H2.
           assert (((nat_of_ascii c <? 49) || (53 <? nat_of_ascii c)) = false)
             as ->; [|reflexivity].
           apply orb_false_intro; apply Nat.ltb_ge; lia.
        -- exfalso. apply Atoi_code in H. unfold dropPlus in H.
           destruct (Ascii.eqb c "+"); [discriminate|].
           cbn [dropZeros] in H.
           destruct (Ascii.eqb c "0"); [vm_compute in H; discriminate|].
           unfold isThreeDigitCode in H.
           change (isDigit "x") with false in H.
           rewrite !andb_false_r in H. discriminate.
    + rewrite validateStatusCode_by_Atoi. split; [auto|].
      intros [H|H]; [exfalso | exact H].
      unfold isWildcardPattern in H. apply andb_prop in H as [H _].
      apply andb_prop in H as [H _]. apply String.eqb_eq in H. subst t.
      discriminate.
Qed.

(** The examples of the specification for status patterns. *)
Example validateStatusCode_examples :
  validateStatusCode "200" = None ∧ validateStatusCode "404" = None
  ∧ validateStatusCode "2xx" = None ∧ validateStatusCode "5xx" = None
  ∧ validateStatusCode "20" = Some (ErrStatusRange 20)
  ∧ validateStatusCode "abc" = Some (ErrStatusFormat "abc")
  ∧ validateStatusCode "6xx" = Some (ErrWildcard "6xx")
  ∧ validateStatusCode "099" = Some (ErrStatusRange 99)
  ∧ validateStatusCode "600" = Some (ErrStatusRange 600).
Proof. repeat split; vm_compute; reflexivity. Qed.

Lemma forRange_Some {A} (body : nat → A → option error) i l e :
  forRange body i l = Some e → ∃ k x, body k x = Some e.
Proof.
  revert i. induction l as [|x l IH]; simpl; intros i H; [discriminate|].
  destruct (body i x) eqn:E; [inversion H; subst; eauto | eauto].
Qed.

Lemma validateNextStep_index ro s h i j nextStep e :
  validateNextStep ro s h i j nextStep = Some e → stepIndex e = Some i.
Proof.
  unfold validateNextStep.
  destruct (String.eqb (NextStep_Request nextStep) "");
    [intros H; inversion H; reflexivity|].
  destruct (parseRequest (NextStep_Request nextStep)) as [[? ?] [err|]];
    [intros H; inversion H; reflexivity|].
  destruct (FindStep s (NextStep_Request nextStep));
    [|intros H; inversion H; reflexivity].
  destruct (forRange _ 0 (NextStep_StatusCodes nextStep)) as [err|] eqn:E.
  - intros H. inversion H; subst.
    apply forRange_Some in E as (k & code & E).
    destruct (validateStatusCode code); inversion E. reflexivity.
  - intros H. apply forRange_Some in H as (k & [src tgt] & H).
    destruct (validateMapping src tgt); inversion H. reflexivity.
Qed.

Lemma validateStep_index ro s h acc i step e :
  validateStep ro s h acc i step = Some e → stepIndex e = Some i.
Proof.
  unfold validateStep.
  destruct (String.eqb (Request step) ""); [intros H; inversion H; reflexivity|].
  destruct (bool_decide (Request step ∈ acc));
    [intros H; inversion H; reflexivity|].
  destruct (parseRequest (Request step)) as [[httpMethod ?] [err|]];
    [intros H; inversion H; reflexivity|].
  destruct ((String.eqb httpMethod "GET" || String.eqb httpMethod "HEAD")
            && negb (isNil (Body step)));
    [intros H; inversion H; reflexivity|].
  destruct (Delay step <? 0)%Z; [intros H; inversion H; reflexivity|].
  destruct (maxDelay <? Delay step)%Z; [intros H; inversion H; reflexivity|].
  intros H. apply forRange_Some in H as (j & nextStep & H).
  eapply validateNextStep_index. exact H.
Qed.

(** The loop over the steps stops at the first step whose checks fail,
    with that step's error; it ends without error when no step's checks
    fail. *)
Lemma validateSteps_first ro s h steps : ∀ acc i0,
  match validateSteps ro s h acc i0 steps with
  | None =>
      ∀ k step, steps !! k = Some step →
        validateStep ro s h (collectRequests acc (take k steps)) (i0 + k) step
        = None
  | Some e =>
      ∃ k step, steps !! k = Some step
        ∧ validateStep ro s h (collectRequests acc (take k steps)) (i0 + k) step
          = Some e
        ∧ ∀ k' step', k' < k → steps !! k' = Some step' →
            validateStep ro s h (collectRequests acc (take k' steps))
              (i0 + k') step' = None
  end.
Proof.
  induction steps as [|step steps IH]; intros acc i0; cbn [validateSteps].
  - intros k step H. discriminate.
  - destruct (validateStep ro s h acc i0 step) as [e|] eqn:E.
    + exists 0, step. split; [reflexivity|]. split.
      * rewrite Nat.add_0_r. exact E.
      * intros k' step' Hk. lia.
    + specialize (IH ({[ Request step ]} ∪ acc) (S i0)).
      destruct (validateSteps ro s h ({[ Request step ]} ∪ acc) (S i0) steps)
        as [e|].
      * destruct IH as (k & step1 & Hk & Hv & Hbefore).
        exists (S k), step1. split; [exact Hk|]. split.
        -- replace (i0 + S k) with (S i0 + k) by lia. exact Hv.
        -- intros [|k'] step' Hlt Hs.
           ++ inversion Hs; subst. rewrite Nat.add_0_r. exact E.
           ++ replace (i0 + S k') with (S i0 + k') by lia.
              apply Hbefore; [lia | exact Hs].
      * intros [|k] step1 Hk.
        -- inversion Hk; subst. rewrite Nat.add_0_r. exact E.
        -- replace (i0 + S k) with (S i0 + k) by lia. apply IH. exact Hk.
Qed.

(** * Properties of the substitutor on the store *)

Lemma heapIncl_refl h : heapIncl h h.
Proof. repeat split; reflexivity. Qed.

Lemma heapIncl_trans h1 h2 h3 :
  heapIncl h1 h2 → heapIncl h2 h3 → heapIncl h1 h3.
Proof.
  intros (A1 & B1 & C1) (A2 & B2 & C2).
  repeat split; etrans; eassumption.
Qed.

Lemma fresh_lookup_None {V} (m : gmap addr V) : m !! fresh (dom m) = None.
Proof. apply not_elem_of_dom. apply is_fresh. Qed.

Lemma makeStrMap_incl h :
  heapIncl h (makeStrMap h).2 ∧ strmaps h !! (makeStrMap h).1 = None.
Proof.
  unfold makeStrMap. cbn. split; [|apply fresh_lookup_None].
  repeat split; cbn; try reflexivity.
  apply insert_subseteq. apply fresh_lookup_None.
Qed.

Lemma storeStrMap_incl h0 h a k v :
  strmaps h0 !! a = None → heapIncl h0 h → heapIncl h0 (storeStrMap a k v h).
Proof.
  intros Ha (A & B & C). unfold storeStrMap. repeat split; cbn; try assumption.
  apply map_subseteq_spec. intros i x Hi.
  rewrite lookup_insert_ne by congruence.
  exact (proj1 (map_subseteq_spec _ _) A i x Hi).
Qed.

Lemma substituteEntries_incl wrap entries vars a h0 : ∀ h,
  strmaps h0 !! a = None → heapIncl h0 h →
  heapIncl h0 (substituteEntries wrap entries vars a h).2.
Proof.
  induction entries as [|[k v] entries IH]; intros h Ha Hh; cbn [substituteEntries].
  - exact Hh.
  - destruct (substitute v vars) as [replaced [e|]]; [exact Hh|].
    apply IH; [exact Ha|]. now apply storeStrMap_incl.
Qed.

Lemma ApplyToHeaders_incl ro headers vars h :
  heapIncl h (ApplyToHeaders ro headers vars h).2.
Proof.
  unfold ApplyToHeaders.
  destruct (makeStrMap_incl h) as [Hm Hf].
  destruct (makeStrMap h) as [result h0]. cbn in Hm, Hf.
  pose proof (substituteEntries_incl ErrHeaderSubstitution
                (ro (derefStrMap h0 headers)) vars result h h0 Hf Hm) as H.
  destruct (substituteEntries _ _ vars result h0) as [[e|] h1]; exact H.
Qed.

Lemma ApplyToQuery_incl ro query vars h :
  heapIncl h (ApplyToQuery ro query vars h).2.
Proof.
  unfold ApplyToQuery.
  destruct (makeStrMap_incl h) as [Hm Hf].
  destruct (makeStrMap h) as [result h0]. cbn in Hm, Hf.
  pose proof (substituteEntries_incl ErrQueryParamSubstitution
                (ro (derefStrMap h0 query)) vars result h h0 Hf Hm) as H.
  destruct (substituteEntries _ _ vars result h0) as [[e|] h1]; exact H.
Qed.

Lemma allocSlice_incl l h : heapIncl h (allocSlice l h).2.
Proof.
  unfold allocSlice. repeat split; cbn; try reflexivity.
  apply insert_subseteq. apply fresh_lookup_None.
Qed.

Lemma allocAnyMap_incl m h : heapIncl h (allocAnyMap m h).2.
Proof.
  unfold allocAnyMap. repeat split; cbn; try reflexivity.
  apply insert_subseteq. apply fresh_lookup_None.
Qed.

(** Decoding only allocates. *)
Lemma decodeValue_incl j : ∀ h saved, heapIncl h (decodeValue j h saved).1.2.
Proof.
  induction j as [| b | lit | s | l IH | l IH] using json_nested_ind;
    intros h saved; cbn [decodeValue].
  - apply heapIncl_refl.
  - apply heapIncl_refl.
  - destruct (ParseFloat lit); apply heapIncl_refl.
  - apply heapIncl_refl.
  - assert (Hel : ∀ h saved,
              heapIncl h (decodeElements decodeValue l h saved).1.2).
    { clear h saved. induction IH as [|x l Hx Hl IHl]; intros h saved.
      - apply heapIncl_refl.
      - cbn [decodeElements]. specialize (Hx h saved).
        destruct (decodeValue x h saved) as [[v h1] saved1]. cbn in Hx.
        specialize (IHl h1 saved1).
        destruct (decodeElements decodeValue l h1 saved1) as [[vs h2] saved2].
        cbn in IHl |- *. eapply heapIncl_trans; eassumption. }
    specialize (Hel h saved).
    destruct (decodeElements decodeValue l h saved) as [[vs h1] saved1].
    cbn in Hel.
    pose proof (allocSlice_incl vs h1) as Ha.
    destruct (allocSlice vs h1) as [a h2]. cbn in Ha |- *.
    eapply heapIncl_trans; eassumption.
  - assert (Hel : ∀ m h saved,
              heapIncl h (decodeMembers decodeValue l m h saved).1.2).
    { clear h saved. induction IH as [|[k x] l Hx Hl IHl]; intros m h saved.
      - apply heapIncl_refl.
      - cbn [decodeMembers]. cbn in Hx. specialize (Hx h saved).
        destruct (decodeValue x h saved) as [[v h1] saved1]. cbn in Hx.
        specialize (IHl (<[k := v]> m) h1 saved1).
        eapply heapIncl_trans; eassumption. }
    specialize (Hel ∅ h saved).
    destruct (decodeMembers decodeValue l ∅ h saved) as [[m h1] saved1].
    cbn in Hel.
    pose proof (allocAnyMap_incl m h1) as Ha.
    destruct (allocAnyMap m h1) as [a h2]. cbn in Ha |- *.
    eapply heapIncl_trans; eassumption.
Qed.

Lemma Unmarshal_incl data h : heapIncl h (Unmarshal data h).2.
Proof.
  unfold Unmarshal. destruct (parseJSON data) as [j|]; [|apply heapIncl_refl].
  pose proof (decodeValue_incl j h None) as H.
  destruct (decodeValue j h None) as [[v h'] saved]. exact H.
Qed.

Lemma ApplyToBody_incl ro body vars h :
  heapIncl h (ApplyToBody ro body vars h).2.
Proof.
  assert (Hgen :
    heapIncl h
      (let '(jsonVars, err) := escapeEntries (ro vars) ∅ in
       match err with
       | Some e => (VNil, Some e, h)
       | None =>
           let '(raw, err) := Marshal body h in
           match err with
           | Some e => (VNil, Some (ErrBodyMarshalling e), h)
           | None =>
               let '(substituted, err) := substitute raw jsonVars in
               match err with
               | Some e => (VNil, Some (ErrBodySubstitution e), h)
               | None =>
                   let '(result, err, h') := Unmarshal substituted h in
                   match err with
                   | Some e => (VNil, Some (ErrBodyUnmarshalling e), h')
                   | None => (result, None, h')
                   end
               end
           end
       end).2).
  { destruct (escapeEntries (ro vars) ∅) as [jsonVars [e|]];
      [apply heapIncl_refl|].
    destruct (Marshal body h) as [raw [e|]]; [apply heapIncl_refl|].
    destruct (substitute raw jsonVars) as [substituted [e|]];
      [apply heapIncl_refl|].
    pose proof (Unmarshal_incl substituted h) as H.
    destruct (Unmarshal substituted h) as [[result [e|]] h']; exact H. }
  unfold ApplyToBody. destruct body; try exact Hgen.
  - apply heapIncl_refl.
  - destruct (substitute s vars) as [result [e|]]; apply heapIncl_refl.
Qed.

Ltac stage_destruct :=
  match goal with
  | |- context [ApplyToHeaders ?ro ?m ?vars ?h] =>
      let H := fresh "Hincl" in
      pose proof (ApplyToHeaders_incl ro m vars h) as H;
      destruct (ApplyToHeaders ro m vars h) as [[? [?|]] ?]; cbn in H
  | |- context [ApplyToQuery ?ro ?m ?vars ?h] =>
      let H := fresh "Hincl" in
      pose proof (ApplyToQuery_incl ro m vars h) as H;
      destruct (ApplyToQuery ro m vars h) as [[? [?|]] ?]; cbn in H
  | |- context [ApplyToBody ?ro ?b ?vars ?h] =>
      let H := fresh "Hincl" in
      pose proof (ApplyToBody_incl ro b vars h) as H;
      destruct (ApplyToBody ro b vars h) as [[? [?|]] ?]; cbn in H
  end.

Ltac incl_chain :=
  repeat match goal with
  | H1 : heapIncl ?a ?b, H2 : heapIncl ?b ?c |- _ =>
      lazymatch goal with
      | _ : heapIncl a c |- _ => fail
      | _ => pose proof (heapIncl_trans a b c H1 H2)
      end
  end;
  first [assumption | apply heapIncl_refl].

(** [ApplyToStep] only allocates: every container of the store before the
    call is there after it, unchanged. *)
Lemma ApplyToStep_incl ro step vars h :
  heapIncl h (ApplyToStep ro step vars h).2.
Proof.
  unfold ApplyToStep.
  destruct (match SplitN2 (Request step) " " with
            | [method; path] =>
                let '(substitutedPath, err) := ApplyToURL path vars in
                match err with
                | Some e => (step, Some (ErrRequestPathSubstitution e))
                | None =>
                    (setRequest step (method +:+ " " +:+ substitutedPath), None)
                end
            | _ => (step, None)
            end) as [result0 [e0|]]; [apply heapIncl_refl|].
  destruct (Headers step); [stage_destruct|]; cbn [fst snd];
    try (cbn; incl_chain).
  all: destruct (Query step); [stage_destruct|]; cbn [fst snd];
    try (cbn; incl_chain).
  all: destruct (PathParams step); [stage_destruct|]; cbn [fst snd];
    try (cbn; incl_chain).
  all: destruct (negb (isNil (Body step))); [stage_destruct|]; cbn [fst snd];
    try (cbn; incl_chain).
Qed.

Lemma mapM_weaken {A B} (f g : A → option B) l r :
  mapM f l = Some r →
  Forall (λ x, ∀ y, f x = Some y → g x = Some y) l →
  mapM g l = Some r.
Proof.
  rewrite !mapM_Some. intros H. induction H as [|x y l r Hxy Hl IH]; intros HF.
  - constructor.
  - apply Forall_cons in HF as [Hx HF]. constructor; auto.
Qed.

(** A deep value seen in [h] is seen, the same, in every store that
    includes [h]. *)
Lemma deepValue_incl h h' : heapIncl h h' →
  ∀ fuel v t, deepValue fuel h v = Some t → deepValue fuel h' v = Some t.
Proof.
  intros (_ & HM & HS). induction fuel as [|fuel IH]; intros v t H.
  - destruct v; try exact H; discriminate.
  - destruct v; try exact H; cbn [deepValue] in H |- *.
    + destruct (slices h !! a) as [l|] eqn:Hl; [|discriminate].
      rewrite (proj1 (map_subseteq_spec _ _) HS a l Hl). cbn in H |- *.
      destruct (mapM (deepValue fuel h) l) as [r|] eqn:Hr; [|discriminate].
      rewrite (mapM_weaken _ (deepValue fuel h') l r Hr); [exact H|].
      apply Forall_forall. intros x _ y. apply IH.
    + destruct (anymaps h !! a) as [m|] eqn:Hm; [|discriminate].
      rewrite (proj1 (map_subseteq_spec _ _) HM a m Hm). cbn in H |- *.
      destruct (mapM (λ kv, pair kv.1 <$> deepValue fuel h kv.2) (sortedEntries m))
        as [r|] eqn:Hr; [|discriminate].
      rewrite (mapM_weaken _ (λ kv, pair kv.1 <$> deepValue fuel h' kv.2)
                 (sortedEntries m) r Hr); [exact H|].
      apply Forall_forall. intros [k x] _ y. cbn.
      destruct (deepValue fuel h x) as [tx|] eqn:Hx; [|discriminate].
      rewrite (IH x tx Hx). auto.
Qed.

(** C9. [ApplyToStep], whether it succeeds or fails, leaves its input
    unmodified.  The [Step] is passed by value; what it refers to is in
    the store, and the call only allocates: every container of the store
    before the call is there after it with the same contents.  So the
    maps that [Headers], [Query] and [PathParams] refer to have the same
    entries after the call, and [Body] has the same deep value. *)
Theorem ApplyToStep_leaves_input_unmodified
    (rangeOrder : gmap string string → list (string * string))
    (step : Step) (vars : gmap string string) (h : heap) :
  let h' := (ApplyToStep rangeOrder step vars h).2 in
  heapIncl h h'
  ∧ sameStrMap h h' (Headers step)
  ∧ sameStrMap h h' (Query step)
  ∧ sameStrMap h h' (PathParams step)
  ∧ ∀ fuel t, deepValue fuel h (Body step) = Some t →
              deepValue fuel h' (Body step) = Some t.
Proof.
  intros h'. pose proof (ApplyToStep_incl rangeOrder step vars h) as H.
  fold h' in H. split; [exact H|].
  assert (Hs : ∀ m, sameStrMap h h' m).
  { intros m a entries _ Ha. destruct H as (A & _ & _).
    exact (proj1 (map_subseteq_spec _ _) A a entries Ha). }
  repeat split; try apply Hs.
  intros fuel t. apply deepValue_incl. exact H.
Qed.

(** The test [TestApplyToStep_DoesNotMutateOriginal]: the call succeeds,
    the result has the substituted request and a new header map, and the
    input's header map still holds the template. *)
Example ApplyToStep_does_not_mutate_original :
  let h := Heap {[ 1%positive := {[ "X-ID" := "${user_id}" ]} ]} ∅ ∅ in
  let step := mkStep "GET /users/${user_id}" (Some 1%positive) None None VNil 0
                None [] in
  let '(result, err, h') :=
    ApplyToStep map_to_list step {[ "user_id" := "7" ]} h in
  err = None
  ∧ Request result = "GET /users/7"
  ∧ Headers result = Some 2%positive
  ∧ derefStrMap h' (Headers result) = {[ "X-ID" := "7" ]}
  ∧ derefStrMap h' (Headers step) = {[ "X-ID" := "${user_id}" ]}.
Proof. vm_compute. repeat split; reflexivity. Qed.




Lemma escapeEntries_error entries : ∀ jsonVars,
  (escapeEntries entries jsonVars).2 = None.
Proof.
  induction entries as [|[k v] entries IH]; intros jsonVars; cbn; auto.
Qed.






(** With no space in [Request] the placeholder stays, and no variable is
    needed; with a space the same placeholder is looked up. *)
Example ApplyToStep_request_without_space_example :
  (ApplyToStep map_to_list (mkStep "${id}" None None None VNil 0 None []) ∅
     emptyHeap).1
  = (mkStep "${id}" None None None VNil 0 None [], None)
  ∧ (ApplyToStep map_to_list (mkStep "GET /${id}" None None None VNil 0 None [])
       ∅ emptyHeap).1
    = (zeroStep,
       Some (ErrRequestPathSubstitution
               (ErrURLSubstitution (ErrUndefinedVariable "id")))).
Proof. split; vm_compute; reflexivity. Qed.

(** * [ApplyToBody] on numbers *)

(** C1, the code at the input of the test
    [TestApplyToBody_NoPlaceholders_PreservesOriginalTypes]: the body
    [{"id": int64(9007199254740993), "name": "alice"}] has no
    placeholder, and still [ApplyToBody] encodes it to JSON and decodes
    it again.  The result is a new map, not the body; in it [id] is a
    [float64], of value 9007199254740992. *)
Lemma ApplyToBody_no_placeholder_is_round_tripped :
  let body := {[ "id" := VInt 9007199254740993; "name" := VString "alice" ]} in
  let h := Heap ∅ {[ 1%positive := body ]} ∅ in
  let '(result, err, h') := ApplyToBody map_to_list (VMap 1%positive) ∅ h in
  err = None
  ∧ result = VMap 2%positive
  ∧ anymaps h' !! 2%positive
    = Some {[ "id" := VFloat64 (float64_of_Z 9007199254740992);
              "name" := VString "alice" ]}
  ∧ float64_of_Z 9007199254740992 = S754_finite false 4503599627370496 1
  ∧ deepValue 1 h' result ≠ deepValue 1 h (VMap 1%positive).
Proof. vm_compute. repeat split; try reflexivity. discriminate. Qed.

(** C2, the code at a body with a placeholder and the integer 2^53 + 1
    beside it: the integer is written as [9007199254740993] in the JSON
    text, and decoded from it as the [float64] 9007199254740992, not as a
    [json.Number] keeping the text; encoded again, its text is
    [9007199254740992]. *)
Lemma ApplyToBody_placeholder_decodes_numbers_as_float64 :
  let body := {[ "user" := VString "${user}";
                 "user_id" := VInt 9007199254740993 ]} in
  let h := Heap ∅ {[ 1%positive := body ]} ∅ in
  let '(result, err, h') :=
    ApplyToBody map_to_list (VMap 1%positive) {[ "user" := "bob" ]} h in
  err = None
  ∧ result = VMap 2%positive
  ∧ anymaps h' !! 2%positive
    = Some {[ "user" := VString "bob";
              "user_id" := VFloat64 (float64_of_Z 9007199254740992) ]}
  ∧ FormatInt 9007199254740993 = "9007199254740993"
  ∧ encodeFloat (float64_of_Z 9007199254740992) = ("9007199254740992", None).
Proof. vm_compute. repeat split; reflexivity. Qed.

(** The test [TestApplyToBody_WithPlaceholders_NumbersAreJsonNumber]
    wants [count] and [score] to come back as [json.Number]; they come
    back as [float64]. *)
Example ApplyToBody_numbers_are_not_json_Number :
  let body := {[ "tag" := VString "${tag}";
                 "count" := VFloat64 (float64_of_Z 42);
                 "score" := VFloat64 (decimalToFloat false 981 (- 2)) ]} in
  let h := Heap ∅ {[ 1%positive := body ]} ∅ in
  let '(result, err, h') :=
    ApplyToBody map_to_list (VMap 1%positive) {[ "tag" := "v1" ]} h in
  err = None
  ∧ deepValue 1 h' result
    = Some (TMap [("count", TFloat64 (float64_of_Z 42));
                  ("score", TFloat64 (decimalToFloat false 981 (- 2)));
                  ("tag", TString "v1")]).
Proof. vm_compute. split; reflexivity. Qed.

(** A value with a double quote in it is escaped in the JSON text and
    comes back as it was (the specification's example). *)
Example ApplyToBody_escapes_quotes :
  let boss := "John " +:+ String dquote "Boss" +:+ String dquote " Doe" in
  let h := Heap ∅ {[ 1%positive := {[ "name" := VString "${n}" ]} ]} ∅ in
  let '(result, err, h') :=
    ApplyToBody map_to_list (VMap 1%positive) {[ "n" := boss ]} h in
  err = None ∧ deepValue 1 h' result = Some (TMap [("name", TString boss)]).
Proof. vm_compute. split; reflexivity. Qed.

(** * Further properties of the substitutor *)

(** The closure reads the context only at the names of the matches. *)
Lemma replaceTokens_agree vars vars' ts : ∀ st,
  (∀ n, n ∈ tokenNames ts → vars !! n = vars' !! n) →
  replaceTokens (substituteFunc vars) ts st
  = replaceTokens (substituteFunc vars') ts st.
Proof.
  induction ts as [|[c|m] ts IH];
    cbn [replaceTokens tokenNames omap list_omap]; intros st H.
  - reflexivity.
  - now rewrite IH.
  - fold (matchName m) in *. fold (tokenNames ts) in *.
    assert (substituteFunc vars m st = substituteFunc vars' m st) as ->.
    { unfold substituteFunc. destruct st; [reflexivity|].
      fold (matchName m). rewrite (H (matchName m)); [reflexivity|].
      apply elem_of_cons. auto. }
    destruct (substituteFunc vars' m st) as [r st1]. rewrite IH; [reflexivity|].
    intros n Hn. apply H. apply elem_of_cons. auto.
Qed.

(** Either every match has a value and the closure replaces each one, or
    some match has none and [firstErr] names one that has none. *)
Lemma replaceTokens_cases vars ts :
  ((∀ n, n ∈ tokenNames ts → is_Some (vars !! n))
   ∧ replaceTokens (substituteFunc vars) ts None
     = (concatStrings (tokenValue vars <$> ts), None))
  ∨ (∃ out n, n ∈ tokenNames ts ∧ vars !! n = None
       ∧ replaceTokens (substituteFunc vars) ts None
         = (out, Some (ErrUndefinedVariable n))).
Proof.
  induction ts as [|[c|m] ts IH]; rewrite ?fmap_cons;
    cbn [replaceTokens substituteFunc concatStrings tokenValue tokenNames omap
         list_omap].
  - left. split; [|reflexivity]. intros n Hn. inversion Hn.
  - destruct IH as [[Hall ->]|(out & n & Hn & Hv & ->)].
    + left. split; [exact Hall | reflexivity].
    + right. exists (String c out), n. auto.
  - fold (matchName m) in *. fold (tokenNames ts) in *.
    destruct (vars !! matchName m) as [v|] eqn:Ev.
    + destruct IH as [[Hall ->]|(out & n & Hn & Hv & ->)].
      * left. split; [|reflexivity].
        intros n Hn. apply elem_of_cons in Hn as [->|Hn]; [eauto | auto].
      * right. exists (v +:+ out), n. split; [apply elem_of_cons; auto|].
        split; [exact Hv | reflexivity].
    + right. rewrite replaceTokens_failed.
      exists (m +:+ concatStrings (tokenText <$> ts)), (matchName m).
      split; [apply elem_of_cons; auto|]. split; [exact Ev | reflexivity].
Qed.

(** [substitute] either expands every placeholder, all of them having a
    value, or fails on a placeholder that has none, with no text. *)
Lemma substitute_cases s vars :
  ((∀ n, n ∈ placeholders s → is_Some (vars !! n))
   ∧ substitute s vars = (expand vars s, None))
  ∨ (∃ n, n ∈ placeholders s ∧ vars !! n = None
       ∧ substitute s vars = ("", Some (ErrUndefinedVariable n))).
Proof.
  unfold substitute, ReplaceAllStringFunc, placeholders, expand.
  destruct (replaceTokens_cases vars (scan s))
    as [[Hall ->]|(out & n & Hn & Hv & ->)].
  - left. auto.
  - right. eauto.
Qed.

(** X1. The result of [substitute] depends on the context only through
    the entries named by the placeholders of the template: two contexts
    that agree on these names give the same text and the same error. *)
Theorem substitute_depends_only_on_placeholders
    (s : string) (vars vars' : gmap string string) :
  (∀ n, n ∈ placeholders s → vars !! n = vars' !! n) →
  substitute s vars = substitute s vars'.
Proof.
  intros H. unfold substitute, ReplaceAllStringFunc.
  rewrite (replaceTokens_agree vars vars' (scan s) None H). reflexivity.
Qed.

Lemma substitute_depends_only_on_placeholders_witness :
  (∀ n, n ∈ placeholders "/users/${id}" →
     ({[ "id" := "42" ]} : gmap string string) !! n
     = ({[ "id" := "42"; "token" := "abc" ]} : gmap string string) !! n)
  ∧ substitute "/users/${id}" {[ "id" := "42" ]}
    = substitute "/users/${id}" {[ "id" := "42"; "token" := "abc" ]}.
Proof.
  assert (Hagree : ∀ n, n ∈ placeholders "/users/${id}" →
     ({[ "id" := "42" ]} : gmap string string) !! n
     = ({[ "id" := "42"; "token" := "abc" ]} : gmap string string) !! n).
  { assert (placeholders "/users/${id}" = ["id"]) as ->
      by (vm_compute; reflexivity).
    intros n Hn. apply list_elem_of_singleton in Hn. subst n.
    vm_compute. reflexivity. }
  split; [exact Hagree|].
  apply (substitute_depends_only_on_placeholders "/users/${id}").
  exact Hagree.
Defined.

Lemma scan_without_dollar s :
  freeOf "$" s = true → tokenNames (scan s) = [].
Proof.
  apply (scan_ind' (λ s ts, freeOf "$" s = true → tokenNames ts = [])).
  - reflexivity.
  - intros c t m r E _ Hfree. exfalso.
    destruct (varPattern_Some _ _ _ E) as (name & _ & _ & -> & Hs).
    rewrite Hs in Hfree. discriminate Hfree.
  - intros c t E IH Hfree. cbn [freeOf] in Hfree.
    apply andb_true_iff in Hfree as [_ Hfree]. exact (IH Hfree).
Qed.

(** X2. A template in which the byte [$] does not occur has no
    placeholder: [substitute] returns it unchanged and without error,
    whatever the context. *)
Theorem substitute_without_dollar (s : string) (vars : gmap string string) :
  freeOf "$" s = true →
  placeholders s = [] ∧ substitute s vars = (s, None).
Proof.
  intros Hfree. pose proof (scan_without_dollar s Hfree) as Hp.
  split; [exact Hp|].
  unfold substitute, ReplaceAllStringFunc.
  rewrite replaceTokens_resolved.
  - rewrite tokenValue_irrelevant by exact Hp. now rewrite scan_text.
  - intros n Hn. rewrite Hp in Hn. inversion Hn.
Qed.

Lemma substitute_without_dollar_witness :
  freeOf "$" "/users/{id}?page=1" = true
  ∧ placeholders "/users/{id}?page=1" = []
  ∧ substitute "/users/{id}?page=1" {[ "id" := "42" ]}
    = ("/users/{id}?page=1", None).
Proof.
  split; [reflexivity|].
  apply (substitute_without_dollar "/users/{id}?page=1" {[ "id" := "42" ]}).
  reflexivity.
Defined.

(** ** [ApplyToHeaders] and [ApplyToQuery] *)

(** The map a sequence of stores into an empty map builds, when the
    sequence lists the entries of [m] in some order. *)
Lemma foldl_insert_union {A B} (f : A → B) (l : list (string * A)) : ∀ m0,
  foldl (λ (m : gmap string B) kv, <[kv.1 := f kv.2]> m) m0 l
  = list_to_map (prod_map id f <$> reverse l) ∪ m0.
Proof.
  induction l as [|[k v] l IH]; intros m0; cbn [foldl].
  - cbn. now rewrite (left_id_L ∅ (∪)).
  - rewrite IH. rewrite reverse_cons, fmap_app, list_to_map_app.
    cbn. rewrite <- (assoc_L (∪)). f_equal.
    rewrite insert_union_singleton_l. f_equal.
Qed.

Lemma foldl_insert_fmap {A B} (f : A → B) (l : list (string * A))
    (m : gmap string A) :
  l ≡ₚ map_to_list m →
  foldl (λ (m : gmap string B) kv, <[kv.1 := f kv.2]> m) ∅ l = f <$> m.
Proof.
  intros Hl. rewrite foldl_insert_union, (right_id_L ∅ (∪)).
  rewrite list_to_map_fmap. f_equal. symmetry. apply list_to_map_flip.
  rewrite reverse_Permutation. now symmetry.
Qed.

Lemma derefStrMap_makeStrMap h m :
  derefStrMap (makeStrMap h).2 m = derefStrMap h m.
Proof.
  destruct m as [x|]; [|reflexivity]. unfold makeStrMap. cbn.
  destruct (decide (fresh (dom (strmaps h)) = x)) as [<-|Hne].
  - rewrite lookup_insert_eq, fresh_lookup_None. reflexivity.
  - now rewrite lookup_insert_ne.
Qed.

Lemma substituteEntries_success wrap entries vars a S A L : ∀ m0,
  (∀ kv, kv ∈ entries → ∀ n, n ∈ placeholders kv.2 → is_Some (vars !! n)) →
  substituteEntries wrap entries vars a (Heap (<[a := m0]> S) A L)
  = (None,
     Heap (<[a := foldl (λ m kv, <[kv.1 := expand vars kv.2]> m) m0 entries]> S)
          A L).
Proof.
  induction entries as [|[k v] entries IH]; intros m0 H;
    cbn [substituteEntries foldl].
  - reflexivity.
  - destruct (substitute_cases v vars) as [[_ ->]|(n & Hn & Hv & _)].
    + unfold storeStrMap. cbn [strmaps anymaps slices].
      rewrite lookup_insert_eq, insert_insert_eq. cbn [default fst snd].
      apply IH. intros kv Hkv. apply H. apply elem_of_cons. auto.
    + destruct (H (k, v) ltac:(apply elem_of_cons; auto) n Hn) as [x Hx].
      cbn in Hx. congruence.
Qed.

Lemma substituteEntries_failure wrap entries vars a : ∀ h e,
  (substituteEntries wrap entries vars a h).1 = Some e →
  ∃ k v n, (k, v) ∈ entries ∧ n ∈ placeholders v ∧ vars !! n = None
           ∧ e = wrap k (ErrUndefinedVariable n).
Proof.
  induction entries as [|[k v] entries IH]; intros h e;
    cbn [substituteEntries].
  - discriminate.
  - destruct (substitute_cases v vars) as [[_ ->]|(n & Hn & Hv & ->)].
    + intros H. destruct (IH _ _ H) as (k' & v' & n & Hin & Hrest).
      exists k', v', n. split; [apply elem_of_cons; auto | exact Hrest].
    + cbn. intros H. inversion H; subst. exists k, v, n.
      split; [apply elem_of_cons; auto | auto].
Qed.

Lemma substituteEntries_resolved wrap entries vars a : ∀ h,
  (substituteEntries wrap entries vars a h).1 = None →
  ∀ kv, kv ∈ entries → ∀ n, n ∈ placeholders kv.2 → is_Some (vars !! n).
Proof.
  induction entries as [|[k v] entries IH]; intros h;
    cbn [substituteEntries].
  - intros _ kv Hkv. inversion Hkv.
  - destruct (substitute_cases v vars) as [[Hall ->]|(n & Hn & Hv & ->)].
    + intros H kv Hkv. apply elem_of_cons in Hkv as [->|Hkv].
      * exact Hall.
      * exact (IH _ H kv Hkv).
    + discriminate.
Qed.

(** What the loop shared by [ApplyToHeaders] and [ApplyToQuery] does to a
    new map, for an order of iteration that visits every entry of the
    input map once. *)
Lemma substituteMap_result wrap ro (m : option addr) vars h :
  (∀ m, ro m ≡ₚ map_to_list m) →
  let '(result, h0) := makeStrMap h in
  match substituteEntries wrap (ro (derefStrMap h0 m)) vars result h0 with
  | (None, h') =>
      (∀ k v n, derefStrMap h m !! k = Some v → n ∈ placeholders v →
         is_Some (vars !! n))
      ∧ strmaps h !! result = None
      ∧ h' = Heap (<[result := expand vars <$> derefStrMap h m]> (strmaps h))
                  (anymaps h) (slices h)
  | (Some e, h') =>
      ∃ k v n, derefStrMap h m !! k = Some v ∧ n ∈ placeholders v
               ∧ vars !! n = None ∧ e = wrap k (ErrUndefinedVariable n)
  end.
Proof.
  intros Hro.
  pose proof (derefStrMap_makeStrMap h m) as Hd.
  pose proof (fresh_lookup_None (strmaps h)) as Hf.
  unfold makeStrMap in *. cbn [fst snd] in Hd. rewrite Hd.
  set (a := fresh (dom (strmaps h))) in *.
  set (entries := ro (derefStrMap h m)).
  assert (Hin : ∀ k v, (k, v) ∈ entries → derefStrMap h m !! k = Some v).
  { intros k v Hkv. apply elem_of_map_to_list.
    unfold entries in Hkv. now rewrite Hro in Hkv. }
  destruct (substituteEntries wrap entries vars a _) as [[e|] h'] eqn:E.
  - pose proof (substituteEntries_failure wrap entries vars a _ e
                  ltac:(rewrite E; reflexivity)) as (k & v & n & Hkv & Hrest).
    exists k, v, n. split; [now apply Hin | exact Hrest].
  - pose proof (substituteEntries_resolved wrap entries vars a _
                  ltac:(rewrite E; reflexivity)) as Hall.
    split; [|split; [exact Hf|]].
    + intros k v n Hkv Hn. apply (Hall (k, v)); [|exact Hn].
      unfold entries. rewrite Hro. now apply elem_of_map_to_list.
    + rewrite substituteEntries_success in E by exact Hall.
      inversion E. do 2 f_equal. apply foldl_insert_fmap. apply Hro.
Qed.

(** X3. Under an order of iteration that visits every entry of a map
    once, [ApplyToHeaders] either succeeds, every placeholder of every
    value having an entry in the context, and returns a new map (at an
    address the store did not hold) with the keys of the input and each
    value expanded, the rest of the store being as before; or it returns
    the [nil] map and the header error for a key whose value has a
    placeholder with no entry. *)
Theorem ApplyToHeaders_result
    (rangeOrder : gmap string string → list (string * string))
    (headers : option addr) (vars : gmap string string) (h : heap) :
  (∀ m, rangeOrder m ≡ₚ map_to_list m) →
  match ApplyToHeaders rangeOrder headers vars h with
  | (Some a, None, h') =>
      (∀ k v n, derefStrMap h headers !! k = Some v → n ∈ placeholders v →
         is_Some (vars !! n))
      ∧ strmaps h !! a = None
      ∧ h' = Heap (<[a := expand vars <$> derefStrMap h headers]> (strmaps h))
                  (anymaps h) (slices h)
  | (None, Some e, _) =>
      ∃ k v n, derefStrMap h headers !! k = Some v ∧ n ∈ placeholders v
               ∧ vars !! n = None
               ∧ e = ErrHeaderSubstitution k (ErrUndefinedVariable n)
  | _ => False
  end.
Proof.
  intros Hro. unfold ApplyToHeaders.
  pose proof (substituteMap_result ErrHeaderSubstitution rangeOrder headers
                vars h Hro) as H.
  destruct (makeStrMap h) as [result h0].
  destruct (substituteEntries _ _ vars result h0) as [[e|] h']; exact H.
Qed.

Lemma ApplyToHeaders_result_witness :
  let h := Heap {[ 1%positive := {[ "X-ID" := "${user_id}" ]} ]} ∅ ∅ in
  (∀ m : gmap string string, map_to_list m ≡ₚ map_to_list m)
  ∧ match ApplyToHeaders map_to_list (Some 1%positive)
            {[ "user_id" := "7" ]} h with
    | (Some a, None, h') =>
        (∀ k v n, derefStrMap h (Some 1%positive) !! k = Some v →
           n ∈ placeholders v →
           is_Some (({[ "user_id" := "7" ]} : gmap string string) !! n))
        ∧ strmaps h !! a = None
        ∧ h' = Heap (<[a := expand {[ "user_id" := "7" ]}
                               <$> derefStrMap h (Some 1%positive)]> (strmaps h))
                    (anymaps h) (slices h)
    | (None, Some e, _) =>
        ∃ k v n, derefStrMap h (Some 1%positive) !! k = Some v
                 ∧ n ∈ placeholders v
                 ∧ ({[ "user_id" := "7" ]} : gmap string string) !! n = None
                 ∧ e = ErrHeaderSubstitution k (ErrUndefinedVariable n)
    | _ => False
    end.
Proof.
  split; [intros m; reflexivity|].
  apply (ApplyToHeaders_result map_to_list (Some 1%positive)
           {[ "user_id" := "7" ]}
           (Heap {[ 1%positive := {[ "X-ID" := "${user_id}" ]} ]} ∅ ∅)).
  intros m; reflexivity.
Defined.

(** X4. [ApplyToQuery], which [ApplyToStep] uses for the query and for
    the path parameters, behaves as [ApplyToHeaders] does, its error
    being the query-parameter error. *)
Theorem ApplyToQuery_result
    (rangeOrder : gmap string string → list (string * string))
    (query : option addr) (vars : gmap string string) (h : heap) :
  (∀ m, rangeOrder m ≡ₚ map_to_list m) →
  match ApplyToQuery rangeOrder query vars h with
  | (Some a, None, h') =>
      (∀ k v n, derefStrMap h query !! k = Some v → n ∈ placeholders v →
         is_Some (vars !! n))
      ∧ strmaps h !! a = None
      ∧ h' = Heap (<[a := expand vars <$> derefStrMap h query]> (strmaps h))
                  (anymaps h) (slices h)
  | (None, Some e, _) =>
      ∃ k v n, derefStrMap h query !! k = Some v ∧ n ∈ placeholders v
               ∧ vars !! n = None
               ∧ e = ErrQueryParamSubstitution k (ErrUndefinedVariable n)
  | _ => False
  end.
Proof.
  intros Hro. unfold ApplyToQuery.
  pose proof (substituteMap_result ErrQueryParamSubstitution rangeOrder query
                vars h Hro) as H.
  destruct (makeStrMap h) as [result h0].
  destruct (substituteEntries _ _ vars result h0) as [[e|] h']; exact H.
Qed.

Lemma ApplyToQuery_result_witness :
  let h := Heap {[ 1%positive := {[ "page" := "${page}" ]} ]} ∅ ∅ in
  (∀ m : gmap string string, map_to_list m ≡ₚ map_to_list m)
  ∧ match ApplyToQuery map_to_list (Some 1%positive) ∅ h with
    | (Some a, None, h') =>
        (∀ k v n, derefStrMap h (Some 1%positive) !! k = Some v →
           n ∈ placeholders v →
           is_Some ((∅ : gmap string string) !! n))
        ∧ strmaps h !! a = None
        ∧ h' = Heap (<[a := expand ∅ <$> derefStrMap h (Some 1%positive)]>
                       (strmaps h))
                    (anymaps h) (slices h)
    | (None, Some e, _) =>
        ∃ k v n, derefStrMap h (Some 1%positive) !! k = Some v
                 ∧ n ∈ placeholders v
                 ∧ (∅ : gmap string string) !! n = None
                 ∧ e = ErrQueryParamSubstitution k (ErrUndefinedVariable n)
    | _ => False
    end.
Proof.
  split; [intros m; reflexivity|].
  apply (ApplyToQuery_result map_to_list (Some 1%positive) ∅
           (Heap {[ 1%positive := {[ "page" := "${page}" ]} ]} ∅ ∅)).
  intros m; reflexivity.
Defined.


(** ** Placeholders as occurrences in the text *)

(** X5. The placeholders of a template are occurrences in its text:
    every placeholder name found is non-empty, has no [}], and stands in
    the template between [${] and [}]; and a template has no placeholder
    exactly when no such occurrence exists in it, at any position. *)
Theorem placeholders_are_occurrences (s : string) :
  (∀ n, n ∈ placeholders s →
     n ≠ "" ∧ freeOf "}" n = true
     ∧ ∃ a b, s = a +:+ "${" +:+ n +:+ "}" +:+ b)
  ∧ (placeholders s = [] ↔
     ∀ a n b, n ≠ "" → freeOf "}" n = true →
       s ≠ a +:+ "${" +:+ n +:+ "}" +:+ b).
Proof.
  assert (Hsound : ∀ n, n ∈ placeholders s →
            n ≠ "" ∧ freeOf "}" n = true
            ∧ ∃ a b, s = a +:+ "${" +:+ n +:+ "}" +:+ b).
  { unfold placeholders.
    apply (scan_ind' (λ s ts, ∀ n, n ∈ tokenNames ts →
             n ≠ "" ∧ freeOf "}" n = true
             ∧ ∃ a b, s = a +:+ "${" +:+ n +:+ "}" +:+ b)).
    - intros n H. inversion H.
    - intros c t m r E IH n Hn.
      destruct (varPattern_Some _ _ _ E) as (name & Hne & Hfree & -> & Hs).
      cbn [tokenNames omap list_omap] in Hn. fold (tokenNames (scan r)) in Hn.
      rewrite matchName_spec in Hn.
      apply elem_of_cons in Hn as [->|Hn].
      + split; [exact Hne|]. split; [exact Hfree|].
        exists "", r. rewrite Hs. cbn [String.append].
        do 2 f_equal. now rewrite append_assoc.
      + destruct (IH n Hn) as (Hne' & Hfree' & a & b & ->).
        split; [exact Hne'|]. split; [exact Hfree'|].
        exists (("${" +:+ name +:+ "}") +:+ a), b.
        rewrite Hs. symmetry. apply append_assoc.
    - intros c t E IH n Hn.
      destruct (IH n Hn) as (Hne & Hfree & a & b & ->).
      split; [exact Hne|]. split; [exact Hfree|].
      exists (String c a), b. reflexivity. }
  split; [exact Hsound|]. split.
  - intros Hnil a n b Hne Hfree ->. clear Hsound.
    revert Hnil. unfold placeholders.
    induction a as [|c a IH]; cbn [String.append].
    + rewrite scan_cons.
      change (String "$" (String "{" (n +:+ String "}" b)))
        with ("${" +:+ n +:+ String "}" b).
      rewrite (varPattern_complete n b Hne Hfree). discriminate.
    + rewrite scan_cons.
      destruct (varPattern _) as [[m r]|]; [discriminate|].
      exact IH.
  - intros Hnone. destruct (placeholders s) as [|n l] eqn:E; [reflexivity|].
    exfalso. destruct (Hsound n) as (Hne & Hfree & a & b & Hs).
    { apply elem_of_cons. auto. }
    exact (Hnone a n b Hne Hfree Hs).
Qed.


(** ** [ApplyToStep] *)

(** The stages of a successful [ApplyToStep], one after the other on the
    store. *)
Lemma ApplyToStep_success_inv ro step vars h result h' :
  ApplyToStep ro step vars h = (result, None, h') →
  ∃ req hd q pp b h1 h2 h3,
    result = mkStep req hd q pp b (Delay step) (SaveToContext step)
               (NextSteps step)
    ∧ match cutFirst (Request step) " " with
      | Some (method, path) =>
          ∃ out, substitute path vars = (out, None)
                 ∧ req = method +:+ " " +:+ out
      | None => req = Request step
      end
    ∧ match Headers step with
      | Some _ => ApplyToHeaders ro (Headers step) vars h = (hd, None, h1)
      | None => hd = None ∧ h1 = h
      end
    ∧ match Query step with
      | Some _ => ApplyToQuery ro (Query step) vars h1 = (q, None, h2)
      | None => q = None ∧ h2 = h1
      end
    ∧ match PathParams step with
      | Some _ => ApplyToQuery ro (PathParams step) vars h2 = (pp, None, h3)
      | None => pp = None ∧ h3 = h2
      end
    ∧ (if isNil (Body step) then b = Body step ∧ h' = h3
       else ApplyToBody ro (Body step) vars h3 = (b, None, h')).
Proof.
  destruct step as [req0 hd0 q0 pp0 b0 d0 s0 n0].
  unfold ApplyToStep, SplitN2, ApplyToURL, setRequest, setHeaders, setQuery,
    setPathParams, setBody.
  cbn [Request Headers Query PathParams Body Delay SaveToContext NextSteps].
  destruct (cutFirst req0 " ") as [[method path]|];
    [destruct (substitute path vars) as [out [e|]]; [cbn; discriminate|]|];
    cbv zeta beta iota.
  all: destruct hd0 as [a|];
    [destruct (ApplyToHeaders ro (Some a) vars h) as [[hd [e|]] h1] eqn:EH;
       [cbn; discriminate|]|];
    cbv zeta beta iota.
  all: destruct q0 as [x|];
    [match goal with
     | |- context [ApplyToQuery ?r ?m ?v ?h0] =>
         destruct (ApplyToQuery r m v h0) as [[q [e|]] h2] eqn:EQ
     end; [cbn; discriminate|]|];
    cbv zeta beta iota.
  all: destruct pp0 as [y|];
    [match goal with
     | |- context [ApplyToQuery ?r ?m ?v ?h0] =>
         destruct (ApplyToQuery r m v h0) as [[pp [e|]] h3] eqn:EP
     end; [cbn; discriminate|]|];
    cbv zeta beta iota.
  all: destruct (isNil b0); cbn [negb];
    [|match goal with
      | |- context [ApplyToBody ?r ?m ?v ?h0] =>
          destruct (ApplyToBody r m v h0) as [[b [e|]] h4] eqn:EB
      end; [cbn; discriminate|]];
    cbv zeta beta iota.
  all: intros H; inversion H; subst; clear H.
  all: do 8 eexists; repeat split; eauto.
Qed.

(** X6. When [ApplyToStep] succeeds, the fields it does not substitute
    in ([Delay], [SaveToContext], [NextSteps]) are those of the input, a
    map field is [nil] in the result exactly when it is in the input,
    and a [nil] body stays [nil]. *)
Theorem ApplyToStep_keeps_untouched_fields
    (rangeOrder : gmap string string → list (string * string))
    (step : Step) (vars : gmap string string) (h : heap)
    (result : Step) (h' : heap) :
  ApplyToStep rangeOrder step vars h = (result, None, h') →
  Delay result = Delay step
  ∧ SaveToContext result = SaveToContext step
  ∧ NextSteps result = NextSteps step
  ∧ (Headers result = None ↔ Headers step = None)
  ∧ (Query result = None ↔ Query step = None)
  ∧ (PathParams result = None ↔ PathParams step = None)
  ∧ (Body step = VNil → Body result = VNil).
Proof.
  intros H.
  destruct (ApplyToStep_success_inv _ _ _ _ _ _ H)
    as (req & hd & q & pp & b & h1 & h2 & h3 & -> & _ & Hh & Hq & Hp & Hb).
  cbn [Delay SaveToContext NextSteps Headers Query PathParams Body].
  repeat split; try reflexivity.
  - intros ->. destruct (Headers step); [|reflexivity].
    unfold ApplyToHeaders in Hh. destruct (makeStrMap h) as [r0 h0].
    destruct (substituteEntries _ _ _ _ _) as [[e|] hx]; inversion Hh.
  - intros E. rewrite E in Hh. tauto.
  - intros ->. destruct (Query step); [|reflexivity].
    unfold ApplyToQuery in Hq. destruct (makeStrMap h1) as [r0 h0].
    destruct (substituteEntries _ _ _ _ _) as [[e|] hx]; inversion Hq.
  - intros E. rewrite E in Hq. tauto.
  - intros ->. destruct (PathParams step); [|reflexivity].
    unfold ApplyToQuery in Hp. destruct (makeStrMap h2) as [r0 h0].
    destruct (substituteEntries _ _ _ _ _) as [[e|] hx]; inversion Hp.
  - intros E. rewrite E in Hp. tauto.
  - intros E. rewrite E in Hb. cbn in Hb. destruct Hb as [-> _]. reflexivity.
Qed.

Lemma ApplyToStep_keeps_untouched_fields_witness :
  let step :=
    mkStep "GET /users/${id}" (Some 1%positive) None None VNil 2000000000
      (Some 2%positive) [mkNextStep "GET /done" ["200"] None] in
  let h :=
    Heap {[ 1%positive := {[ "X-ID" := "${id}" ]};
            2%positive := {[ "token" := "response.token" ]} ]} ∅ ∅ in
  let r := ApplyToStep map_to_list step {[ "id" := "7" ]} h in
  r = (r.1.1, None, r.2)
  ∧ Delay r.1.1 = Delay step
  ∧ SaveToContext r.1.1 = SaveToContext step
  ∧ NextSteps r.1.1 = NextSteps step
  ∧ (Headers r.1.1 = None ↔ Headers step = None)
  ∧ (Query r.1.1 = None ↔ Query step = None)
  ∧ (PathParams r.1.1 = None ↔ PathParams step = None)
  ∧ (Body step = VNil → Body r.1.1 = VNil).
Proof.
  intros step h r.
  assert (Hr : r = (r.1.1, None, r.2)) by (vm_compute; reflexivity).
  split; [exact Hr|].
  exact (ApplyToStep_keeps_untouched_fields map_to_list step {[ "id" := "7" ]}
           h r.1.1 r.2 Hr).
Defined.

(** X7. For a [Request] of the form [method path], split at its first
    space, [ApplyToStep] substitutes in the path only: when it succeeds
    the returned [Request] is the method as it is, a space, and the path
    with every placeholder replaced by its value; when a placeholder of
    the path has no entry in the context it fails with the request-path
    error (wrapping the URL error) for a placeholder of the path that has
    none, and returns the zero [Step]. *)
Theorem ApplyToStep_substitutes_path_only
    (rangeOrder : gmap string string → list (string * string))
    (step : Step) (vars : gmap string string) (h : heap)
    (method path : string) :
  Request step = method +:+ " " +:+ path →
  freeOf " " method = true →
  let r := ApplyToStep rangeOrder step vars h in
  (r.1.2 = None →
     Request r.1.1 = method +:+ " " +:+ expand vars path
     ∧ ∀ n, n ∈ placeholders path → is_Some (vars !! n))
  ∧ ((∃ n, n ∈ placeholders path ∧ vars !! n = None) →
     ∃ n, n ∈ placeholders path ∧ vars !! n = None
          ∧ r = (zeroStep,
                 Some (ErrRequestPathSubstitution
                         (ErrURLSubstitution (ErrUndefinedVariable n))),
                 h)).
Proof.
  intros Hreq Hfree.
  assert (Hcut : cutFirst (Request step) " " = Some (method, path)).
  { apply cutFirst_Some. split; [exact Hreq | exact Hfree]. }
  cbv zeta. split.
  - intros Hnone.
    destruct (ApplyToStep rangeOrder step vars h) as [[result err] h'] eqn:E.
    cbn [fst snd] in *. subst err.
    destruct (ApplyToStep_success_inv _ _ _ _ _ _ E)
      as (req & hd & q & pp & b & h1 & h2 & h3 & -> & Hr & _).
    rewrite Hcut in Hr. destruct Hr as (out & Hout & ->).
    cbn [Request].
    destruct (substitute_cases path vars) as [[Hall Hs]|(n & _ & _ & Hs)];
      rewrite Hs in Hout; inversion Hout; subst. auto.
  - intros (n0 & Hn0 & Hv0).
    destruct (substitute_cases path vars) as [[Hall _]|(n & Hn & Hv & Hs)].
    + destruct (Hall n0 Hn0) as [x Hx]. congruence.
    + exists n. split; [exact Hn|]. split; [exact Hv|].
      unfold ApplyToStep, SplitN2, ApplyToURL. rewrite Hcut, Hs. reflexivity.
Qed.

Lemma ApplyToStep_substitutes_path_only_witness :
  let step := mkStep "${verb} /users/${id}" None None None VNil 0 None [] in
  Request step = "${verb}" +:+ " " +:+ "/users/${id}"
  ∧ freeOf " " "${verb}" = true
  ∧ (let r := ApplyToStep map_to_list step {[ "id" := "7" ]} emptyHeap in
     (r.1.2 = None →
        Request r.1.1
        = "${verb}" +:+ " " +:+ expand {[ "id" := "7" ]} "/users/${id}"
        ∧ ∀ n, n ∈ placeholders "/users/${id}" →
               is_Some (({[ "id" := "7" ]} : gmap string string) !! n))
     ∧ ((∃ n, n ∈ placeholders "/users/${id}"
              ∧ ({[ "id" := "7" ]} : gmap string string) !! n = None) →
        ∃ n, n ∈ placeholders "/users/${id}"
             ∧ ({[ "id" := "7" ]} : gmap string string) !! n = None
             ∧ r = (zeroStep,
                    Some (ErrRequestPathSubstitution
                            (ErrURLSubstitution (ErrUndefinedVariable n))),
                    emptyHeap))).
Proof.
  intros step.
  split; [reflexivity|]. split; [reflexivity|].
  apply (ApplyToStep_substitutes_path_only map_to_list step
           {[ "id" := "7" ]} emptyHeap "${verb}" "/users/${id}");
    reflexivity.
Defined.

Lemma ApplyToHeaders_success_inv ro headers vars h hd h1 :
  (∀ m, ro m ≡ₚ map_to_list m) →
  ApplyToHeaders ro headers vars h = (hd, None, h1) →
  ∃ a', hd = Some a' ∧ strmaps h !! a' = None
        ∧ h1 = Heap (<[a' := expand vars <$> derefStrMap h headers]> (strmaps h))
                    (anymaps h) (slices h).
Proof.
  intros Hro. unfold ApplyToHeaders.
  pose proof (substituteMap_result ErrHeaderSubstitution ro headers vars h Hro)
    as R.
  destruct (makeStrMap h) as [result h0].
  destruct (substituteEntries _ _ vars result h0) as [[e|] hx];
    intros E; inversion E; subst.
  destruct R as (_ & Hfresh & ->). eauto.
Qed.

Lemma ApplyToQuery_success_inv ro query vars h q h1 :
  (∀ m, ro m ≡ₚ map_to_list m) →
  ApplyToQuery ro query vars h = (q, None, h1) →
  ∃ a', q = Some a' ∧ strmaps h !! a' = None
        ∧ h1 = Heap (<[a' := expand vars <$> derefStrMap h query]> (strmaps h))
                    (anymaps h) (slices h).
Proof.
  intros Hro. unfold ApplyToQuery.
  pose proof (substituteMap_result ErrQueryParamSubstitution ro query vars h
                Hro) as R.
  destruct (makeStrMap h) as [result h0].
  destruct (substituteEntries _ _ vars result h0) as [[e|] hx];
    intros E; inversion E; subst.
  destruct R as (_ & Hfresh & ->). eauto.
Qed.

(** X8. Under an order of iteration that visits every entry of a map
    once, when [ApplyToStep] succeeds each of the map fields [Headers],
    [Query] and [PathParams] that refers to a map of the store refers, in
    the result, to a new map (at an address the store did not hold before
    the call) whose entries are those of the input map with each value
    expanded. *)
Theorem ApplyToStep_result_maps
    (rangeOrder : gmap string string → list (string * string))
    (step : Step) (vars : gmap string string) (h : heap)
    (result : Step) (h' : heap) :
  (∀ m, rangeOrder m ≡ₚ map_to_list m) →
  ApplyToStep rangeOrder step vars h = (result, None, h') →
  ∀ field : Step → option addr, field ∈ [Headers; Query; PathParams] →
  ∀ a m, field step = Some a → strmaps h !! a = Some m →
    ∃ a', field result = Some a'
          ∧ strmaps h !! a' = None
          ∧ strmaps h' !! a' = Some (expand vars <$> m).
Proof.
  intros Hro H field Hfield a m Ha Hm.
  destruct (ApplyToStep_success_inv _ _ _ _ _ _ H)
    as (req & hd & q & pp & b & h1 & h2 & h3 & -> & _ & Hh & Hq & Hp & Hb).
  assert (I1 : heapIncl h h1).
  { destruct (Headers step).
    - pose proof (ApplyToHeaders_incl rangeOrder (Some a0) vars h) as I.
      now rewrite Hh in I.
    - destruct Hh as [_ ->]. apply heapIncl_refl. }
  assert (I2 : heapIncl h1 h2).
  { destruct (Query step).
    - pose proof (ApplyToQuery_incl rangeOrder (Some a0) vars h1) as I.
      now rewrite Hq in I.
    - destruct Hq as [_ ->]. apply heapIncl_refl. }
  assert (I3 : heapIncl h2 h3).
  { destruct (PathParams step).
    - pose proof (ApplyToQuery_incl rangeOrder (Some a0) vars h2) as I.
      now rewrite Hp in I.
    - destruct Hp as [_ ->]. apply heapIncl_refl. }
  assert (I4 : heapIncl h3 h').
  { destruct (isNil (Body step)).
    - destruct Hb as [_ ->]. apply heapIncl_refl.
    - pose proof (ApplyToBody_incl rangeOrder (Body step) vars h3) as I.
      now rewrite Hb in I. }
  assert (Hsub : ∀ ha hb x y, heapIncl ha hb →
            strmaps ha !! x = Some y → strmaps hb !! x = Some y).
  { intros ha hb x y (S & _ & _) Hx.
    exact (proj1 (map_subseteq_spec _ _) S x y Hx). }
  assert (Hnone : ∀ ha hb x, heapIncl ha hb →
            strmaps hb !! x = None → strmaps ha !! x = None).
  { intros ha hb x I Hx. destruct (strmaps ha !! x) as [y|] eqn:E; [|reflexivity].
    rewrite (Hsub _ _ _ _ I E) in Hx. discriminate. }
  assert (Hd : ∀ hx, heapIncl h hx → derefStrMap hx (Some a) = m).
  { intros hx I. cbn. now rewrite (Hsub _ _ _ _ I Hm). }
  repeat (apply elem_of_cons in Hfield as [->|Hfield]);
    [| | |inversion Hfield]; rewrite Ha in *.
  - destruct (ApplyToHeaders_success_inv _ _ _ _ _ _ Hro Hh)
      as (a' & -> & Hfresh & E1). exists a'.
    split; [reflexivity|]. split; [exact Hfresh|].
    apply (Hsub h1 h');
      [|rewrite E1; cbn [strmaps]; rewrite lookup_insert_eq; do 2 f_equal;
        exact (Hd h (heapIncl_refl h))].
    eapply heapIncl_trans; [exact I2|].
    eapply heapIncl_trans; [exact I3 | exact I4].
  - destruct (ApplyToQuery_success_inv _ _ _ _ _ _ Hro Hq)
      as (a' & -> & Hfresh & E2). exists a'.
    split; [reflexivity|]. split; [exact (Hnone _ _ _ I1 Hfresh)|].
    apply (Hsub h2 h');
      [|rewrite E2; cbn [strmaps]; rewrite lookup_insert_eq; do 2 f_equal;
        exact (Hd h1 I1)].
    eapply heapIncl_trans; [exact I3 | exact I4].
  - destruct (ApplyToQuery_success_inv _ _ _ _ _ _ Hro Hp)
      as (a' & -> & Hfresh & E3). exists a'.
    split; [reflexivity|].
    split; [exact (Hnone _ _ _ (heapIncl_trans _ _ _ I1 I2) Hfresh)|].
    apply (Hsub h3 h');
      [exact I4
      |rewrite E3; cbn [strmaps]; rewrite lookup_insert_eq; do 2 f_equal;
       exact (Hd h2 (heapIncl_trans _ _ _ I1 I2))].
Qed.

Lemma ApplyToStep_result_maps_witness :
  let step :=
    mkStep "GET /users" (Some 1%positive) (Some 2%positive) None VNil 0 None
      [] in
  let h :=
    Heap {[ 1%positive := {[ "X-ID" := "${id}" ]};
            2%positive := {[ "page" := "${id}" ]} ]} ∅ ∅ in
  let vars : gmap string string := {[ "id" := "7" ]} in
  let r := ApplyToStep map_to_list step vars h in
  (∀ m : gmap string string, map_to_list m ≡ₚ map_to_list m)
  ∧ r = (r.1.1, None, r.2)
  ∧ ∀ field : Step → option addr, field ∈ [Headers; Query; PathParams] →
    ∀ a m, field step = Some a → strmaps h !! a = Some m →
      ∃ a', field r.1.1 = Some a'
            ∧ strmaps h !! a' = None
            ∧ strmaps r.2 !! a' = Some (expand vars <$> m).
Proof.
  intros step h vars r.
  assert (Hro : ∀ m : gmap string string, map_to_list m ≡ₚ map_to_list m)
    by (intros m; reflexivity).
  assert (Hr : r = (r.1.1, None, r.2)) by (vm_compute; reflexivity).
  split; [exact Hro|]. split; [exact Hr|].
  exact (ApplyToStep_result_maps map_to_list step vars h r.1.1 r.2 Hro Hr).
Defined.

(** The errors of the stages of [ApplyToStep]. *)
Lemma ApplyToHeaders_failure_inv ro headers vars h hd e h1 :
  ApplyToHeaders ro headers vars h = (hd, Some e, h1) →
  ∃ k n, e = ErrHeaderSubstitution k (ErrUndefinedVariable n).
Proof.
  unfold ApplyToHeaders. destruct (makeStrMap h) as [result h0].
  pose proof (substituteEntries_failure ErrHeaderSubstitution
                (ro (derefStrMap h0 headers)) vars result h0) as F.
  destruct (substituteEntries _ _ vars result h0) as [[e0|] hx];
    intros E; inversion E; subst.
  destruct (F e eq_refl) as (k & v & n & _ & _ & _ & ->). eauto.
Qed.

Lemma ApplyToQuery_failure_inv ro query vars h q e h1 :
  ApplyToQuery ro query vars h = (q, Some e, h1) →
  ∃ k n, e = ErrQueryParamSubstitution k (ErrUndefinedVariable n).
Proof.
  unfold ApplyToQuery. destruct (makeStrMap h) as [result h0].
  pose proof (substituteEntries_failure ErrQueryParamSubstitution
                (ro (derefStrMap h0 query)) vars result h0) as F.
  destruct (substituteEntries _ _ vars result h0) as [[e0|] hx];
    intros E; inversion E; subst.
  destruct (F e eq_refl) as (k & v & n & _ & _ & _ & ->). eauto.
Qed.

Lemma ApplyToBody_failure_inv ro body vars h b e h1 :
  ApplyToBody ro body vars h = (b, Some e, h1) →
  b = VNil
  ∧ ((∃ n, e = ErrBodySubstitution (ErrUndefinedVariable n))
     ∨ (∃ e', e = ErrBodyMarshalling e')
     ∨ (∃ e', e = ErrBodyUnmarshalling e')).
Proof.
  unfold ApplyToBody.
  pose proof (escapeEntries_error (ro vars) ∅) as He.
  destruct (escapeEntries (ro vars) ∅) as [jsonVars err]. cbn in He. subst err.
  destruct body; cbn;
    repeat match goal with
    | |- context [substitute ?s ?v] =>
        let H := fresh "Hs" in
        destruct (substitute_cases s v) as [[_ H]|(? & _ & _ & H)];
        rewrite H; cbn
    | |- context [Marshal ?b ?h] => destruct (Marshal b h) as [? [?|]]; cbn
    | |- context [Unmarshal ?s ?h] =>
        destruct (Unmarshal s h) as [[? [?|]] ?]; cbn
    end;
    intros E; inversion E; subst; split; eauto.
Qed.

(** X9. When [ApplyToStep] fails it returns the zero [Step], and the
    error is that of the first stage that fails: the request-path error
    wrapping the URL error, the header error, the query-parameter error,
    the path-parameter error wrapping the query-parameter error of
    [ApplyToQuery], each for an undefined variable, or one of the three
    body errors (substitution, marshalling, unmarshalling).  It is never
    the JSON-escape error. *)
Theorem ApplyToStep_failure
    (rangeOrder : gmap string string → list (string * string))
    (step : Step) (vars : gmap string string) (h : heap)
    (result : Step) (e : error) (h' : heap) :
  ApplyToStep rangeOrder step vars h = (result, Some e, h') →
  result = zeroStep ∧ stepError e.
Proof.
  destruct step as [req0 hd0 q0 pp0 b0 d0 s0 n0].
  unfold ApplyToStep, SplitN2, ApplyToURL, setRequest, setHeaders, setQuery,
    setPathParams, setBody.
  cbn [Request Headers Query PathParams Body Delay SaveToContext NextSteps].
  destruct (cutFirst req0 " ") as [[method path]|];
    [destruct (substitute_cases path vars) as [[_ Hs]|(n & _ & _ & Hs)];
       rewrite Hs;
       [|cbn; intros E; inversion E; subst; split; [reflexivity|constructor]]|];
    cbv zeta beta iota.
  all: destruct hd0 as [a|];
    [destruct (ApplyToHeaders rangeOrder (Some a) vars h) as [[hd [e0|]] h1]
       eqn:EH;
       [apply ApplyToHeaders_failure_inv in EH as (k & n & ->);
        cbn; intros E; inversion E; subst; split; [reflexivity|constructor]|]|];
    cbv zeta beta iota.
  all: destruct q0 as [x|];
    [match goal with
     | |- context [ApplyToQuery ?r ?m ?v ?h0] =>
         destruct (ApplyToQuery r m v h0) as [[q [e0|]] h2] eqn:EQ
     end;
       [apply ApplyToQuery_failure_inv in EQ as (k & n & ->);
        cbn; intros E; inversion E; subst; split; [reflexivity|constructor]|]|];
    cbv zeta beta iota.
  all: destruct pp0 as [y|];
    [match goal with
     | |- context [ApplyToQuery ?r ?m ?v ?h0] =>
         destruct (ApplyToQuery r m v h0) as [[pp [e0|]] h3] eqn:EP
     end;
       [apply ApplyToQuery_failure_inv in EP as (k & n & ->);
        cbn; intros E; inversion E; subst; split; [reflexivity|constructor]|]|];
    cbv zeta beta iota.
  all: destruct (isNil b0); cbn [negb];
    [|match goal with
      | |- context [ApplyToBody ?r ?m ?v ?h0] =>
          destruct (ApplyToBody r m v h0) as [[b [e0|]] h4] eqn:EB
      end;
        [apply ApplyToBody_failure_inv in EB
           as (_ & [(n & ->)|[(e' & ->)|(e' & ->)]]);
         cbn; intros E; inversion E; subst;
         (split; [reflexivity|constructor])|]];
    cbv zeta beta iota.
  all: intros E; inversion E.
Qed.

Lemma ApplyToStep_failure_witness :
  let step :=
    mkStep "GET /users" None None (Some 1%positive) VNil 0 None [] in
  let h := Heap {[ 1%positive := {[ "id" := "${user_id}" ]} ]} ∅ ∅ in
  let r := ApplyToStep map_to_list step ∅ h in
  let e :=
    ErrPathParamsSubstitution
      (ErrQueryParamSubstitution "id" (ErrUndefinedVariable "user_id")) in
  r = (r.1.1, Some e, r.2) ∧ r.1.1 = zeroStep ∧ stepError e.
Proof.
  intros step h r e.
  assert (Hr : r = (r.1.1, Some e, r.2)) by (vm_compute; reflexivity).
  split; [exact Hr|].
  exact (ApplyToStep_failure map_to_list step ∅ h r.1.1 e r.2 Hr).
Defined.


(** ** The variable an error of [ApplyToStep] blames *)

Lemma ApplyToHeaders_failure_undefined ro headers vars h hd e h1 :
  ApplyToHeaders ro headers vars h = (hd, Some e, h1) →
  ∃ k n, e = ErrHeaderSubstitution k (ErrUndefinedVariable n)
         ∧ vars !! n = None.
Proof.
  unfold ApplyToHeaders. destruct (makeStrMap h) as [result h0].
  pose proof (substituteEntries_failure ErrHeaderSubstitution
                (ro (derefStrMap h0 headers)) vars result h0) as F.
  destruct (substituteEntries _ _ vars result h0) as [[e0|] hx];
    intros E; inversion E; subst.
  destruct (F e eq_refl) as (k & v & n & _ & _ & Hn & ->). eauto.
Qed.

Lemma ApplyToQuery_failure_undefined ro query vars h q e h1 :
  ApplyToQuery ro query vars h = (q, Some e, h1) →
  ∃ k n, e = ErrQueryParamSubstitution k (ErrUndefinedVariable n)
         ∧ vars !! n = None.
Proof.
  unfold ApplyToQuery. destruct (makeStrMap h) as [result h0].
  pose proof (substituteEntries_failure ErrQueryParamSubstitution
                (ro (derefStrMap h0 query)) vars result h0) as F.
  destruct (substituteEntries _ _ vars result h0) as [[e0|] hx];
    intros E; inversion E; subst.
  destruct (F e eq_refl) as (k & v & n & _ & _ & Hn & ->). eauto.
Qed.

(** [jsonVars] has an entry for every variable the loop visits. *)
Lemma escapeEntries_lookup_None entries : ∀ jsonVars n,
  (escapeEntries entries jsonVars).1 !! n = None →
  jsonVars !! n = None ∧ ∀ v, (n, v) ∉ entries.
Proof.
  induction entries as [|[k v] entries IH]; intros jsonVars n;
    cbn [escapeEntries MarshalString].
  - intros H. split; [exact H|]. intros v Hv. inversion Hv.
  - intros H. apply IH in H as [Hk Hin].
    apply lookup_insert_None in Hk as [Hj Hne]. split; [exact Hj|].
    intros v' Hv'. apply elem_of_cons in Hv' as [Heq|Hv'].
    + inversion Heq. congruence.
    + exact (Hin v' Hv').
Qed.

Lemma ApplyToBody_failure_undefined ro body vars h b n h1 :
  (∀ m, ro m ≡ₚ map_to_list m) →
  ApplyToBody ro body vars h
  = (b, Some (ErrBodySubstitution (ErrUndefinedVariable n)), h1) →
  vars !! n = None.
Proof.
  intros Hro. unfold ApplyToBody.
  pose proof (escapeEntries_error (ro vars) ∅) as He.
  pose proof (escapeEntries_lookup_None (ro vars) ∅) as Hl.
  destruct (escapeEntries (ro vars) ∅) as [jsonVars err].
  cbn [fst snd] in He, Hl. subst err.
  assert (Hj : jsonVars !! n = None → vars !! n = None).
  { intros H. apply Hl in H as [_ Hin].
    destruct (vars !! n) as [v|] eqn:E; [|reflexivity].
    exfalso. apply (Hin v). rewrite Hro. now apply elem_of_map_to_list. }
  destruct body; cbn;
    repeat match goal with
    | |- context [substitute ?s ?v] =>
        let H := fresh "Hs" in
        let Hv := fresh "Hv" in
        destruct (substitute_cases s v) as [[_ H]|(? & _ & Hv & H)];
        rewrite H; cbn
    | |- context [Marshal ?b ?h] => destruct (Marshal b h) as [? [?|]]; cbn
    | |- context [Unmarshal ?s ?h] =>
        destruct (Unmarshal s h) as [[? [?|]] ?]; cbn
    end;
    intros E; inversion E; subst; auto.
Qed.

(** X10. Under an order of iteration that visits every entry of a map
    once, an undefined-variable error of [ApplyToStep], whichever stage
    it comes from, names a variable the context has no entry for. *)
Theorem ApplyToStep_blames_undefined_variable
    (rangeOrder : gmap string string → list (string * string))
    (step : Step) (vars : gmap string string) (h : heap)
    (result : Step) (e : error) (h' : heap) (n : string) :
  (∀ m, rangeOrder m ≡ₚ map_to_list m) →
  ApplyToStep rangeOrder step vars h = (result, Some e, h') →
  blames e n → vars !! n = None.
Proof.
  intros Hro.
  destruct step as [req0 hd0 q0 pp0 b0 d0 s0 n0].
  unfold ApplyToStep, SplitN2, ApplyToURL, setRequest, setHeaders, setQuery,
    setPathParams, setBody.
  cbn [Request Headers Query PathParams Body Delay SaveToContext NextSteps].
  destruct (cutFirst req0 " ") as [[method path]|];
    [destruct (substitute_cases path vars) as [[_ Hs]|(x & _ & Hx & Hs)];
       rewrite Hs;
       [|cbn; intros E B; inversion E; subst; inversion B; subst;
         exact Hx]|];
    cbv zeta beta iota.
  all: destruct hd0 as [a|];
    [destruct (ApplyToHeaders rangeOrder (Some a) vars h) as [[hd [e0|]] h1]
       eqn:EH;
       [apply ApplyToHeaders_failure_undefined in EH as (k & x & -> & Hx);
        cbn; intros E B; inversion E; subst; inversion B; subst;
        exact Hx|]|];
    cbv zeta beta iota.
  all: destruct q0 as [a1|];
    [match goal with
     | |- context [ApplyToQuery ?r ?m ?v ?h0] =>
         destruct (ApplyToQuery r m v h0) as [[q [e0|]] h2] eqn:EQ
     end;
       [apply ApplyToQuery_failure_undefined in EQ as (k & x & -> & Hx);
        cbn; intros E B; inversion E; subst; inversion B; subst;
        exact Hx|]|];
    cbv zeta beta iota.
  all: destruct pp0 as [a2|];
    [match goal with
     | |- context [ApplyToQuery ?r ?m ?v ?h0] =>
         destruct (ApplyToQuery r m v h0) as [[pp [e0|]] h3] eqn:EP
     end;
       [apply ApplyToQuery_failure_undefined in EP as (k & x & -> & Hx);
        cbn; intros E B; inversion E; subst; inversion B; subst;
        exact Hx|]|];
    cbv zeta beta iota.
  all: destruct (isNil b0); cbn [negb];
    [|match goal with
      | |- context [ApplyToBody ?r ?m ?v ?h0] =>
          destruct (ApplyToBody r m v h0) as [[b [e0|]] h4] eqn:EB
      end;
        [pose proof (ApplyToBody_failure_inv _ _ _ _ _ _ _ EB)
           as (_ & [(x & ->)|[(e' & ->)|(e' & ->)]]);
         cbn; intros E B; inversion E; subst; inversion B; subst;
         exact (ApplyToBody_failure_undefined _ _ _ _ _ _ _ Hro EB)|]];
    cbv zeta beta iota.
  all: intros E; inversion E.
Qed.

Lemma ApplyToStep_blames_undefined_variable_witness :
  let step :=
    mkStep "GET /users" None None None (VSlice 1%positive) 0 None [] in
  let h := Heap ∅ ∅ {[ 1%positive := [VString "${token}"] ]} in
  let vars : gmap string string := {[ "id" := "7" ]} in
  let r := ApplyToStep map_to_list step vars h in
  let e := ErrBodySubstitution (ErrUndefinedVariable "token") in
  (∀ m : gmap string string, map_to_list m ≡ₚ map_to_list m)
  ∧ r = (r.1.1, Some e, r.2)
  ∧ blames e "token"
  ∧ vars !! "token" = None.
Proof.
  intros step h vars r e.
  assert (Hro : ∀ m : gmap string string, map_to_list m ≡ₚ map_to_list m)
    by (intros m; reflexivity).
  assert (Hr : r = (r.1.1, Some e, r.2)) by (vm_compute; reflexivity).
  assert (Hb : blames e "token") by constructor.
  split; [exact Hro|]. split; [exact Hr|]. split; [exact Hb|].
  exact (ApplyToStep_blames_undefined_variable map_to_list step vars h r.1.1
           e r.2 "token" Hro Hr Hb).
Defined.


(** * Further properties of the validator *)

Lemma parseRequest_iff (request method path : string) :
  parseRequest request = (method, path, None)
  ↔ request = method +:+ " " +:+ path
    ∧ In method ["GET"; "POST"; "PUT"; "PATCH"; "DELETE"; "HEAD"]
    ∧ HasPrefix path "/" = true.
Proof.
  unfold parseRequest, SplitN2. split.
  - destruct (String.eqb request ""); [discriminate|].
    destruct (cutFirst request " ") as [[a b]|] eqn:E; [|discriminate].
    destruct (Contains validMethods a) eqn:Ec; cbn [negb]; [|discriminate].
    destruct (HasPrefix b "/") eqn:Ep; cbn [negb]; [|discriminate].
    intros H. inversion H; subst.
    apply cutFirst_Some in E as [-> _].
    split; [reflexivity|]. split; [|exact Ep].
    now apply Contains_In in Ec.
  - intros (-> & Hin & Hp).
    assert (Hfree : freeOf " " method = true).
    { cbn in Hin.
      destruct Hin as [<-|[<-|[<-|[<-|[<-|[<-|[]]]]]]]; reflexivity. }
    assert (String.eqb (method +:+ " " +:+ path) "" = false) as ->.
    { cbn in Hin.
      destruct Hin as [<-|[<-|[<-|[<-|[<-|[<-|[]]]]]]]; reflexivity. }
    rewrite (proj2 (cutFirst_Some (method +:+ " " +:+ path) " " method path))
      by (split; [reflexivity | exact Hfree]).
    rewrite (proj2 (Contains_In validMethods method) Hin). cbn [negb].
    rewrite Hp. reflexivity.
Qed.

(** X11. [parseRequest] accepts a request exactly when it is a method, a
    space and a path, the method being one of the six valid methods and
    the path starting with [/]; it then returns this method and this
    path. *)
Theorem parseRequest_accepts_iff (request method path : string) :
  parseRequest request = (method, path, None)
  ↔ request = method +:+ " " +:+ path
    ∧ In method ["GET"; "POST"; "PUT"; "PATCH"; "DELETE"; "HEAD"]
    ∧ HasPrefix path "/" = true.
Proof. apply parseRequest_iff. Qed.

(** X12. [FindStep] returns the first step, in declaration order, whose
    request is the one asked for, and [nil] exactly when no step has that
    request. *)
Theorem FindStep_first_match (s : Scenario) (request : string) :
  match FindStep s request with
  | Some st =>
      ∃ i, Steps s !! i = Some st ∧ Request st = request
           ∧ ∀ j st', j < i → Steps s !! j = Some st' → Request st' ≠ request
  | None => ∀ st, st ∈ Steps s → Request st ≠ request
  end.
Proof.
  unfold FindStep. induction (Steps s) as [|st0 l IH]; cbn [find].
  - intros st H. inversion H.
  - destruct (String.eqb (Request st0) request) eqn:E.
    + apply String.eqb_eq in E. exists 0.
      split; [reflexivity|]. split; [exact E|]. intros j st' Hj. lia.
    + apply String.eqb_neq in E.
      destruct (find _ l) as [st|].
      * destruct IH as (i & Hi & Hr & Hfirst). exists (S i).
        split; [exact Hi|]. split; [exact Hr|].
        intros [|j] st' Hj Hst'.
        -- inversion Hst'; subst. exact E.
        -- apply (Hfirst j st'); [lia | exact Hst'].
      * intros st Hst. apply elem_of_cons in Hst as [->|Hst]; [exact E | auto].
Qed.

(** ** What an accepted scenario satisfies *)

Lemma forRange_None {A} (body : nat → A → option error) l : ∀ i,
  forRange body i l = None ↔ ∀ k x, l !! k = Some x → body (i + k) x = None.
Proof.
  induction l as [|x l IH]; intros i; cbn [forRange].
  - split; [intros _ k y H; discriminate | reflexivity].
  - destruct (body i x) as [e|] eqn:E.
    + split; [discriminate|]. intros H.
      specialize (H 0 x eq_refl). rewrite Nat.add_0_r in H. congruence.
    + rewrite IH. split.
      * intros H [|k] y Hk.
        -- inversion Hk; subst. now rewrite Nat.add_0_r.
        -- replace (i + S k) with (S i + k) by lia. now apply H.
      * intros H k y Hk. replace (S i + k) with (i + S k) by lia.
        now apply H.
Qed.

Lemma collectRequests_elem steps : ∀ acc x,
  x ∈ collectRequests acc steps
  ↔ x ∈ acc ∨ ∃ st, st ∈ steps ∧ Request st = x.
Proof.
  unfold collectRequests.
  induction steps as [|st steps IH]; intros acc x; cbn [foldl].
  - split; [auto|]. intros [H|(st & H & _)]; [exact H | inversion H].
  - rewrite IH. rewrite elem_of_union, elem_of_singleton. split.
    + intros [[->|H]|(st' & H & E)].
      * right. exists st. split; [apply elem_of_cons; auto | reflexivity].
      * auto.
      * right. exists st'. split; [apply elem_of_cons; auto | exact E].
    + intros [H|(st' & H & E)]; [auto|].
      apply elem_of_cons in H as [->|H]; [auto|].
      right. exists st'. auto.
Qed.

(** An accepted scenario passes the scenario-level checks, and every
    step passes the checks of the loop body, the requests of the earlier
    steps being in [uniqueRequests]. *)
Lemma Validate_None_inv ro s h :
  Validate ro (mkParser (Some s)) h = None →
  scenarioViolation s = None
  ∧ ∀ k step, Steps s !! k = Some step →
      validateStep ro s h (requestsOf (take k (Steps s))) k step = None.
Proof.
  unfold Validate, scenarioViolation. cbn [scenario].
  destruct (String.eqb (Name s) ""); [discriminate|].
  destruct (String.eqb (BaseURL s) ""); [discriminate|].
  destruct (VirtualUsers s <=? 0)%N; [discriminate|].
  destruct (Duration s <=? 0)%N; [discriminate|].
  destruct (31556952 <? Duration s)%N; [discriminate|].
  destruct (length (Steps s) =? 0); [discriminate|].
  intros H. split; [reflexivity|].
  pose proof (validateSteps_first ro s h (Steps s) ∅ 0) as F.
  rewrite H in F. exact F.
Qed.

Lemma validateStep_None_inv ro s h acc i step :
  validateStep ro s h acc i step = None →
  Request step ≠ "" ∧ (Request step ∉ acc)
  ∧ (∃ method path,
       parseRequest (Request step) = (method, path, None)
       ∧ ((method = "GET" ∨ method = "HEAD") → Body step = VNil))
  ∧ (0 ≤ Delay step ≤ maxDelay)%Z
  ∧ ∀ j nextStep, NextSteps step !! j = Some nextStep →
      validateNextStep ro s h i j nextStep = None.
Proof.
  unfold validateStep.
  destruct (String.eqb (Request step) "") eqn:E1; [discriminate|].
  destruct (bool_decide (Request step ∈ acc)) eqn:E2; [discriminate|].
  destruct (parseRequest (Request step)) as [[method path] [err|]] eqn:E3;
    [discriminate|].
  destruct ((String.eqb method "GET" || String.eqb method "HEAD")
            && negb (isNil (Body step))) eqn:E4; [discriminate|].
  destruct (Delay step <? 0)%Z eqn:E5; [discriminate|].
  destruct (maxDelay <? Delay step)%Z eqn:E6; [discriminate|].
  intros H.
  split; [now apply String.eqb_neq|].
  split; [now apply bool_decide_eq_false in E2|].
  split; [|split; [lia|]].
  - exists method, path. split; [reflexivity|].
    intros Hm. apply andb_false_iff in E4 as [E4|E4].
    + destruct Hm as [->| ->]; discriminate.
    + destruct (Body step); try discriminate. reflexivity.
  - intros j nextStep Hj.
    apply (proj1 (forRange_None _ _ 0) H j nextStep Hj).
Qed.

Lemma validateNextStep_None_inv ro s h i j nextStep :
  validateNextStep ro s h i j nextStep = None →
  NextStep_Request nextStep ≠ ""
  ∧ (∃ method path,
       parseRequest (NextStep_Request nextStep) = (method, path, None))
  ∧ is_Some (FindStep s (NextStep_Request nextStep))
  ∧ (∀ code, code ∈ NextStep_StatusCodes nextStep →
       validateStatusCode code = None)
  ∧ (∀ source target,
       (source, target) ∈ ro (derefStrMap h (NextStep_Map nextStep)) →
       validateMapping source target = None).
Proof.
  unfold validateNextStep.
  destruct (String.eqb (NextStep_Request nextStep) "") eqn:E1; [discriminate|].
  destruct (parseRequest (NextStep_Request nextStep))
    as [[method path] [err|]] eqn:E2; [discriminate|].
  destruct (FindStep s (NextStep_Request nextStep)) as [found|] eqn:E3;
    [|discriminate].
  destruct (forRange _ 0 (NextStep_StatusCodes nextStep)) as [err|] eqn:E4;
    [discriminate|].
  intros H.
  split; [now apply String.eqb_neq|].
  split; [eauto|]. split; [eauto|]. split.
  - intros code Hc. apply list_elem_of_lookup in Hc as [k Hk].
    pose proof (proj1 (forRange_None _ _ 0) E4 k code Hk) as Hv.
    cbn in Hv. destruct (validateStatusCode code); [discriminate | reflexivity].
  - intros source target Hm. apply list_elem_of_lookup in Hm as [k Hk].
    pose proof (proj1 (forRange_None _ _ 0) H k (source, target) Hk) as Hv.
    cbn in Hv.
    destruct (validateMapping source target); [discriminate | reflexivity].
Qed.

Lemma accepted_requests_NoDup ro s h :
  Validate ro (mkParser (Some s)) h = None → NoDup (Request <$> Steps s).
Proof.
  intros H. destruct (Validate_None_inv _ _ _ H) as [_ Hsteps].
  assert (Hlt : ∀ i j x, i < j →
            (Request <$> Steps s) !! i = Some x →
            (Request <$> Steps s) !! j = Some x → False).
  { intros i j x Hij Hi Hj.
    rewrite list_lookup_fmap in Hi, Hj.
    destruct (Steps s !! i) as [si|] eqn:Ei; [|discriminate].
    destruct (Steps s !! j) as [sj|] eqn:Ej; [|discriminate].
    cbn in Hi, Hj. inversion Hi; inversion Hj; subst.
    destruct (validateStep_None_inv _ _ _ _ _ _ (Hsteps j sj Ej))
      as (_ & Hnotin & _).
    apply Hnotin. unfold requestsOf. apply collectRequests_elem. right.
    exists si. split; [|congruence].
    apply list_elem_of_lookup. exists i. rewrite lookup_take_lt by exact Hij.
    exact Ei. }
  apply NoDup_alt. intros i j x Hi Hj.
  destruct (Nat.lt_trichotomy i j) as [Hij|[Hij|Hij]];
    [exfalso; eauto | exact Hij | exfalso; eauto].
Qed.

(** X13. In a scenario that [Validate] accepts no two steps have the
    same request. *)
Theorem Validate_accepted_requests_unique
    (rangeOrder : gmap string string → list (string * string))
    (s : Scenario) (h : heap) :
  Validate rangeOrder (mkParser (Some s)) h = None →
  NoDup (Request <$> Steps s).
Proof. apply accepted_requests_NoDup. Qed.

Lemma Validate_accepted_requests_unique_witness :
  Validate map_to_list (mkParser (Some acceptedScenario)) acceptedStore = None
  ∧ NoDup (Request <$> Steps acceptedScenario).
Proof.
  assert (H : Validate map_to_list (mkParser (Some acceptedScenario))
                acceptedStore = None) by (vm_compute; reflexivity).
  split; [exact H|].
  exact (Validate_accepted_requests_unique map_to_list acceptedScenario
           acceptedStore H).
Defined.

(** X14. In a scenario that [Validate] accepts every next step names a
    request that parses and that is the request of a declared step, which
    [FindStep] returns. *)
Theorem Validate_accepted_targets_exist
    (rangeOrder : gmap string string → list (string * string))
    (s : Scenario) (h : heap) :
  Validate rangeOrder (mkParser (Some s)) h = None →
  ∀ step nextStep, step ∈ Steps s → nextStep ∈ NextSteps step →
    (∃ method path,
       parseRequest (NextStep_Request nextStep) = (method, path, None))
    ∧ ∃ target, FindStep s (NextStep_Request nextStep) = Some target
                ∧ target ∈ Steps s
                ∧ Request target = NextStep_Request nextStep.
Proof.
  intros H step nextStep Hstep Hnext.
  destruct (Validate_None_inv _ _ _ H) as [_ Hsteps].
  apply list_elem_of_lookup in Hstep as [k Hk].
  apply list_elem_of_lookup in Hnext as [j Hj].
  destruct (validateStep_None_inv _ _ _ _ _ _ (Hsteps k step Hk))
    as (_ & _ & _ & _ & Hns).
  destruct (validateNextStep_None_inv _ _ _ _ _ _ (Hns j nextStep Hj))
    as (_ & Hparse & [target Ht] & _).
  split; [exact Hparse|]. exists target. split; [exact Ht|].
  unfold FindStep in Ht. apply find_some in Ht as [Hin Heq].
  split; [now apply list_elem_of_In | now apply String.eqb_eq].
Qed.

Lemma Validate_accepted_targets_exist_witness :
  Validate map_to_list (mkParser (Some acceptedScenario)) acceptedStore = None
  ∧ ∀ step nextStep,
      step ∈ Steps acceptedScenario → nextStep ∈ NextSteps step →
      (∃ method path,
         parseRequest (NextStep_Request nextStep) = (method, path, None))
      ∧ ∃ target,
          FindStep acceptedScenario (NextStep_Request nextStep) = Some target
          ∧ target ∈ Steps acceptedScenario
          ∧ Request target = NextStep_Request nextStep.
Proof.
  assert (H : Validate map_to_list (mkParser (Some acceptedScenario))
                acceptedStore = None) by (vm_compute; reflexivity).
  split; [exact H|].
  exact (Validate_accepted_targets_exist map_to_list acceptedScenario
           acceptedStore H).
Defined.

(** X15. In a scenario that [Validate] accepts, looking a step up by its
    request finds that very step: [FindStep] on the request of a declared
    step returns the step. *)
Theorem Validate_accepted_FindStep_finds_step
    (rangeOrder : gmap string string → list (string * string))
    (s : Scenario) (h : heap) :
  Validate rangeOrder (mkParser (Some s)) h = None →
  ∀ step, step ∈ Steps s → FindStep s (Request step) = Some step.
Proof.
  intros H step Hstep. apply accepted_requests_NoDup in H.
  unfold FindStep. induction (Steps s) as [|x l IH]; [inversion Hstep|].
  rewrite fmap_cons in H. apply NoDup_cons in H as [Hx Hl].
  cbn [find]. destruct (String.eqb (Request x) (Request step)) eqn:E.
  - apply String.eqb_eq in E.
    apply elem_of_cons in Hstep as [->|Hstep]; [reflexivity|].
    exfalso. apply Hx. rewrite E. apply list_elem_of_fmap.
    exists step. auto.
  - apply elem_of_cons in Hstep as [->|Hstep].
    + rewrite String.eqb_refl in E. discriminate.
    + now apply IH.
Qed.

Lemma Validate_accepted_FindStep_finds_step_witness :
  Validate map_to_list (mkParser (Some acceptedScenario)) acceptedStore = None
  ∧ ∀ step, step ∈ Steps acceptedScenario →
      FindStep acceptedScenario (Request step) = Some step.
Proof.
  assert (H : Validate map_to_list (mkParser (Some acceptedScenario))
                acceptedStore = None) by (vm_compute; reflexivity).
  split; [exact H|].
  exact (Validate_accepted_FindStep_finds_step map_to_list acceptedScenario
           acceptedStore H).
Defined.

(** X16. A scenario that [Validate] accepts has a name and a base URL,
    at least one virtual user, a duration from 1 to 31556952 seconds and
    at least one step; every step has a request that [parseRequest]
    accepts, a delay from zero to [maxDelay], and no body when its method
    is GET or HEAD. *)
Theorem Validate_accepted_bounds
    (rangeOrder : gmap string string → list (string * string))
    (s : Scenario) (h : heap) :
  Validate rangeOrder (mkParser (Some s)) h = None →
  Name s ≠ "" ∧ BaseURL s ≠ ""
  ∧ (1 ≤ VirtualUsers s)%N
  ∧ (1 ≤ Duration s ≤ 31556952)%N
  ∧ Steps s ≠ []
  ∧ ∀ step, step ∈ Steps s →
      (∃ method path,
         parseRequest (Request step) = (method, path, None)
         ∧ ((method = "GET" ∨ method = "HEAD") → Body step = VNil))
      ∧ (0 ≤ Delay step ≤ maxDelay)%Z.
Proof.
  intros H. destruct (Validate_None_inv _ _ _ H) as [Hs Hsteps].
  unfold scenarioViolation in Hs.
  destruct (String.eqb (Name s) "") eqn:E1; [discriminate|].
  destruct (String.eqb (BaseURL s) "") eqn:E2; [discriminate|].
  destruct (VirtualUsers s <=? 0)%N eqn:E3; [discriminate|].
  destruct (Duration s <=? 0)%N eqn:E4; [discriminate|].
  destruct (31556952 <? Duration s)%N eqn:E5; [discriminate|].
  destruct (length (Steps s) =? 0) eqn:E6; [discriminate|].
  apply String.eqb_neq in E1, E2.
  apply N.leb_gt in E3, E4. apply N.ltb_ge in E5. apply Nat.eqb_neq in E6.
  split; [exact E1|]. split; [exact E2|]. split; [lia|]. split; [lia|].
  split; [intros E; rewrite E in E6; apply E6; reflexivity|].
  intros step Hstep. apply list_elem_of_lookup in Hstep as [k Hk].
  destruct (validateStep_None_inv _ _ _ _ _ _ (Hsteps k step Hk))
    as (_ & _ & Hparse & Hdelay & _).
  split; [exact Hparse | exact Hdelay].
Qed.

Lemma Validate_accepted_bounds_witness :
  Validate map_to_list (mkParser (Some acceptedScenario)) acceptedStore = None
  ∧ Name acceptedScenario ≠ "" ∧ BaseURL acceptedScenario ≠ ""
  ∧ (1 ≤ VirtualUsers acceptedScenario)%N
  ∧ (1 ≤ Duration acceptedScenario ≤ 31556952)%N
  ∧ Steps acceptedScenario ≠ []
  ∧ ∀ step, step ∈ Steps acceptedScenario →
      (∃ method path,
         parseRequest (Request step) = (method, path, None)
         ∧ ((method = "GET" ∨ method = "HEAD") → Body step = VNil))
      ∧ (0 ≤ Delay step ≤ maxDelay)%Z.
Proof.
  assert (H : Validate map_to_list (mkParser (Some acceptedScenario))
                acceptedStore = None) by (vm_compute; reflexivity).
  split; [exact H|].
  exact (Validate_accepted_bounds map_to_list acceptedScenario acceptedStore H).
Defined.

(** X17. Under an order of iteration that visits every entry of a map
    once, in a scenario that [Validate] accepts every status code of
    every next step passes [validateStatusCode] and every entry of every
    next step's map passes [validateMapping]. *)
Theorem Validate_accepted_codes_and_mappings
    (rangeOrder : gmap string string → list (string * string))
    (s : Scenario) (h : heap) :
  (∀ m, rangeOrder m ≡ₚ map_to_list m) →
  Validate rangeOrder (mkParser (Some s)) h = None →
  ∀ step nextStep, step ∈ Steps s → nextStep ∈ NextSteps step →
    (∀ code, code ∈ NextStep_StatusCodes nextStep →
       validateStatusCode code = None)
    ∧ (∀ source target,
         derefStrMap h (NextStep_Map nextStep) !! source = Some target →
         validateMapping source target = None).
Proof.
  intros Hro H step nextStep Hstep Hnext.
  destruct (Validate_None_inv _ _ _ H) as [_ Hsteps].
  apply list_elem_of_lookup in Hstep as [k Hk].
  apply list_elem_of_lookup in Hnext as [j Hj].
  destruct (validateStep_None_inv _ _ _ _ _ _ (Hsteps k step Hk))
    as (_ & _ & _ & _ & Hns).
  destruct (validateNextStep_None_inv _ _ _ _ _ _ (Hns j nextStep Hj))
    as (_ & _ & _ & Hcodes & Hmaps).
  split; [exact Hcodes|].
  intros source target Hm. apply Hmaps. rewrite Hro.
  now apply elem_of_map_to_list.
Qed.

Lemma Validate_accepted_codes_and_mappings_witness :
  (∀ m : gmap string string, map_to_list m ≡ₚ map_to_list m)
  ∧ Validate map_to_list (mkParser (Some acceptedScenario)) acceptedStore
    = None
  ∧ ∀ step nextStep,
      step ∈ Steps acceptedScenario → nextStep ∈ NextSteps step →
      (∀ code, code ∈ NextStep_StatusCodes nextStep →
         validateStatusCode code = None)
      ∧ (∀ source target,
           derefStrMap acceptedStore (NextStep_Map nextStep) !! source
           = Some target →
           validateMapping source target = None).
Proof.
  assert (Hro : ∀ m : gmap string string, map_to_list m ≡ₚ map_to_list m)
    by (intros m; reflexivity).
  assert (H : Validate map_to_list (mkParser (Some acceptedScenario))
                acceptedStore = None) by (vm_compute; reflexivity).
  split; [exact Hro|]. split; [exact H|].
  exact (Validate_accepted_codes_and_mappings map_to_list acceptedScenario
           acceptedStore Hro H).
Defined.

(** ** The order of iteration over a map *)

Lemma sameOutcome_refl r : sameOutcome r r.
Proof. destruct r; cbn; [left; reflexivity | exact I]. Qed.

Lemma forRange_sameOutcome {A} (b1 b2 : nat → A → option error) l : ∀ i,
  (∀ k x, sameOutcome (b1 k x) (b2 k x)) →
  sameOutcome (forRange b1 i l) (forRange b2 i l).
Proof.
  induction l as [|x l IH]; intros i H; cbn [forRange].
  - exact I.
  - specialize (H i x) as Hx.
    destruct (b1 i x) as [e1|], (b2 i x) as [e2|]; cbn in Hx |- *;
      try contradiction; [exact Hx | now apply IH].
Qed.

Lemma forRange_unindexed_None {A} (f : A → option error) l i :
  forRange (λ _ x, f x) i l = None ↔ ∀ x, x ∈ l → f x = None.
Proof.
  rewrite forRange_None. split.
  - intros H x Hx. apply list_elem_of_lookup in Hx as [k Hk]. eauto.
  - intros H k x Hk. apply H. apply list_elem_of_lookup. eauto.
Qed.

Lemma forRange_Some_lookup {A} (body : nat → A → option error) l : ∀ i e,
  forRange body i l = Some e →
  ∃ k x, l !! k = Some x ∧ body (i + k) x = Some e.
Proof.
  induction l as [|x l IH]; intros i e; cbn [forRange]; [discriminate|].
  destruct (body i x) as [e0|] eqn:E.
  - intros H. inversion H; subst. exists 0, x.
    split; [reflexivity|]. now rewrite Nat.add_0_r.
  - intros H. destruct (IH _ _ H) as (k & y & Hk & Hy).
    exists (S k), y. split; [exact Hk|].
    now replace (i + S k) with (S i + k) by lia.
Qed.

Lemma validateNextStep_order ro1 ro2 s h i j nextStep :
  (∀ m, ro1 m ≡ₚ map_to_list m) → (∀ m, ro2 m ≡ₚ map_to_list m) →
  sameOutcome (validateNextStep ro1 s h i j nextStep)
              (validateNextStep ro2 s h i j nextStep).
Proof.
  intros H1 H2. unfold validateNextStep.
  destruct (String.eqb (NextStep_Request nextStep) "");
    [apply sameOutcome_refl|].
  destruct (parseRequest (NextStep_Request nextStep)) as [[? ?] [err|]];
    [apply sameOutcome_refl|].
  destruct (FindStep s (NextStep_Request nextStep));
    [|apply sameOutcome_refl].
  destruct (forRange _ 0 (NextStep_StatusCodes nextStep));
    [apply sameOutcome_refl|].
  set (m := derefStrMap h (NextStep_Map nextStep)).
  set (body := λ '(mapSource, mapTarget),
         ErrNextMapping i j mapSource mapTarget
           <$> validateMapping mapSource mapTarget).
  change (sameOutcome (forRange (λ _ x, body x) 0 (ro1 m))
                      (forRange (λ _ x, body x) 0 (ro2 m))).
  destruct (forRange (λ _ x, body x) 0 (ro1 m)) as [e1|] eqn:E1,
           (forRange (λ _ x, body x) 0 (ro2 m)) as [e2|] eqn:E2; cbn.
  - apply forRange_Some_lookup in E1 as (k1 & [src1 tgt1] & _ & E1).
    apply forRange_Some_lookup in E2 as (k2 & [src2 tgt2] & _ & E2).
    cbn in E1, E2.
    destruct (validateMapping src1 tgt1) as [x1|]; [|discriminate].
    destruct (validateMapping src2 tgt2) as [x2|]; [|discriminate].
    inversion E1; inversion E2; subst. right.
    exists i, j, src1, tgt1, x1, src2, tgt2, x2. auto.
  - apply forRange_Some_lookup in E1 as (k1 & x & Hk & E1).
    rewrite forRange_unindexed_None in E2.
    rewrite E2 in E1; [discriminate|].
    rewrite H2, <- H1. apply list_elem_of_lookup. eauto.
  - apply forRange_Some_lookup in E2 as (k2 & x & Hk & E2).
    rewrite forRange_unindexed_None in E1.
    rewrite E1 in E2; [discriminate|].
    rewrite H1, <- H2. apply list_elem_of_lookup. eauto.
  - exact I.
Qed.

Lemma validateStep_order ro1 ro2 s h acc i step :
  (∀ m, ro1 m ≡ₚ map_to_list m) → (∀ m, ro2 m ≡ₚ map_to_list m) →
  sameOutcome (validateStep ro1 s h acc i step)
              (validateStep ro2 s h acc i step).
Proof.
  intros H1 H2. unfold validateStep.
  destruct (String.eqb (Request step) ""); [apply sameOutcome_refl|].
  destruct (bool_decide (Request step ∈ acc)); [apply sameOutcome_refl|].
  destruct (parseRequest (Request step)) as [[httpMethod ?] [err|]];
    [apply sameOutcome_refl|].
  destruct ((String.eqb httpMethod "GET" || String.eqb httpMethod "HEAD")
            && negb (isNil (Body step))); [apply sameOutcome_refl|].
  destruct (Delay step <? 0)%Z; [apply sameOutcome_refl|].
  destruct (maxDelay <? Delay step)%Z; [apply sameOutcome_refl|].
  apply forRange_sameOutcome. intros j nextStep.
  now apply validateNextStep_order.
Qed.

Lemma validateSteps_order ro1 ro2 s h steps :
  (∀ m, ro1 m ≡ₚ map_to_list m) → (∀ m, ro2 m ≡ₚ map_to_list m) →
  ∀ acc i,
  sameOutcome (validateSteps ro1 s h acc i steps)
              (validateSteps ro2 s h acc i steps).
Proof.
  intros H1 H2.
  induction steps as [|step steps IH]; intros acc i; cbn [validateSteps].
  - exact I.
  - pose proof (validateStep_order ro1 ro2 s h acc i step H1 H2) as Hs.
    destruct (validateStep ro1 s h acc i step) as [e1|],
             (validateStep ro2 s h acc i step) as [e2|]; cbn in Hs |- *;
      try contradiction; [exact Hs | apply IH].
Qed.

(** X18. The order in which the maps of the next steps are iterated
    over, as long as it visits every entry once, does not change whether
    [Validate] accepts, nor the error it returns, except for which
    invalid mapping of one next step is reported: two such orders give
    either no error both, or the same error, or two mapping errors of the
    same step and next step. *)
Theorem Validate_order_independent
    (rangeOrder1 rangeOrder2 : gmap string string → list (string * string))
    (p : Parser) (h : heap) :
  (∀ m, rangeOrder1 m ≡ₚ map_to_list m) →
  (∀ m, rangeOrder2 m ≡ₚ map_to_list m) →
  sameOutcome (Validate rangeOrder1 p h) (Validate rangeOrder2 p h).
Proof.
  intros H1 H2. unfold Validate.
  destruct (scenario p) as [s|]; [|apply sameOutcome_refl].
  destruct (String.eqb (Name s) ""); [apply sameOutcome_refl|].
  destruct (String.eqb (BaseURL s) ""); [apply sameOutcome_refl|].
  destruct (VirtualUsers s <=? 0)%N; [apply sameOutcome_refl|].
  destruct (Duration s <=? 0)%N; [apply sameOutcome_refl|].
  destruct (31556952 <? Duration s)%N; [apply sameOutcome_refl|].
  destruct (length (Steps s) =? 0); [apply sameOutcome_refl|].
  now apply validateSteps_order.
Qed.

Lemma Validate_order_independent_witness :
  let reversed (m : gmap string string) := reverse (map_to_list m) in
  (∀ m : gmap string string, map_to_list m ≡ₚ map_to_list m)
  ∧ (∀ m, reversed m ≡ₚ map_to_list m)
  ∧ sameOutcome
      (Validate map_to_list (mkParser (Some acceptedScenario)) acceptedStore)
      (Validate reversed (mkParser (Some acceptedScenario)) acceptedStore).
Proof.
  intros reversed.
  assert (H1 : ∀ m : gmap string string, map_to_list m ≡ₚ map_to_list m)
    by (intros m; reflexivity).
  assert (H2 : ∀ m, reversed m ≡ₚ map_to_list m)
    by (intros m; apply reverse_Permutation).
  split; [exact H1|]. split; [exact H2|].
  exact (Validate_order_independent map_to_list reversed
           (mkParser (Some acceptedScenario)) acceptedStore H1 H2).
Defined.

(** * The order in which [Validate] reports violations *)

(** ** The checks of the validator and the invariants they enforce *)

Lemma HasPrefix_slash path :
  HasPrefix path "/" = true ↔ ∃ rest, path = String "/" rest.
Proof.
  unfold HasPrefix. destruct path as [|c t]; cbn [String.prefix].
  - split; [discriminate | intros [r H]; discriminate].
  - destruct (ascii_dec "/" c) as [<-|Hne].
    + split; [eauto | intros _; now destruct t].
    + split; [discriminate | intros [r H]; inversion H; congruence].
Qed.

Lemma parseRequest_requestForm request method path :
  parseRequest request = (method, path, None)
  ↔ requestForm request method path.
Proof.
  unfold requestForm. rewrite parseRequest_iff, HasPrefix_slash. reflexivity.
Qed.

Lemma parseRequest_nonempty request method path :
  parseRequest request = (method, path, None) → String.eqb request "" = false.
Proof.
  unfold parseRequest. destruct (String.eqb request ""); [discriminate|].
  reflexivity.
Qed.

Lemma validateStatusCode_statusPatternForm code :
  validateStatusCode code = None ↔ statusPatternForm code.
Proof.
  unfold statusPatternForm.
  rewrite <- Atoi_code. unfold validateStatusCode.
  destruct code as [|c t].
  - split; [discriminate|]. intros [H|(n & H & _)]; discriminate.
  - change (String.eqb (String c t) "") with false. cbv iota.
    destruct ((String.length (String c t) =? 3)
              && String.eqb (slice (String c t) 1 (String.length (String c t))) "xx")
      eqn:W.
    + apply andb_prop in W as [W1 W2].
      destruct t as [|x1 [|x2 [|x3 rest]]]; try discriminate.
      change (slice (String c (String x1 (String x2 ""))) 1
                (String.length (String c (String x1 (String x2 "")))))
        with (String x1 (String x2 "")) in W2.
      apply String.eqb_eq in W2. inversion W2; subst x1 x2.
      unfold isWildcardPattern. change (String.eqb "xx" "xx") with true.
      cbn [andb].
      change (nat_of_ascii "1") with 49. change (nat_of_ascii "5") with 53.
      split.
      * intros H. left.
        destruct ((nat_of_ascii c <? 49) || (53 <? nat_of_ascii c)) eqn:E;
          [discriminate|].
        apply orb_false_elim in E as [E1 E2].
        apply Nat.ltb_ge in E1. apply Nat.ltb_ge in E2.
        apply andb_true_intro. split; apply Nat.leb_le; lia.
      * intros [H|H].
        -- apply andb_prop in H as [H1 H2]. apply Nat.leb_le in H1, H2.
           assert (((nat_of_ascii c <? 49) || (53 <? nat_of_ascii c)) = false)
             as ->; [|reflexivity].
           apply orb_false_intro; apply Nat.ltb_ge; lia.
        -- exfalso. apply Atoi_code in H. unfold dropPlus in H.
           destruct (Ascii.eqb c "+"); [discriminate|].
           cbn [dropZeros] in H.
           destruct (Ascii.eqb c "0"); [vm_compute in H; discriminate|].
           unfold isThreeDigitCode in H.
           change (isDigit "x") with false in H.
           rewrite !andb_false_r in H. discriminate.
    + rewrite validateStatusCode_by_Atoi. split; [auto|].
      intros [H|H]; [exfalso | exact H].
      unfold isWildcardPattern in H. apply andb_prop in H as [H _].
      apply andb_prop in H as [H _]. apply String.eqb_eq in H. subst t.
      discriminate.
Qed.

Lemma validateMapping_mappingForm source target :
  validateMapping source target = None ↔ mappingForm source target.
Proof.
  unfold mappingForm, validateMapping, SplitN2. split.
  - destruct (cutFirst source ".") as [[sp sf]|] eqn:Es; [|discriminate].
    destruct (Contains validSources sp) eqn:Cs; [|simpl; discriminate]. simpl.
    destruct (cutFirst target ".") as [[tp tf]|] eqn:Et; [|discriminate].
    destruct (Contains validTargets tp) eqn:Ct; [|simpl; discriminate]. simpl.
    intros _. apply cutFirst_Some in Es as [-> Hs].
    apply cutFirst_Some in Et as [-> Ht].
    apply Contains_In in Cs. apply Contains_In in Ct.
    exists sp, sf, tp, tf. auto 10.
  - intros (sp & sf & tp & tf & -> & Hs & Is & -> & Ht & It).
    rewrite (proj2 (cutFirst_Some _ _ sp sf)) by auto.
    rewrite (proj2 (Contains_In validSources sp)) by exact Is. simpl.
    rewrite (proj2 (cutFirst_Some _ _ tp tf)) by auto.
    rewrite (proj2 (Contains_In validTargets tp)) by exact It. reflexivity.
Qed.

Lemma FindStep_is_Some s request :
  is_Some (FindStep s request)
  ↔ ∃ target, target ∈ Steps s ∧ Request target = request.
Proof.
  unfold FindStep. induction (Steps s) as [|st l IH]; cbn [find].
  - split; [intros [x H]; discriminate | intros (t & H & _); inversion H].
  - destruct (String.eqb (Request st) request) eqn:E.
    + apply String.eqb_eq in E. split; [|eauto].
      intros _. exists st. split; [apply elem_of_cons; auto | exact E].
    + apply String.eqb_neq in E. rewrite IH. split.
      * intros (t & Ht & Hr). exists t. split; [apply elem_of_cons; auto|].
        exact Hr.
      * intros (t & Ht & Hr). apply elem_of_cons in Ht as [->|Ht];
          [contradiction | eauto].
Qed.

Lemma validateNextStep_None_iff ro s h i j nextStep :
  (∀ m, ro m ≡ₚ map_to_list m) →
  validateNextStep ro s h i j nextStep = None
  ↔ nextStepInvariants s h nextStep.
Proof.
  intros Hro. split.
  - intros H.
    apply validateNextStep_None_inv in H
      as (_ & (method & path & Hp) & Hf & Hc & Hm).
    split; [exists method, path; now apply parseRequest_requestForm|].
    split; [now apply FindStep_is_Some|]. split.
    + intros code Hcode. apply validateStatusCode_statusPatternForm. auto.
    + intros source target Hl. apply validateMapping_mappingForm. apply Hm.
      rewrite (Hro _). now apply elem_of_map_to_list.
  - intros ((method & path & Hp) & Hf & Hc & Hm). unfold validateNextStep.
    apply parseRequest_requestForm in Hp.
    rewrite (parseRequest_nonempty _ _ _ Hp), Hp.
    apply FindStep_is_Some in Hf as [found ->].
    rewrite (proj2 (forRange_None _ _ 0)).
    + apply forRange_None. intros k [source target] Hk. cbv beta iota.
      rewrite (proj2 (validateMapping_mappingForm source target));
        [reflexivity|].
      apply Hm. apply elem_of_map_to_list. rewrite <- (Hro _).
      apply list_elem_of_lookup. eauto.
    + intros k code Hk. cbv beta.
      rewrite (proj2 (validateStatusCode_statusPatternForm code));
        [reflexivity|].
      apply Hc. apply list_elem_of_lookup. eauto.
Qed.

Lemma earlier_requests s i request :
  request ∈ requestsOf (take i (Steps s))
  ↔ ∃ k earlier, k < i ∧ Steps s !! k = Some earlier
                 ∧ Request earlier = request.
Proof.
  unfold requestsOf. rewrite collectRequests_elem. split.
  - intros [H|(st & Hst & Hr)]; [set_solver|].
    apply list_elem_of_lookup in Hst as [k Hk].
    apply lookup_take_Some in Hk as [Hk Hlt]. eauto.
  - intros (k & st & Hlt & Hk & Hr). right. exists st. split; [|exact Hr].
    apply list_elem_of_lookup. exists k. apply lookup_take_Some. auto.
Qed.

Lemma validateStep_None_iff ro s h i step :
  (∀ m, ro m ≡ₚ map_to_list m) →
  validateStep ro s h (requestsOf (take i (Steps s))) i step = None
  ↔ stepInvariants s h i step.
Proof.
  intros Hro. split.
  - intros H.
    apply validateStep_None_inv in H
      as (_ & Hnew & (method & path & Hp & Hb) & Hd & Hn).
    split; [exists method, path; split;
              [now apply parseRequest_requestForm | exact Hb]|].
    split.
    { intros k earlier Hlt Hk Hr. apply Hnew. apply earlier_requests. eauto. }
    split; [unfold maxDelay in Hd; lia|].
    intros nextStep Hns. apply list_elem_of_lookup in Hns as [j Hj].
    apply (validateNextStep_None_iff ro s h i j nextStep Hro). eauto.
  - intros ((method & path & Hp & Hb) & Hnew & Hd & Hn). unfold validateStep.
    apply parseRequest_requestForm in Hp.
    rewrite (parseRequest_nonempty _ _ _ Hp).
    rewrite bool_decide_eq_false_2.
    2:{ intros Hin. apply earlier_requests in Hin as (k & st & Hlt & Hk & Hr).
        exact (Hnew k st Hlt Hk Hr). }
    rewrite Hp.
    assert ((String.eqb method "GET" || String.eqb method "HEAD")
            && negb (isNil (Body step)) = false) as ->.
    { destruct (String.eqb method "GET" || String.eqb method "HEAD") eqn:E;
        [|reflexivity].
      rewrite Hb; [reflexivity|].
      apply orb_prop in E as [E|E]; apply String.eqb_eq in E; auto. }
    assert ((Delay step <? 0)%Z = false) as -> by (apply Z.ltb_ge; lia).
    assert ((maxDelay <? Delay step)%Z = false) as ->
      by (apply Z.ltb_ge; unfold maxDelay; lia).
    apply forRange_None. intros j nextStep Hj.
    apply (validateNextStep_None_iff ro s h i (0 + j) nextStep Hro).
    apply Hn. apply list_elem_of_lookup. eauto.
Qed.

Lemma scenarioViolation_None_iff s :
  scenarioViolation s = None ↔ scenarioInvariants s.
Proof.
  unfold scenarioViolation, scenarioInvariants.
  destruct (String.eqb (Name s) "") eqn:E1;
    [apply String.eqb_eq in E1; split; [discriminate | tauto]|].
  destruct (String.eqb (BaseURL s) "") eqn:E2;
    [apply String.eqb_eq in E2; split; [discriminate | tauto]|].
  destruct (VirtualUsers s <=? 0)%N eqn:E3;
    [apply N.leb_le in E3; split; [discriminate | lia]|].
  destruct (Duration s <=? 0)%N eqn:E4;
    [apply N.leb_le in E4; split; [discriminate | lia]|].
  destruct (31556952 <? Duration s)%N eqn:E5;
    [apply N.ltb_lt in E5; split; [discriminate | lia]|].
  apply String.eqb_neq in E1, E2. apply N.leb_gt in E3, E4.
  apply N.ltb_ge in E5.
  destruct (Steps s) as [|st l]; cbn [length Nat.eqb].
  - split; [discriminate | tauto].
  - split; [|reflexivity]. intros _. repeat split; auto; lia.
Qed.

(** [Validate] reports a violation of the scenario's fields before it
    looks at the steps; with none, its result is that of the loop over
    the steps. *)
Lemma Validate_scenario_level ro s h :
  match scenarioViolation s with
  | Some e => Validate ro (mkParser (Some s)) h = Some e ∧ stepIndex e = None
  | None =>
      Validate ro (mkParser (Some s)) h = validateSteps ro s h ∅ 0 (Steps s)
  end.
Proof.
  unfold scenarioViolation, Validate. cbn [scenario].
  destruct (String.eqb (Name s) ""); [split; reflexivity|].
  destruct (String.eqb (BaseURL s) ""); [split; reflexivity|].
  destruct (VirtualUsers s <=? 0)%N; [split; reflexivity|].
  destruct (Duration s <=? 0)%N; [split; reflexivity|].
  destruct (31556952 <? Duration s)%N; [split; reflexivity|].
  destruct (length (Steps s) =? 0); [split; reflexivity|].
  reflexivity.
Qed.

(** C6. [Validate] returns at most one error, and which one follows the
    order of declaration.  It accepts a scenario exactly when the fields
    of the scenario and every step keep their invariants.  When the
    fields do not, the error is about the scenario and no step.
    Otherwise, when a step breaks an invariant and no step declared
    before it does, the error is about that step: it carries its index,
    whatever is wrong with the steps declared after it. *)
Theorem Validate_reports_first_violation
    (rangeOrder : gmap string string → list (string * string))
    (s : Scenario) (h : heap) :
  (∀ m, rangeOrder m ≡ₚ map_to_list m) →
  (Validate rangeOrder (mkParser (Some s)) h = None
   ↔ scenarioInvariants s
     ∧ ∀ i step, Steps s !! i = Some step → stepInvariants s h i step)
  ∧ (¬ scenarioInvariants s →
     ∃ e, Validate rangeOrder (mkParser (Some s)) h = Some e
          ∧ stepIndex e = None)
  ∧ (scenarioInvariants s →
     ∀ i step,
       Steps s !! i = Some step →
       ¬ stepInvariants s h i step →
       (∀ k earlier, k < i → Steps s !! k = Some earlier →
          stepInvariants s h k earlier) →
       ∃ e, Validate rangeOrder (mkParser (Some s)) h = Some e
            ∧ stepIndex e = Some i).
Proof.
  intros Hro.
  pose proof (Validate_scenario_level rangeOrder s h) as HV.
  pose proof (scenarioViolation_None_iff s) as HS.
  pose proof (validateSteps_first rangeOrder s h (Steps s) ∅ 0) as HF.
  assert (HI : ∀ i step,
            validateStep rangeOrder s h (collectRequests ∅ (take i (Steps s)))
              (0 + i) step = None
            ↔ stepInvariants s h i step)
    by (intros i step; apply (validateStep_None_iff rangeOrder s h i step Hro)).
  destruct (scenarioViolation s) as [e0|].
  - destruct HV as [HV Hidx].
    assert (Hno : ¬ scenarioInvariants s)
      by (intros Hs; apply HS in Hs; discriminate).
    split; [|split].
    + rewrite HV. split; [discriminate | tauto].
    + intros _. eauto.
    + tauto.
  - assert (Hs : scenarioInvariants s) by (now apply HS).
    rewrite HV. clear HV HS.
    split; [|split; [tauto|]].
    + destruct (validateSteps rangeOrder s h ∅ 0 (Steps s)) as [e|].
      * split; [discriminate|]. intros [_ Hall]. exfalso.
        destruct HF as (k & step & Hk & Hv & _).
        rewrite (proj2 (HI k step) (Hall k step Hk)) in Hv. discriminate.
      * split; [|reflexivity]. intros _. split; [exact Hs|].
        intros i step Hi. apply HI. exact (HF i step Hi).
    + intros _ i step Hi Hbad Hbefore.
      destruct (validateSteps rangeOrder s h ∅ 0 (Steps s)) as [e|].
      * exists e. split; [reflexivity|].
        destruct HF as (k & stepk & Hk & Hv & Hfirst).
        pose proof (validateStep_index _ _ _ _ _ _ _ Hv) as Hidx.
        destruct (Nat.lt_trichotomy k i) as [Hlt|[->|Hgt]];
          [exfalso | exact Hidx | exfalso].
        -- rewrite (proj2 (HI k stepk) (Hbefore k stepk Hlt Hk)) in Hv.
           discriminate.
        -- apply Hbad. apply HI. exact (Hfirst i step Hgt Hi).
      * exfalso. apply Hbad. apply HI. exact (HF i step Hi).
Qed.

Lemma Validate_reports_first_violation_witness :
  let bad_method := mkStep "FETCH /a" None None None VNil 0 None [] in
  let bad_path := mkStep "GET b" None None None VNil 0 None [] in
  let s := mkScenario "s" "http://localhost" 1 60 None [bad_method; bad_path] in
  (∀ m : gmap string string, map_to_list m ≡ₚ map_to_list m)
  ∧ scenarioInvariants s
  ∧ ¬ stepInvariants s emptyHeap 0 bad_method
  ∧ ¬ stepInvariants s emptyHeap 1 bad_path
  ∧ ∃ e, Validate map_to_list (mkParser (Some s)) emptyHeap = Some e
         ∧ stepIndex e = Some 0.
Proof.
  intros bad_method bad_path s.
  assert (Hro : ∀ m : gmap string string, map_to_list m ≡ₚ map_to_list m)
    by (intros m; reflexivity).
  assert (Hs : scenarioInvariants s).
  { repeat split; try discriminate; vm_compute; congruence. }
  assert (H0 : ¬ stepInvariants s emptyHeap 0 bad_method).
  { intros ((method & path & Hf & _) & _).
    apply parseRequest_requestForm in Hf. vm_compute in Hf. discriminate. }
  assert (H1 : ¬ stepInvariants s emptyHeap 1 bad_path).
  { intros ((method & path & Hf & _) & _).
    apply parseRequest_requestForm in Hf. vm_compute in Hf. discriminate. }
  split; [exact Hro|]. split; [exact Hs|]. split; [exact H0|].
  split; [exact H1|].
  destruct (Validate_reports_first_violation map_to_list s emptyHeap Hro)
    as (_ & _ & Hfirst).
  apply (Hfirst Hs 0 bad_method eq_refl H0).
  intros k earlier Hlt. lia.
Defined.

(** Two steps that are each invalid on their own: the error is the one
    of the earlier step, in either order. *)
Example Validate_two_invalid_steps :
  let bad_method := mkStep "FETCH /a" None None None VNil 0 None [] in
  let bad_path := mkStep "GET b" None None None VNil 0 None [] in
  let s1 := mkScenario "s" "http://localhost" 1 60 None [bad_method; bad_path] in
  let s2 := mkScenario "s" "http://localhost" 1 60 None [bad_path; bad_method] in
  Validate map_to_list (mkParser (Some s1)) emptyHeap
  = Some (ErrStep 0 (ErrInvalidMethod "FETCH"))
  ∧ Validate map_to_list (mkParser (Some s2)) emptyHeap
    = Some (ErrStep 0 (ErrPathPrefix "b")).
Proof. split; vm_compute; reflexivity. Qed.


(** ** The substitutor on validated requests *)

Lemma expand_keeps_slash vars path :
  HasPrefix path "/" = true → HasPrefix (expand vars path) "/" = true.
Proof.
  unfold HasPrefix. destruct path as [|c t]; [discriminate|].
  cbn [String.prefix]. destruct (ascii_dec "/" c) as [<-|]; [|discriminate].
  intros _. unfold expand. rewrite scan_cons.
  assert (varPattern (String "/" t) = None) as -> by reflexivity.
  rewrite fmap_cons. cbn [tokenValue concatStrings String.append].
  cbn [String.prefix]. destruct (ascii_dec "/" "/"); [|congruence].
  now destruct (concatStrings _).
Qed.

(** X19. Substitution keeps a request valid: if [parseRequest] accepts
    the request of a step, as it does for every step of a scenario that
    [Validate] accepts, and [ApplyToStep] succeeds, then [parseRequest]
    accepts the request of the result too, with the same method and with
    the path expanded. *)
Theorem ApplyToStep_keeps_request_valid
    (rangeOrder : gmap string string → list (string * string))
    (step : Step) (vars : gmap string string) (h : heap)
    (result : Step) (h' : heap) (method path : string) :
  parseRequest (Request step) = (method, path, None) →
  ApplyToStep rangeOrder step vars h = (result, None, h') →
  parseRequest (Request result) = (method, expand vars path, None).
Proof.
  intros Hparse Hstep.
  apply parseRequest_iff in Hparse as (Hreq & Hin & Hp).
  assert (Hfree : freeOf " " method = true).
  { cbn in Hin.
    destruct Hin as [<-|[<-|[<-|[<-|[<-|[<-|[]]]]]]]; reflexivity. }
  assert (Hcut : cutFirst (Request step) " " = Some (method, path)).
  { apply cutFirst_Some. split; [exact Hreq | exact Hfree]. }
  destruct (ApplyToStep_success_inv _ _ _ _ _ _ Hstep)
    as (req & hd & q & pp & b & h1 & h2 & h3 & -> & Hr & _).
  rewrite Hcut in Hr. destruct Hr as (out & Hout & ->). cbn [Request].
  destruct (substitute_cases path vars) as [[_ Hs]|(n & _ & _ & Hs)];
    rewrite Hs in Hout; inversion Hout; subst out.
  apply parseRequest_iff. split; [reflexivity|]. split; [exact Hin|].
  now apply expand_keeps_slash.
Qed.

Lemma ApplyToStep_keeps_request_valid_witness :
  let step := mkStep "GET /users/${id}" None None None VNil 0 None [] in
  let vars : gmap string string := {[ "id" := "7" ]} in
  let r := ApplyToStep map_to_list step vars emptyHeap in
  parseRequest (Request step) = ("GET", "/users/${id}", None)
  ∧ r = (r.1.1, None, r.2)
  ∧ parseRequest (Request r.1.1)
    = ("GET", expand vars "/users/${id}", None).
Proof.
  intros step vars r.
  assert (Hp : parseRequest (Request step) = ("GET", "/users/${id}", None))
    by reflexivity.
  assert (Hr : r = (r.1.1, None, r.2)) by (vm_compute; reflexivity).
  split; [exact Hp|]. split; [exact Hr|].
  exact (ApplyToStep_keeps_request_valid map_to_list step vars emptyHeap
           r.1.1 r.2 "GET" "/users/${id}" Hp Hr).
Defined.


(** * JSON escaping in [ApplyToBody] *)

(** One step of evaluation of the string decoder on a text whose first
    bytes are known: a test on known bytes is decided. *)
Ltac decide_known_test :=
  match goal with
  | |- context [if ?b then _ else _] =>
      let v := eval vm_compute in b in
      lazymatch v with
      | true => change b with true
      | false => change b with false
      end
  | |- context [getu4 ?s] =>
      let v := eval vm_compute in (getu4 s) in
      lazymatch v with
      | Some _ => change (getu4 s) with v
      end
  | |- context [escapedRune ?a ?b] =>
      let v := eval vm_compute in (escapedRune a b) in
      lazymatch v with
      | (_, _) => change (escapedRune a b) with v
      end
  end;
  cbv beta zeta iota.

(** The decoder taken one byte further, the bytes after it being kept
    from evaluation until the tests on this byte are decided. *)
Ltac decode_head :=
  match goal with
  | |- context [parseStringBody ?k (String ?c ?t)] =>
      let t' := fresh "t" in
      let E := fresh "E" in
      remember t as t' eqn:E; cbn [parseStringBody]; subst t';
      cbv beta zeta iota
  end.

Lemma getu4_escapeByte c x :
  byte c < 128 → getu4 (escapeByte c +:+ x) = Some (Z.of_nat (byte c)).
Proof.
  intros H. unfold escapeByte. cbn [String.append].
  change (getu4 (escapeByte c) = Some (Z.of_nat (byte c))).
  destruct c as [[] [] [] [] [] [] [] []];
    try (vm_compute; reflexivity);
    exfalso; vm_compute in H; lia.
Qed.

Lemma encodeRune_ascii c :
  byte c < 128 → encodeRune (Z.of_nat (byte c)) = String c EmptyString.
Proof.
  intros H.
  destruct c as [[] [] [] [] [] [] [] []];
    try (vm_compute; reflexivity);
    exfalso; vm_compute in H; lia.
Qed.

Lemma escapedRune_ascii c x :
  byte c < 128 → escapedRune (Z.of_nat (byte c)) x = (Z.of_nat (byte c), false).
Proof.
  intros H. unfold escapedRune.
  assert ((55296 <=? Z.of_nat (byte c))%Z = false) as -> by lia.
  reflexivity.
Qed.

(** The decoder on a byte copied as it is. *)
Lemma parseStringBody_literal c x out rest :
  htmlSafe c = true →
  parseStringBody 0 x = Some (out, rest) →
  parseStringBody 0 (String c x) = Some (String c out, rest).
Proof.
  unfold htmlSafe. intros H Hx.
  repeat (apply andb_true_iff in H as [H ?]).
  cbn [parseStringBody].
  assert (Ascii.eqb c dquote = false) as -> by now apply negb_true_iff.
  assert ((byte c <? 32) = false) as ->.
  { apply Nat.ltb_ge. now apply Nat.leb_le. }
  assert (Ascii.eqb c backslash = false) as -> by now apply negb_true_iff.
  assert ((byte c <? 128) = true) as -> by assumption.
  rewrite Hx. reflexivity.
Qed.

(** The decoder on the [u]-escape of an ASCII byte. *)
Lemma parseStringBody_escapeByte c x out rest :
  byte c < 128 →
  parseStringBody 0 x = Some (out, rest) →
  parseStringBody 0 (escapeByte c +:+ x) = Some (String c out, rest).
Proof.
  intros H Hx.
  pose proof (getu4_escapeByte c x H) as Hu.
  unfold escapeByte in *. cbn [String.append] in *.
  decode_head. repeat decide_known_test.
  rewrite Hu. rewrite escapedRune_ascii by exact H. cbv beta zeta iota.
  cbn [parseStringBody]. rewrite Hx. cbn.
  rewrite encodeRune_ascii by exact H. reflexivity.
Qed.

(** The length of a sequence whose first bytes are known. *)
Ltac eval_rune_length H :=
  match type of H with
  | runeLen ?s = _ =>
      let v := eval vm_compute in (runeLen s) in
      change (runeLen s) with v in H
  end.

(** The decoder skips the bytes it has already taken. *)
Lemma parseStringBody_skip p : ∀ n x out rest,
  String.length p = n →
  parseStringBody 0 x = Some (out, rest) →
  parseStringBody n (p +:+ x) = Some (out, rest).
Proof.
  induction p as [|a p IH]; intros n x out rest Hn Hx; subst n;
    cbn [String.length String.append].
  - exact Hx.
  - cbn [parseStringBody]. rewrite (IH _ x out rest eq_refl Hx). reflexivity.
Qed.

(** A well-formed sequence of more than one byte: the bytes after the
    first, and the length found again whatever follows them. *)
Lemma runeLen_multibyte c s n :
  (byte c <? 128) = false →
  runeLen (String c s) = S n →
  ∃ p t, s = p +:+ t ∧ String.length p = n
         ∧ ∀ y, runeLen (String c (p +:+ y)) = S n.
Proof.
  intros Hc. unfold runeLen. cbv zeta. rewrite Hc.
  destruct ((194 <=? byte c) && (byte c <=? 223)) eqn:R2.
  { destruct s as [|c1 s1]; [discriminate|].
    destruct (isCont c1) eqn:E1; [|discriminate].
    intros H. inversion H; subst n.
    exists (String c1 ""), s1. repeat split.
    intros y. cbn [String.append]. now rewrite E1. }
  destruct ((224 <=? byte c) && (byte c <=? 239)) eqn:R3.
  { destruct s as [|c1 [|c2 s2]]; try discriminate.
    destruct (inRange _ _ c1 && isCont c2) eqn:E1; [|discriminate].
    intros H. inversion H; subst n.
    exists (String c1 (String c2 "")), s2. repeat split.
    intros y. cbn [String.append]. now rewrite E1. }
  destruct ((240 <=? byte c) && (byte c <=? 244)) eqn:R4; [|discriminate].
  destruct s as [|c1 [|c2 [|c3 s3]]]; try discriminate.
  destruct (inRange _ _ c1 && isCont c2 && isCont c3) eqn:E1; [|discriminate].
  intros H. inversion H; subst n.
  exists (String c1 (String c2 (String c3 ""))), s3. repeat split.
  intros y. cbn [String.append]. now rewrite E1.
Qed.

Lemma dropBytes_append p t : dropBytes (String.length p) (p +:+ t) = t.
Proof.
  induction p as [|a p IH]; cbn [String.length String.append dropBytes].
  - destruct t; reflexivity.
  - exact IH.
Qed.

(** Decoding undoes escaping: the escaped form of a well-formed UTF-8
    string, followed by a quote, decodes to the string, and what follows
    the quote is left. *)
Lemma parseStringBody_escapeString s : ∀ skip rest,
  validUTF8 skip s = true →
  parseStringBody 0 (escapeString skip s +:+ String dquote rest)
  = Some (dropBytes skip s, rest).
Proof.
  induction s as [|c s IH]; intros skip rest H.
  - destruct skip; reflexivity.
  - destruct skip as [|skip].
    2: { cbn [escapeString dropBytes validUTF8] in *. now apply IH. }
    cbn [validUTF8] in H. cbn [dropBytes].
    destruct (byte c <? 128) eqn:Hc.
    + assert (Hs : validUTF8 0 s = true).
      { unfold runeLen in H. fold (byte c) in H. rewrite Hc in H. exact H. }
      specialize (IH 0 rest Hs). cbn [dropBytes] in IH.
      cbn [escapeString]. rewrite Hc.
      assert (Hbyte : ∀ n, (byte c =? n) = true → c = ascii_of_nat n).
      { intros n E. apply Nat.eqb_eq in E. rewrite <- E.
        symmetry. apply ascii_nat_embedding. }
      destruct (htmlSafe c) eqn:E1.
      { cbn [String.append]. now apply parseStringBody_literal. }
      destruct (Ascii.eqb c backslash || Ascii.eqb c dquote) eqn:E2.
      { apply orb_true_iff in E2 as [E2|E2]; apply Ascii.eqb_eq in E2; subst c;
          cbn [String.append];
          repeat (decode_head; repeat decide_known_test);
          rewrite IH; reflexivity. }
      destruct (byte c =? 8) eqn:E3;
        [apply Hbyte in E3; subst c; cbn [String.append];
         repeat (decode_head; repeat decide_known_test);
         rewrite IH; reflexivity|].
      destruct (byte c =? 12) eqn:E4;
        [apply Hbyte in E4; subst c; cbn [String.append];
         repeat (decode_head; repeat decide_known_test);
         rewrite IH; reflexivity|].
      destruct (byte c =? 10) eqn:E5;
        [apply Hbyte in E5; subst c; cbn [String.append];
         repeat (decode_head; repeat decide_known_test);
         rewrite IH; reflexivity|].
      destruct (byte c =? 13) eqn:E6;
        [apply Hbyte in E6; subst c; cbn [String.append];
         repeat (decode_head; repeat decide_known_test);
         rewrite IH; reflexivity|].
      destruct (byte c =? 9) eqn:E7;
        [apply Hbyte in E7; subst c; cbn [String.append];
         repeat (decode_head; repeat decide_known_test);
         rewrite IH; reflexivity|].
      rewrite append_assoc.
      apply parseStringBody_escapeByte; [now apply Nat.ltb_lt | exact IH].
    + destruct (runeLen (String c s)) as [|n] eqn:Hn; [discriminate|].
      specialize (IH n rest H).
      cbn [escapeString]. rewrite Hc, Hn.
      destruct (String.eqb (slice (String c s) 0 3)
                  (String "226" (String "128" (String "168" EmptyString))))
        eqn:E8.
      { apply String.eqb_eq in E8.
        destruct s as [|c1 [|c2 s2]]; try discriminate E8.
        unfold slice in E8. cbn [substring Nat.sub] in E8.
        assert (substring 0 0 s2 = "") as Hz by (destruct s2; reflexivity).
        rewrite Hz in E8. inversion E8; subst c c1 c2.
        assert (n = 2) as ->.
        { eval_rune_length Hn. congruence. }
        cbn [dropBytes] in IH. cbn [String.append].
        repeat (decode_head; repeat decide_known_test).
        rewrite IH. reflexivity. }
      destruct (String.eqb (slice (String c s) 0 3)
                  (String "226" (String "128" (String "169" EmptyString))))
        eqn:E9.
      { apply String.eqb_eq in E9.
        destruct s as [|c1 [|c2 s2]]; try discriminate E9.
        unfold slice in E9. cbn [substring Nat.sub] in E9.
        assert (substring 0 0 s2 = "") as Hz by (destruct s2; reflexivity).
        rewrite Hz in E9. inversion E9; subst c c1 c2.
        assert (n = 2) as ->.
        { eval_rune_length Hn. congruence. }
        cbn [dropBytes] in IH. cbn [String.append].
        repeat (decode_head; repeat decide_known_test).
        rewrite IH. reflexivity. }
      destruct (runeLen_multibyte c s n Hc Hn) as (p & t & -> & Hp & Hlen).
      assert (slice (String c (p +:+ t)) 0 (S n) = String c p) as ->.
      { unfold slice. cbn [Nat.sub substring]. subst n.
        now rewrite substring_0_append. }
      cbn [String.append]. rewrite append_assoc.
      set (x := escapeString n (p +:+ t) +:+ String dquote rest) in *.
      cbn [parseStringBody].
      assert (Ascii.eqb c dquote = false) as ->.
      { apply Ascii.eqb_neq. intros ->. discriminate Hc. }
      assert ((byte c <? 32) = false) as ->.
      { apply Nat.ltb_ge. apply Nat.ltb_ge in Hc. lia. }
      assert (Ascii.eqb c backslash = false) as ->.
      { apply Ascii.eqb_neq. intros ->. discriminate Hc. }
      rewrite Hc, Hlen.
      rewrite (parseStringBody_skip p n x _ _ Hp IH). cbn [mbind option_bind].
      do 2 f_equal. unfold slice. cbn [Nat.sub substring].
      subst n. rewrite substring_0_append, dropBytes_append. reflexivity.
Qed.


Lemma slice_encodeString v :
  slice (encodeString v) 1 (String.length (encodeString v) - 1)
  = escapeString 0 v.
Proof.
  unfold encodeString, slice. cbn [String.length String.append substring].
  rewrite length_append. cbn [String.length].
  replace (S (String.length (escapeString 0 v) + 1) - 1 - 1)
    with (String.length (escapeString 0 v)) by lia.
  apply substring_0_append.
Qed.

Lemma rangeOrder_singleton (ro : gmap string string → list (string * string))
    k v :
  (∀ m, ro m ≡ₚ map_to_list m) → ro {[ k := v ]} = [(k, v)].
Proof.
  intros H. specialize (H {[ k := v ]}). rewrite map_to_list_singleton in H.
  now apply Permutation_singleton_r in H.
Qed.

Ltac eval_closed t :=
  let v := eval vm_compute in t in change t with v.

(** The text [json.Marshal] writes for the body [{value: ${v}}], with the
    escaped value in place of the placeholder. *)
Lemma substitute_value_text (x : string) :
  substitute ("{" +:+ encodeString "value" +:+ ":" +:+ encodeString "${v}"
              +:+ "}") {[ "v" := x ]}
  = ("{" +:+ encodeString "value" +:+ ":" +:+ String dquote x
     +:+ String dquote "}", None).
Proof.
  unfold substitute, ReplaceAllStringFunc.
  eval_closed (scan ("{" +:+ encodeString "value" +:+ ":"
                     +:+ encodeString "${v}" +:+ "}")).
  cbn [replaceTokens substituteFunc].
  eval_closed (slice "${v}" 2 (String.length "${v}" - 1)).
  rewrite lookup_singleton_eq. reflexivity.
Qed.

(** The JSON parser taken one byte further, as [decode_head] does. *)
Ltac parse_head :=
  match goal with
  | |- context [parseValue (S ?f) ?d (String ?c ?t)] =>
      let t' := fresh "t" in
      let E := fresh "E" in
      remember t as t' eqn:E; cbn [parseValue]; subst t';
      cbv beta zeta iota
  | |- context [parseMembers (S ?f) ?d (String ?c ?t)] =>
      let t' := fresh "t" in
      let E := fresh "E" in
      remember t as t' eqn:E; cbn [parseMembers]; subst t';
      cbv beta zeta iota
  | |- context [skipSpace (String ?c ?t)] =>
      let t' := fresh "t" in
      let E := fresh "E" in
      remember t as t' eqn:E; cbn [skipSpace]; subst t';
      cbv beta zeta iota
  | |- context [parseStringBody ?k (String ?c ?t)] =>
      let t' := fresh "t" in
      let E := fresh "E" in
      remember t as t' eqn:E; cbn [parseStringBody]; subst t';
      cbv beta zeta iota
  end.

Lemma parseJSON_value_text (v : string) :
  validUTF8 0 v = true →
  parseJSON ("{" +:+ encodeString "value" +:+ ":"
             +:+ String dquote (escapeString 0 v) +:+ String dquote "}")
  = Some (JObject [("value", JString v)]).
Proof.
  intros Hv.
  pose proof (parseStringBody_escapeString v 0 "}" Hv) as HX.
  assert (dropBytes 0 v = v) as Hd by (destruct v; reflexivity).
  rewrite Hd in HX. clear Hd. revert HX. generalize (escapeString 0 v) as x. intros x HX.
  unfold parseJSON.
  eval_closed (encodeString "value").
  cbn [String.append].
  match goal with
  | |- context [parseValue ?fuel 0 _] =>
      assert (∃ f, fuel = S (S (S f))) as [f ->]
  end.
  { cbn [String.length]. eexists. rewrite Nat.mul_succ_r.
    rewrite Nat.add_succ_r. cbn [Nat.add]. rewrite Nat.add_succ_r. reflexivity. }
  repeat (first [parse_head | progress cbn [mbind option_bind]];
          repeat decide_known_test).
  rewrite HX.
  repeat (first [parse_head | progress cbn [mbind option_bind]];
          repeat decide_known_test).
  reflexivity.
Qed.

(** X20. The values of the context are JSON-escaped before they are
    substituted into a structured body, so that the text parses back
    with the value as it was: for the body [{value: ${v}}] and every
    value that is well-formed UTF-8 (quotes, backslashes, control bytes,
    the HTML-sensitive bytes and the line separators U+2028 and U+2029
    included), [ApplyToBody] returns a new map holding the value, byte
    for byte, under [value]. *)
Theorem ApplyToBody_escapes_value
    (rangeOrder : gmap string string → list (string * string))
    (v : string) (h : heap) (a : addr) :
  (∀ m, rangeOrder m ≡ₚ map_to_list m) →
  validUTF8 0 v = true →
  anymaps h !! a = Some {[ "value" := VString "${v}" ]} →
  ApplyToBody rangeOrder (VMap a) {[ "v" := v ]} h
  = (VMap (fresh (dom (anymaps h))), None,
     Heap (strmaps h)
          (<[fresh (dom (anymaps h)) := {[ "value" := VString v ]}]> (anymaps h))
          (slices h)).
Proof.
  intros Hro Hv Ha. unfold ApplyToBody.
  rewrite (rangeOrder_singleton rangeOrder "v" v Hro).
  cbn [escapeEntries MarshalString]. rewrite slice_encodeString.
  assert (HM : Marshal (VMap a) h
               = ("{" +:+ encodeString "value" +:+ ":"
                  +:+ encodeString "${v}" +:+ "}", None)).
  { unfold Marshal. cbn [encodeValue].
    rewrite bool_decide_eq_false_2 by set_solver.
    rewrite Ha. unfold sortedEntries. rewrite map_to_list_singleton.
    cbn [merge_sort merge_sort_aux merge_stack_flatten list_merge
         merge_list_to_stack merge_stack].
    destruct (size (anymaps h) + size (slices h)); cbn [encodeValue];
      reflexivity. }
  rewrite HM. rewrite insert_empty. rewrite substitute_value_text.
  unfold Unmarshal. rewrite parseJSON_value_text by exact Hv.
  cbn [decodeValue decodeMembers]. unfold allocAnyMap. cbn [anymaps strmaps slices].
  rewrite insert_empty. reflexivity.
Qed.

Lemma ApplyToBody_escapes_value_witness :
  let v :=
    String dquote "a<b>" +:+ String backslash (String "010" "&")
    +:+ String "195" (String "169" "")
    +:+ String "226" (String "128" (String "168" "")) in
  let h := Heap ∅ {[ 1%positive := {[ "value" := VString "${v}" ]} ]} ∅ in
  (∀ m : gmap string string, map_to_list m ≡ₚ map_to_list m)
  ∧ validUTF8 0 v = true
  ∧ anymaps h !! 1%positive = Some {[ "value" := VString "${v}" ]}
  ∧ ApplyToBody map_to_list (VMap 1%positive) {[ "v" := v ]} h
    = (VMap (fresh (dom (anymaps h))), None,
       Heap (strmaps h)
            (<[fresh (dom (anymaps h)) := {[ "value" := VString v ]}]>
               (anymaps h))
            (slices h)).
Proof.
  intros v h.
  assert (Hro : ∀ m : gmap string string, map_to_list m ≡ₚ map_to_list m)
    by (intros m; reflexivity).
  assert (Hv : validUTF8 0 v = true) by reflexivity.
  assert (Ha : anymaps h !! 1%positive
               = Some {[ "value" := VString "${v}" ]}) by reflexivity.
  split; [exact Hro|]. split; [exact Hv|]. split; [exact Ha|].
  exact (ApplyToBody_escapes_value map_to_list v h 1%positive Hro Hv Ha).
Defined.


(** The text [json.Marshal] writes for the body [{${k}: true}], with the
    escaped value in place of the placeholder. *)
Lemma substitute_key_text (x : string) :
  substitute ("{" +:+ encodeString "${k}" +:+ ":true}") {[ "k" := x ]}
  = ("{" +:+ String dquote x +:+ String dquote ":true}", None).
Proof.
  unfold substitute, ReplaceAllStringFunc.
  eval_closed (scan ("{" +:+ encodeString "${k}" +:+ ":true}")).
  cbn [replaceTokens substituteFunc].
  eval_closed (slice "${k}" 2 (String.length "${k}" - 1)).
  rewrite lookup_singleton_eq. reflexivity.
Qed.

Lemma parseJSON_key_text (v : string) :
  validUTF8 0 v = true →
  parseJSON ("{" +:+ String dquote (escapeString 0 v)
             +:+ String dquote ":true}")
  = Some (JObject [(v, JBool true)]).
Proof.
  intros Hv.
  pose proof (parseStringBody_escapeString v 0 ":true}" Hv) as HX.
  assert (dropBytes 0 v = v) as Hd by (destruct v; reflexivity).
  rewrite Hd in HX. clear Hd. revert HX.
  generalize (escapeString 0 v) as x. intros x HX.
  unfold parseJSON. cbn [String.append]. unfold dquote in *.
  match goal with
  | |- context [parseValue ?fuel 0 _] =>
      assert (∃ f, fuel = S (S (S f))) as [f ->]
  end.
  { cbn [String.length]. eexists. rewrite Nat.mul_succ_r.
    rewrite Nat.add_succ_r. cbn [Nat.add]. rewrite Nat.add_succ_r. reflexivity. }
  repeat (first [parse_head | progress cbn [mbind option_bind]];
          repeat decide_known_test).
  rewrite HX.
  repeat (first [parse_head | progress cbn [mbind option_bind]];
          repeat decide_known_test).
  reflexivity.
Qed.

(** X21. Placeholders in the keys of a structured body are substituted
    as those in its string values are: for the body [{${k}: true}] and
    every value that is well-formed UTF-8, [ApplyToBody] returns a new
    map whose one key is the value. *)
Theorem ApplyToBody_substitutes_keys
    (rangeOrder : gmap string string → list (string * string))
    (v : string) (h : heap) (a : addr) :
  (∀ m, rangeOrder m ≡ₚ map_to_list m) →
  validUTF8 0 v = true →
  anymaps h !! a = Some {[ "${k}" := VBool true ]} →
  ApplyToBody rangeOrder (VMap a) {[ "k" := v ]} h
  = (VMap (fresh (dom (anymaps h))), None,
     Heap (strmaps h)
          (<[fresh (dom (anymaps h)) := {[ v := VBool true ]}]> (anymaps h))
          (slices h)).
Proof.
  intros Hro Hv Ha. unfold ApplyToBody.
  rewrite (rangeOrder_singleton rangeOrder "k" v Hro).
  cbn [escapeEntries MarshalString]. rewrite slice_encodeString.
  assert (HM : Marshal (VMap a) h
               = ("{" +:+ encodeString "${k}" +:+ ":true}", None)).
  { unfold Marshal. cbn [encodeValue].
    rewrite bool_decide_eq_false_2 by set_solver.
    rewrite Ha. unfold sortedEntries. rewrite map_to_list_singleton.
    cbn [merge_sort merge_sort_aux merge_stack_flatten list_merge
         merge_list_to_stack merge_stack].
    destruct (size (anymaps h) + size (slices h)); cbn [encodeValue];
      reflexivity. }
  rewrite HM. rewrite insert_empty. rewrite substitute_key_text.
  unfold Unmarshal. rewrite parseJSON_key_text by exact Hv.
  cbn [decodeValue decodeMembers]. unfold allocAnyMap.
  cbn [anymaps strmaps slices].
  rewrite insert_empty. reflexivity.
Qed.

Lemma ApplyToBody_substitutes_keys_witness :
  let v := "user " +:+ String dquote "id" +:+ String dquote "" in
  let h := Heap ∅ {[ 1%positive := {[ "${k}" := VBool true ]} ]} ∅ in
  (∀ m : gmap string string, map_to_list m ≡ₚ map_to_list m)
  ∧ validUTF8 0 v = true
  ∧ anymaps h !! 1%positive = Some {[ "${k}" := VBool true ]}
  ∧ ApplyToBody map_to_list (VMap 1%positive) {[ "k" := v ]} h
    = (VMap (fresh (dom (anymaps h))), None,
       Heap (strmaps h)
            (<[fresh (dom (anymaps h)) := {[ v := VBool true ]}]>
               (anymaps h))
            (slices h)).
Proof.
  intros v h.
  assert (Hro : ∀ m : gmap string string, map_to_list m ≡ₚ map_to_list m)
    by (intros m; reflexivity).
  assert (Hv : validUTF8 0 v = true) by reflexivity.
  assert (Ha : anymaps h !! 1%positive
               = Some {[ "${k}" := VBool true ]}) by reflexivity.
  split; [exact Hro|]. split; [exact Hv|]. split; [exact Ha|].
  exact (ApplyToBody_substitutes_keys map_to_list v h 1%positive Hro Hv Ha).
Defined.

(** X22. A string body is substituted as plain text, with no escaping:
    [ApplyToBody] returns the template with every placeholder replaced
    by its value, byte for byte, when every placeholder has one, and
    otherwise [nil] and the body-substitution error for a placeholder
    that has none; the store is left as it was. *)
Theorem ApplyToBody_string_is_plain_text
    (rangeOrder : gmap string string → list (string * string))
    (s : string) (vars : gmap string string) (h : heap) :
  match ApplyToBody rangeOrder (VString s) vars h with
  | (VString out, None, h') =>
      out = expand vars s ∧ h' = h
      ∧ ∀ n, n ∈ placeholders s → is_Some (vars !! n)
  | (VNil, Some e, h') =>
      h' = h
      ∧ ∃ n, n ∈ placeholders s ∧ vars !! n = None
             ∧ e = ErrBodySubstitution (ErrUndefinedVariable n)
  | _ => False
  end.
Proof.
  unfold ApplyToBody.
  destruct (substitute_cases s vars) as [[Hall ->]|(n & Hn & Hv & ->)].
  - auto.
  - split; [reflexivity|]. eauto.
Qed.


(** * Properties of the OpenAPI parser *)

Lemma foldl_snoc_bind {A B} (f : A → list B) (l : list A) : ∀ acc,
  foldl (λ acc x, (acc ++ f x)%list) acc l = (acc ++ (l ≫= f))%list.
Proof.
  induction l as [|x l IH]; intros acc; cbn [foldl].
  - cbn. now rewrite app_nil_r.
  - rewrite IH. rewrite bind_cons. now rewrite app_assoc.
Qed.

Lemma foldl_snoc {A} (l : list A) :
  foldl (λ acc x, (acc ++ [x])%list) [] l = l.
Proof.
  rewrite (foldl_snoc_bind (λ x, [x]) l []). cbn.
  induction l as [|x l IH]; [reflexivity|]. rewrite bind_cons. cbn.
  now rewrite IH.
Qed.

(** The endpoints of one operation entry, and of one path entry. *)
Lemma foldl_appendOperation path l : ∀ acc,
  foldl (OpenAPI.appendOperation path) acc l
  = (acc ++ (l ≫= λ entry : string * option OpenAPI.Operation,
               match entry.2 with
               | Some operation => [endpointOf path entry.1 operation]
               | None => []
               end))%list.
Proof.
  induction l as [|[method [op|]] l IH]; intros acc; cbn [foldl].
  - cbn. now rewrite app_nil_r.
  - rewrite IH. rewrite bind_cons. cbn. now rewrite <- app_assoc.
  - rewrite IH. rewrite bind_cons. reflexivity.
Qed.

Lemma foldl_appendPathItem ro l : ∀ acc,
  foldl (OpenAPI.appendPathItem ro) acc l
  = (acc ++ (l ≫= λ entry : string * option OpenAPI.PathItem,
               match entry.2 with
               | Some pathItem =>
                   ro (OpenAPI.operations pathItem)
                   ≫= λ op : string * option OpenAPI.Operation,
                        match op.2 with
                        | Some operation =>
                            [endpointOf entry.1 op.1 operation]
                        | None => []
                        end
               | None => []
               end))%list.
Proof.
  induction l as [|[path [pathItem|]] l IH]; intros acc; cbn [foldl].
  - cbn. now rewrite app_nil_r.
  - rewrite IH. rewrite bind_cons. cbn [OpenAPI.appendPathItem fst snd].
    rewrite foldl_appendOperation. now rewrite <- app_assoc.
  - rewrite IH. rewrite bind_cons. reflexivity.
Qed.

Lemma fmap_list_bind {A B C} (f : B → C) (g : A → list B) (l : list A) :
  f <$> (l ≫= g) = l ≫= λ x, f <$> g x.
Proof.
  induction l as [|x l IH]; [reflexivity|].
  rewrite !bind_cons, fmap_app. now rewrite IH.
Qed.

Lemma elem_of_rangeOrder {V} (ro : gmap string V → list (string * V)) m k v :
  (∀ m, ro m ≡ₚ map_to_list m) → (k, v) ∈ ro m ↔ m !! k = Some v.
Proof. intros H. rewrite H. apply elem_of_map_to_list. Qed.

Lemma NoDup_rangeOrder {V} (ro : gmap string V → list (string * V)) m :
  (∀ m, ro m ≡ₚ map_to_list m) → NoDup (ro m).
Proof. intros H. rewrite H. apply NoDup_map_to_list. Qed.

(** X23. Under orders of iteration that visit every entry of a map once,
    the endpoints [GetEndpoints] returns for a document with paths are
    exactly the endpoints of the operations the path items hold: one for
    each path with a path item and each of the eight methods for which
    the item has an operation, with the tags, identifier, summary and
    description of the operation and no responses; no path and method
    occur twice. *)
Theorem GetEndpoints_lists_operations
    (rangePaths :
       gmap string (option OpenAPI.PathItem) →
       list (string * option OpenAPI.PathItem))
    (rangeOperations :
       gmap string (option OpenAPI.Operation) →
       list (string * option OpenAPI.Operation))
    (p : OpenAPI.Parser) (d : OpenAPI.T)
    (paths : gmap string (option OpenAPI.PathItem)) :
  (∀ m, rangePaths m ≡ₚ map_to_list m) →
  (∀ m, rangeOperations m ≡ₚ map_to_list m) →
  OpenAPI.doc p = Some d →
  OpenAPI.T_Paths d = Some paths →
  let endpoints := (OpenAPI.GetEndpoints rangePaths rangeOperations p).1 in
  (∀ e, e ∈ endpoints ↔
     ∃ pathItem operation,
       paths !! OpenAPI.Path e = Some (Some pathItem)
       ∧ OpenAPI.operations pathItem !! OpenAPI.Method e = Some (Some operation)
       ∧ e = endpointOf (OpenAPI.Path e) (OpenAPI.Method e) operation)
  ∧ NoDup ((λ e, (OpenAPI.Path e, OpenAPI.Method e)) <$> endpoints).
Proof.
  intros Hp Ho Hd Hpaths. unfold OpenAPI.GetEndpoints.
  rewrite Hd, Hpaths. cbn [fst]. rewrite foldl_appendPathItem. cbn [app].
  cbv zeta. split.
  - intros e. rewrite list_elem_of_bind. split.
    + intros ([path [pathItem|]] & He & Hin); cbn [fst snd] in He;
        [|inversion He].
      apply list_elem_of_bind in He as ([method [op|]] & He & Hop);
        cbn [fst snd] in He; [|inversion He].
      apply list_elem_of_singleton in He. subst e. cbn.
      exists pathItem, op.
      split; [now apply (elem_of_rangeOrder rangePaths)|].
      split; [now apply (elem_of_rangeOrder rangeOperations) | reflexivity].
    + intros (pathItem & op & Hpath & Hop & He).
      exists (OpenAPI.Path e, Some pathItem).
      split; [|now apply (elem_of_rangeOrder rangePaths)].
      cbn [fst snd]. apply list_elem_of_bind.
      exists (OpenAPI.Method e, Some op).
      split; [|now apply (elem_of_rangeOrder rangeOperations)].
      cbn [fst snd]. rewrite <- He. apply list_elem_of_singleton. reflexivity.
  - rewrite fmap_list_bind. apply NoDup_bind.
    + intros [path1 pi1] [path2 pi2] y H1 H2 Hy1 Hy2. cbn [fst snd] in *.
      assert (Hkey : ∀ path (pi : option OpenAPI.PathItem),
                y ∈ ((λ e, (OpenAPI.Path e, OpenAPI.Method e)) <$>
                       match pi with
                       | Some pathItem =>
                           rangeOperations (OpenAPI.operations pathItem)
                           ≫= λ op : string * option OpenAPI.Operation,
                                match op.2 with
                                | Some operation =>
                                    [endpointOf path op.1 operation]
                                | None => []
                                end
                       | None => []
                       end) → y.1 = path).
      { intros path [pathItem|] Hy; [|inversion Hy].
        apply list_elem_of_fmap in Hy as (e & -> & He).
        apply list_elem_of_bind in He as ([method [op|]] & He & _);
          cbn [fst snd] in He; [|inversion He].
        apply list_elem_of_singleton in He. now subst e. }
      apply Hkey in Hy1, Hy2. subst path1 path2.
      apply (elem_of_rangeOrder rangePaths _ _ _ Hp) in H1, H2.
      congruence.
    + intros [path [pathItem|]] _; cbn [fst snd]; [|constructor].
      rewrite fmap_list_bind. apply NoDup_bind.
      * intros [m1 o1] [m2 o2] y H1 H2 Hy1 Hy2. cbn [fst snd] in *.
        assert (Hkey : ∀ method (o : option OpenAPI.Operation),
                  y ∈ ((λ e, (OpenAPI.Path e, OpenAPI.Method e)) <$>
                         match o with
                         | Some operation => [endpointOf path method operation]
                         | None => []
                         end) → y.2 = method).
        { intros method [op|] Hy; [|inversion Hy].
          apply list_elem_of_fmap in Hy as (e & -> & He).
          apply list_elem_of_singleton in He. now subst e. }
        apply Hkey in Hy1, Hy2. subst m1 m2.
        apply (elem_of_rangeOrder rangeOperations _ _ _ Ho) in H1, H2.
        congruence.
      * intros [method [op|]] _; cbn [fst snd]; [|constructor].
        apply NoDup_singleton.
      * now apply NoDup_rangeOrder.
    + now apply NoDup_rangeOrder.
Qed.

Lemma GetEndpoints_lists_operations_witness :
  let p := OpenAPI.mkParser (Some petstore) in
  let paths := default ∅ (OpenAPI.T_Paths petstore) in
  let endpoints := (OpenAPI.GetEndpoints map_to_list map_to_list p).1 in
  (∀ m : gmap string (option OpenAPI.PathItem),
     map_to_list m ≡ₚ map_to_list m)
  ∧ (∀ m : gmap string (option OpenAPI.Operation),
       map_to_list m ≡ₚ map_to_list m)
  ∧ OpenAPI.doc p = Some petstore
  ∧ OpenAPI.T_Paths petstore = Some paths
  ∧ (∀ e, e ∈ endpoints ↔
       ∃ pathItem operation,
         paths !! OpenAPI.Path e = Some (Some pathItem)
         ∧ OpenAPI.operations pathItem !! OpenAPI.Method e
           = Some (Some operation)
         ∧ e = endpointOf (OpenAPI.Path e) (OpenAPI.Method e) operation)
  ∧ NoDup ((λ e, (OpenAPI.Path e, OpenAPI.Method e)) <$> endpoints).
Proof.
  intros p paths endpoints.
  assert (H1 : ∀ m : gmap string (option OpenAPI.PathItem),
            map_to_list m ≡ₚ map_to_list m) by (intros m; reflexivity).
  assert (H2 : ∀ m : gmap string (option OpenAPI.Operation),
            map_to_list m ≡ₚ map_to_list m) by (intros m; reflexivity).
  split; [exact H1|]. split; [exact H2|].
  split; [reflexivity|]. split; [reflexivity|].
  exact (GetEndpoints_lists_operations map_to_list map_to_list p petstore paths
           H1 H2 eq_refl eq_refl).
Defined.

(** X24. [GetEndpointsByTag] returns the endpoints of [GetEndpoints] that
    carry the tag, in the order [GetEndpoints] lists them, and fails
    exactly when [GetEndpoints] does. *)
Theorem GetEndpointsByTag_filters
    (rangePaths :
       gmap string (option OpenAPI.PathItem) →
       list (string * option OpenAPI.PathItem))
    (rangeOperations :
       gmap string (option OpenAPI.Operation) →
       list (string * option OpenAPI.Operation))
    (p : OpenAPI.Parser) (tag : string) :
  let all := OpenAPI.GetEndpoints rangePaths rangeOperations p in
  let byTag := OpenAPI.GetEndpointsByTag rangePaths rangeOperations p tag in
  byTag.2 = all.2
  ∧ byTag.1 = filter (λ e, tag ∈ OpenAPI.Tags e) all.1.
Proof.
  cbv zeta. unfold OpenAPI.GetEndpointsByTag.
  assert (Herr : ∀ l e,
            OpenAPI.GetEndpoints rangePaths rangeOperations p = (l, Some e) →
            l = []).
  { unfold OpenAPI.GetEndpoints. intros l e.
    destruct (OpenAPI.doc p) as [d|]; [|intros H; now inversion H].
    destruct (OpenAPI.T_Paths d); intros H; inversion H. }
  destruct (OpenAPI.GetEndpoints rangePaths rangeOperations p)
    as [allEndpoints [e|]] eqn:E; cbn [fst snd].
  - rewrite (Herr _ _ eq_refl). auto.
  - split; [reflexivity|].
    assert (Hgen : ∀ acc,
              foldl (λ (filtered : list OpenAPI.Endpoint) endpoint,
                       if Contains (OpenAPI.Tags endpoint) tag
                       then (filtered ++ [endpoint])%list
                       else filtered) acc allEndpoints
              = (acc ++ filter (λ e, tag ∈ OpenAPI.Tags e) allEndpoints)%list).
    { clear E Herr. induction allEndpoints as [|x l IH]; intros acc; cbn [foldl].
      - now rewrite app_nil_r.
      - rewrite IH. destruct (Contains (OpenAPI.Tags x) tag) eqn:Ec.
        + apply Contains_In in Ec. apply list_elem_of_In in Ec.
          rewrite filter_cons_True by exact Ec. now rewrite <- app_assoc.
        + rewrite filter_cons_False; [reflexivity|].
          intros Hin. apply list_elem_of_In, Contains_In in Hin. congruence. }
    apply (Hgen []).
Qed.

Lemma tagSet_declared (tags : list OpenAPI.Tag) : ∀ (tagSet : gset string) t,
  t ∈ foldl (λ (tagSet : gset string) tag,
               if negb (String.eqb (OpenAPI.Tag_Name tag) "")
               then {[ OpenAPI.Tag_Name tag ]} ∪ tagSet
               else tagSet) tagSet tags
  ↔ t ∈ tagSet
    ∨ (t ≠ "" ∧ ∃ tag, tag ∈ tags ∧ OpenAPI.Tag_Name tag = t).
Proof.
  induction tags as [|tag tags IH]; intros tagSet t; cbn [foldl].
  - split; [auto|]. intros [H|(_ & tag & H & _)]; [exact H | inversion H].
  - rewrite IH. destruct (String.eqb (OpenAPI.Tag_Name tag) "") eqn:E;
      cbn [negb].
    + apply String.eqb_eq in E. split.
      * intros [H|(Hne & tag' & Hin & Hn)]; [auto|].
        right. split; [exact Hne|]. exists tag'.
        split; [apply elem_of_cons; auto | exact Hn].
      * intros [H|(Hne & tag' & Hin & Hn)]; [auto|].
        apply elem_of_cons in Hin as [->|Hin]; [congruence|].
        right. eauto.
    + apply String.eqb_neq in E. rewrite elem_of_union, elem_of_singleton.
      split.
      * intros [[->|H]|(Hne & tag' & Hin & Hn)]; [|auto|].
        -- right. split; [exact E|]. exists tag.
           split; [apply elem_of_cons; auto | reflexivity].
        -- right. split; [exact Hne|]. exists tag'.
           split; [apply elem_of_cons; auto | exact Hn].
      * intros [H|(Hne & tag' & Hin & Hn)]; [auto|].
        apply elem_of_cons in Hin as [->|Hin]; [auto|].
        right. eauto.
Qed.

Lemma tagSet_tags (tags : list string) : ∀ (tagSet : gset string) t,
  t ∈ foldl (λ (tagSet : gset string) tag, {[ tag ]} ∪ tagSet) tagSet tags
  ↔ t ∈ tagSet ∨ t ∈ tags.
Proof.
  induction tags as [|tag tags IH]; intros tagSet t; cbn [foldl].
  - split; [auto|]. intros [H|H]; [exact H | inversion H].
  - rewrite IH, elem_of_union, elem_of_singleton, elem_of_cons. tauto.
Qed.

Lemma tagSet_endpoints (endpoints : list OpenAPI.Endpoint) :
  ∀ (tagSet : gset string) t,
  t ∈ foldl (λ (tagSet : gset string) endpoint,
               foldl (λ (tagSet : gset string) tag, {[ tag ]} ∪ tagSet) tagSet
                     (OpenAPI.Tags endpoint)) tagSet endpoints
  ↔ t ∈ tagSet ∨ ∃ e, e ∈ endpoints ∧ t ∈ OpenAPI.Tags e.
Proof.
  induction endpoints as [|x l IH]; intros tagSet t; cbn [foldl].
  - split; [auto|]. intros [H|(e & H & _)]; [exact H | inversion H].
  - rewrite IH, tagSet_tags. split.
    + intros [[H|H]|(e & Hin & Ht)]; [auto| |].
      * right. exists x. split; [apply elem_of_cons; auto | exact H].
      * right. exists e. split; [apply elem_of_cons; auto | exact Ht].
    + intros [H|(e & Hin & Ht)]; [auto|].
      apply elem_of_cons in Hin as [->|Hin]; [auto|]. right. eauto.
Qed.

(** X25. Under an order of iteration that visits every tag of the set
    once, [GetTags] returns, without repetition, exactly the non-empty
    names of the tags the document declares and the tags of the
    endpoints of [GetEndpoints]; an empty tag of an operation is
    returned, an empty declared name is not. *)
Theorem GetTags_collects_tags
    (rangePaths :
       gmap string (option OpenAPI.PathItem) →
       list (string * option OpenAPI.PathItem))
    (rangeOperations :
       gmap string (option OpenAPI.Operation) →
       list (string * option OpenAPI.Operation))
    (rangeTagSet : gset string → list string)
    (p : OpenAPI.Parser) (d : OpenAPI.T) :
  (∀ X, rangeTagSet X ≡ₚ elements X) →
  OpenAPI.doc p = Some d →
  let tags :=
    (OpenAPI.GetTags rangePaths rangeOperations rangeTagSet p).1 in
  let endpoints := (OpenAPI.GetEndpoints rangePaths rangeOperations p).1 in
  (∀ t, t ∈ tags ↔
     (t ≠ "" ∧ ∃ tag, tag ∈ default [] (OpenAPI.T_Tags d)
                      ∧ OpenAPI.Tag_Name tag = t)
     ∨ ∃ e, e ∈ endpoints ∧ t ∈ OpenAPI.Tags e)
  ∧ NoDup tags.
Proof.
  intros Hro Hd. cbv zeta. unfold OpenAPI.GetTags. rewrite Hd.
  assert (Herr : (OpenAPI.GetEndpoints rangePaths rangeOperations p).2 = None).
  { unfold OpenAPI.GetEndpoints. rewrite Hd.
    destruct (OpenAPI.T_Paths d); reflexivity. }
  destruct (OpenAPI.GetEndpoints rangePaths rangeOperations p)
    as [endpoints err]. cbn [fst snd] in *. subst err. cbn [fst].
  rewrite foldl_snoc. split.
  - intros t. rewrite Hro, elem_of_elements, tagSet_endpoints.
    destruct (OpenAPI.T_Tags d) as [tags|]; cbn [default].
    + rewrite tagSet_declared. rewrite elem_of_empty. tauto.
    + rewrite elem_of_empty. split.
      * intros [[]|H]. auto.
      * intros [(_ & tag & H & _)|H]; [inversion H | auto].
  - rewrite Hro. apply NoDup_elements.
Qed.

Lemma GetTags_collects_tags_witness :
  let p := OpenAPI.mkParser (Some petstore) in
  let tags := (OpenAPI.GetTags map_to_list map_to_list elements p).1 in
  let endpoints := (OpenAPI.GetEndpoints map_to_list map_to_list p).1 in
  (∀ X : gset string, elements X ≡ₚ elements X)
  ∧ OpenAPI.doc p = Some petstore
  ∧ (∀ t, t ∈ tags ↔
       (t ≠ "" ∧ ∃ tag, tag ∈ default [] (OpenAPI.T_Tags petstore)
                        ∧ OpenAPI.Tag_Name tag = t)
       ∨ ∃ e, e ∈ endpoints ∧ t ∈ OpenAPI.Tags e)
  ∧ NoDup tags.
Proof.
  intros p tags endpoints.
  assert (H : ∀ X : gset string, elements X ≡ₚ elements X)
    by (intros X; reflexivity).
  split; [exact H|]. split; [reflexivity|].
  exact (GetTags_collects_tags map_to_list map_to_list elements p petstore
           H eq_refl).
Defined.

(** X26. Each getter of the parser fails, with the error that no document
    is loaded, exactly when no document is loaded; with a document
    loaded none of them fails, so the error tests after the calls of
    [GetEndpoints] in [GetEndpointsByTag] and [GetTags] never fire. *)
Theorem getters_fail_without_document
    (rangePaths :
       gmap string (option OpenAPI.PathItem) →
       list (string * option OpenAPI.PathItem))
    (rangeOperations :
       gmap string (option OpenAPI.Operation) →
       list (string * option OpenAPI.Operation))
    (rangeTagSet : gset string → list string)
    (p : OpenAPI.Parser) (tag : string) :
  let err :=
    match OpenAPI.doc p with
    | Some _ => None
    | None => Some OpenAPI.ErrNoDocument
    end in
  (OpenAPI.GetEndpoints rangePaths rangeOperations p).2 = err
  ∧ (OpenAPI.GetEndpointsByTag rangePaths rangeOperations p tag).2 = err
  ∧ (OpenAPI.GetTags rangePaths rangeOperations rangeTagSet p).2 = err
  ∧ (OpenAPI.GetInfo p).2 = err
  ∧ (OpenAPI.GetServerURLs p).2 = err.
Proof.
  cbv zeta.
  unfold OpenAPI.GetEndpointsByTag, OpenAPI.GetTags, OpenAPI.GetEndpoints,
    OpenAPI.GetInfo, OpenAPI.GetServerURLs.
  destruct (OpenAPI.doc p) as [d|]; [|repeat split; reflexivity].
  destruct (OpenAPI.T_Paths d), (OpenAPI.T_Servers d); repeat split;
    reflexivity.
Qed.


(** * Properties of the extractor *)

(** X27. Whatever [gjson] answers, the three methods of the extractor
    agree: [Exists] reports true exactly when [Extract] succeeds,
    [Extract] then returns the value of the [gjson] result and otherwise
    [nil] with an error, and [ExtractWithDefault] returns the value of
    [Extract] when [Exists] reports true and the default otherwise (so a
    JSON null that exists yields [nil], not the default). *)
Theorem Extractor_methods_agree
    (any : Type) (nil : any) (Result : Type)
    (GetBytes : string → string → Result)
    (Result_Exists : Result → bool) (Result_Value : Result → any)
    (jsonData path : string) (defaultValue : any) :
  let extract :=
    Extractor.Extract any nil Result GetBytes Result_Exists Result_Value
      jsonData path in
  let found :=
    Extractor.Exists Result GetBytes Result_Exists jsonData path in
  (found = true ↔ extract.2 = None)
  ∧ (found = true → extract.1 = Result_Value (GetBytes jsonData path))
  ∧ (found = false → extract.1 = nil)
  ∧ Extractor.ExtractWithDefault any nil Result GetBytes Result_Exists
      Result_Value jsonData path defaultValue
    = (if found then extract.1 else defaultValue).
Proof.
  cbv zeta.
  unfold Extractor.ExtractWithDefault, Extractor.Extract, Extractor.Exists.
  destruct (String.length jsonData =? 0); cbn [orb];
    [repeat split; try reflexivity; discriminate|].
  destruct (String.eqb path ""); [repeat split; try reflexivity; discriminate|].
  destruct (Result_Exists (GetBytes jsonData path)); cbn [negb];
    repeat split; try reflexivity; discriminate.
Qed.


(** * The containers of a substituted body *)

Lemma heapIncl_slices h h' a l :
  heapIncl h h' → slices h !! a = Some l → slices h' !! a = Some l.
Proof.
  intros (_ & _ & S) H. exact (proj1 (map_subseteq_spec _ _) S a l H).
Qed.

Lemma heapIncl_anymaps h h' a m :
  heapIncl h h' → anymaps h !! a = Some m → anymaps h' !! a = Some m.
Proof.
  intros (_ & S & _) H. exact (proj1 (map_subseteq_spec _ _) S a m H).
Qed.

Lemma heapIncl_slices_None h h' a :
  heapIncl h h' → slices h' !! a = None → slices h !! a = None.
Proof.
  intros I H. destruct (slices h !! a) as [l|] eqn:E; [|reflexivity].
  rewrite (heapIncl_slices _ _ _ _ I E) in H. discriminate.
Qed.

Lemma heapIncl_anymaps_None h h' a :
  heapIncl h h' → anymaps h' !! a = None → anymaps h !! a = None.
Proof.
  intros I H. destruct (anymaps h !! a) as [m|] eqn:E; [|reflexivity].
  rewrite (heapIncl_anymaps _ _ _ _ I E) in H. discriminate.
Qed.

Lemma decodeElements_inclusion l : ∀ h saved,
  heapIncl h (decodeElements decodeValue l h saved).1.2.
Proof.
  induction l as [|x l IH]; intros h saved; cbn [decodeElements].
  - apply heapIncl_refl.
  - pose proof (decodeValue_incl x h saved) as Ix.
    destruct (decodeValue x h saved) as [[v h1] saved1].
    specialize (IH h1 saved1).
    destruct (decodeElements decodeValue l h1 saved1) as [[vs h2] saved2].
    cbn [fst snd] in *. eapply heapIncl_trans; eassumption.
Qed.

Lemma decodeMembers_inclusion l : ∀ m h saved,
  heapIncl h (decodeMembers decodeValue l m h saved).1.2.
Proof.
  induction l as [|[k x] l IH]; intros m h saved; cbn [decodeMembers].
  - apply heapIncl_refl.
  - pose proof (decodeValue_incl x h saved) as Ix.
    destruct (decodeValue x h saved) as [[v h1] saved1].
    specialize (IH (<[k := v]> m) h1 saved1).
    cbn [fst snd] in *. eapply heapIncl_trans; eassumption.
Qed.

(** What decoding returns is built of containers allocated by the
    decoding. *)
Lemma decodeValue_new j : ∀ h saved h0 h2,
  heapIncl h0 h → heapIncl (decodeValue j h saved).1.2 h2 →
  newIn h0 h2 (decodeValue j h saved).1.1.
Proof.
  induction j as [| b | lit | s | l IH | l IH] using json_nested_ind;
    intros h saved h0 h2 I0 I2; cbn [decodeValue] in *.
  - constructor.
  - constructor.
  - destruct (ParseFloat lit); constructor.
  - constructor.
  - assert (Hel : ∀ h saved h2,
              heapIncl h0 h →
              heapIncl (decodeElements decodeValue l h saved).1.2 h2 →
              Forall (newIn h0 h2) (decodeElements decodeValue l h saved).1.1).
    { clear h saved h2 I0 I2.
      induction IH as [|x l Hx Hl IHl]; intros h saved h2 I0 I2.
      - constructor.
      - cbn [decodeElements] in *.
        pose proof (decodeValue_incl x h saved) as Ix.
        specialize (Hx h saved h0).
        destruct (decodeValue x h saved) as [[v h1] saved1].
        cbn [fst snd] in *.
        pose proof (decodeElements_inclusion l h1 saved1) as Il.
        specialize (IHl h1 saved1 h2 (heapIncl_trans _ _ _ I0 Ix)).
        destruct (decodeElements decodeValue l h1 saved1)
          as [[vs h3] saved3].
        cbn [fst snd] in *. constructor.
        + apply Hx; [exact I0|]. eapply heapIncl_trans; eassumption.
        + apply IHl. exact I2. }
    pose proof (decodeElements_inclusion l h saved) as Il.
    specialize (Hel h saved).
    destruct (decodeElements decodeValue l h saved) as [[vs h1] saved1].
    cbn [fst snd] in *. unfold allocSlice in *. cbn [fst snd] in *.
    econstructor.
    + eapply heapIncl_slices_None;
        [eapply heapIncl_trans; [exact I0 | exact Il]|].
      apply fresh_lookup_None.
    + eapply heapIncl_slices; [exact I2|]. cbn [slices].
      apply lookup_insert_eq.
    + apply Hel; [exact I0|].
      eapply heapIncl_trans; [|exact I2].
      apply (allocSlice_incl vs h1).
  - assert (Hel : ∀ m h saved h2,
              heapIncl h0 h →
              heapIncl (decodeMembers decodeValue l m h saved).1.2 h2 →
              (∀ k x, m !! k = Some x → newIn h0 h2 x) →
              ∀ k x, (decodeMembers decodeValue l m h saved).1.1 !! k
                     = Some x → newIn h0 h2 x).
    { clear h saved h2 I0 I2.
      induction IH as [|[k0 x0] l Hx Hl IHl]; intros m h saved h2 I0 I2 Hm.
      - exact Hm.
      - cbn [decodeMembers] in *. cbn [snd] in Hx.
        pose proof (decodeValue_incl x0 h saved) as Ix.
        specialize (Hx h saved h0).
        destruct (decodeValue x0 h saved) as [[v h1] saved1].
        cbn [fst snd] in *.
        pose proof (decodeMembers_inclusion l (<[k0 := v]> m) h1 saved1) as Il.
        apply (IHl (<[k0 := v]> m) h1 saved1 h2
                 (heapIncl_trans _ _ _ I0 Ix) I2).
        intros k x Hk. apply lookup_insert_Some in Hk as [[<- <-]|[_ Hk]].
        + apply Hx; [exact I0|]. eapply heapIncl_trans; eassumption.
        + now apply (Hm k). }
    pose proof (decodeMembers_inclusion l ∅ h saved) as Il.
    specialize (Hel ∅ h saved).
    destruct (decodeMembers decodeValue l ∅ h saved) as [[m h1] saved1].
    cbn [fst snd] in *. unfold allocAnyMap in *. cbn [fst snd] in *.
    econstructor.
    + eapply heapIncl_anymaps_None;
        [eapply heapIncl_trans; [exact I0 | exact Il]|].
      apply fresh_lookup_None.
    + eapply heapIncl_anymaps; [exact I2|]. cbn [anymaps].
      apply lookup_insert_eq.
    + apply Hel; [exact I0| |].
      * eapply heapIncl_trans; [|exact I2]. apply (allocAnyMap_incl m h1).
      * intros k x Hk. rewrite lookup_empty in Hk. discriminate.
Qed.

(** X28. The body [ApplyToBody] returns shares no container with the
    store it was called on: every map and slice reachable from it was
    allocated by the call, so writing to the returned body cannot change
    the body passed in. *)
Theorem ApplyToBody_returns_new_containers
    (rangeOrder : gmap string string → list (string * string))
    (body : value) (vars : gmap string string) (h : heap) :
  let r := ApplyToBody rangeOrder body vars h in
  newIn h r.2 r.1.1.
Proof.
  cbv zeta.
  assert (Hgen :
    newIn h
      (let '(jsonVars, err) := escapeEntries (rangeOrder vars) ∅ in
       match err with
       | Some e => (VNil, Some e, h)
       | None =>
           let '(raw, err) := Marshal body h in
           match err with
           | Some e => (VNil, Some (ErrBodyMarshalling e), h)
           | None =>
               let '(substituted, err) := substitute raw jsonVars in
               match err with
               | Some e => (VNil, Some (ErrBodySubstitution e), h)
               | None =>
                   let '(result, err, h') := Unmarshal substituted h in
                   match err with
                   | Some e => (VNil, Some (ErrBodyUnmarshalling e), h')
                   | None => (result, None, h')
                   end
               end
           end
       end).2
      (let '(jsonVars, err) := escapeEntries (rangeOrder vars) ∅ in
       match err with
       | Some e => (VNil, Some e, h)
       | None =>
           let '(raw, err) := Marshal body h in
           match err with
           | Some e => (VNil, Some (ErrBodyMarshalling e), h)
           | None =>
               let '(substituted, err) := substitute raw jsonVars in
               match err with
               | Some e => (VNil, Some (ErrBodySubstitution e), h)
               | None =>
                   let '(result, err, h') := Unmarshal substituted h in
                   match err with
                   | Some e => (VNil, Some (ErrBodyUnmarshalling e), h')
                   | None => (result, None, h')
                   end
               end
           end
       end).1.1).
  { destruct (escapeEntries (rangeOrder vars) ∅) as [jsonVars [e|]];
      [constructor|].
    destruct (Marshal body h) as [raw [e|]]; [constructor|].
    destruct (substitute raw jsonVars) as [substituted [e|]]; [constructor|].
    unfold Unmarshal.
    destruct (parseJSON substituted) as [j|]; [|constructor].
    pose proof (decodeValue_new j h None h (decodeValue j h None).1.2
                  (heapIncl_refl h) (heapIncl_refl _)) as H.
    destruct (decodeValue j h None) as [[v h'] [e|]]; cbn [fst snd] in *;
      [constructor | exact H]. }
  unfold ApplyToBody. destruct body; try exact Hgen.
  - constructor.
  - destruct (substitute s vars) as [result [e|]]; constructor.
Qed.

(** What decoding returns holds no number but [float64]. *)
Lemma decodeValue_decoded j : ∀ h saved h2,
  heapIncl (decodeValue j h saved).1.2 h2 →
  decoded h2 (decodeValue j h saved).1.1.
Proof.
  induction j as [| b | lit | s | l IH | l IH] using json_nested_ind;
    intros h saved h2 I2; cbn [decodeValue] in *.
  - constructor.
  - constructor.
  - destruct (ParseFloat lit); constructor.
  - constructor.
  - assert (Hel : ∀ h saved h2,
              heapIncl (decodeElements decodeValue l h saved).1.2 h2 →
              Forall (decoded h2) (decodeElements decodeValue l h saved).1.1).
    { clear h saved h2 I2.
      induction IH as [|x l Hx Hl IHl]; intros h saved h2 I2.
      - constructor.
      - cbn [decodeElements] in *.
        specialize (Hx h saved).
        destruct (decodeValue x h saved) as [[v h1] saved1].
        cbn [fst snd] in *.
        pose proof (decodeElements_inclusion l h1 saved1) as Il.
        specialize (IHl h1 saved1 h2).
        destruct (decodeElements decodeValue l h1 saved1)
          as [[vs h3] saved3].
        cbn [fst snd] in *. constructor.
        + apply Hx. eapply heapIncl_trans; eassumption.
        + apply IHl. exact I2. }
    specialize (Hel h saved).
    destruct (decodeElements decodeValue l h saved) as [[vs h1] saved1].
    cbn [fst snd] in *. unfold allocSlice in *. cbn [fst snd] in *.
    econstructor.
    + eapply heapIncl_slices; [exact I2|]. cbn [slices].
      apply lookup_insert_eq.
    + apply Hel. eapply heapIncl_trans; [|exact I2].
      apply (allocSlice_incl vs h1).
  - assert (Hel : ∀ m h saved h2,
              heapIncl (decodeMembers decodeValue l m h saved).1.2 h2 →
              (∀ k x, m !! k = Some x → decoded h2 x) →
              ∀ k x, (decodeMembers decodeValue l m h saved).1.1 !! k
                     = Some x → decoded h2 x).
    { clear h saved h2 I2.
      induction IH as [|[k0 x0] l Hx Hl IHl]; intros m h saved h2 I2 Hm.
      - exact Hm.
      - cbn [decodeMembers] in *. cbn [snd] in Hx.
        specialize (Hx h saved).
        destruct (decodeValue x0 h saved) as [[v h1] saved1].
        cbn [fst snd] in *.
        pose proof (decodeMembers_inclusion l (<[k0 := v]> m) h1 saved1) as Il.
        apply (IHl (<[k0 := v]> m) h1 saved1 h2 I2).
        intros k x Hk. apply lookup_insert_Some in Hk as [[<- <-]|[_ Hk]].
        + apply Hx. eapply heapIncl_trans; eassumption.
        + now apply (Hm k). }
    specialize (Hel ∅ h saved).
    destruct (decodeMembers decodeValue l ∅ h saved) as [[m h1] saved1].
    cbn [fst snd] in *. unfold allocAnyMap in *. cbn [fst snd] in *.
    econstructor.
    + eapply heapIncl_anymaps; [exact I2|]. cbn [anymaps].
      apply lookup_insert_eq.
    + apply Hel.
      * eapply heapIncl_trans; [|exact I2]. apply (allocAnyMap_incl m h1).
      * intros k x Hk. rewrite lookup_empty in Hk. discriminate.
Qed.

(** X29. Whatever the numeric types in the body passed in, the body
    [ApplyToBody] returns is built of [nil], bools, strings, [float64]
    numbers, slices and maps alone: every number of a structured body
    comes back as a [float64], none as an [int], an [int64] or a
    [json.Number]. *)
Theorem ApplyToBody_returns_decoded_values
    (rangeOrder : gmap string string → list (string * string))
    (body : value) (vars : gmap string string) (h : heap) :
  let r := ApplyToBody rangeOrder body vars h in
  decoded r.2 r.1.1.
Proof.
  cbv zeta.
  assert (Hgen :
    decoded
      (let '(jsonVars, err) := escapeEntries (rangeOrder vars) ∅ in
       match err with
       | Some e => (VNil, Some e, h)
       | None =>
           let '(raw, err) := Marshal body h in
           match err with
           | Some e => (VNil, Some (ErrBodyMarshalling e), h)
           | None =>
               let '(substituted, err) := substitute raw jsonVars in
               match err with
               | Some e => (VNil, Some (ErrBodySubstitution e), h)
               | None =>
                   let '(result, err, h') := Unmarshal substituted h in
                   match err with
                   | Some e => (VNil, Some (ErrBodyUnmarshalling e), h')
                   | None => (result, None, h')
                   end
               end
           end
       end).2
      (let '(jsonVars, err) := escapeEntries (rangeOrder vars) ∅ in
       match err with
       | Some e => (VNil, Some e, h)
       | None =>
           let '(raw, err) := Marshal body h in
           match err with
           | Some e => (VNil, Some (ErrBodyMarshalling e), h)
           | None =>
               let '(substituted, err) := substitute raw jsonVars in
               match err with
               | Some e => (VNil, Some (ErrBodySubstitution e), h)
               | None =>
                   let '(result, err, h') := Unmarshal substituted h in
                   match err with
                   | Some e => (VNil, Some (ErrBodyUnmarshalling e), h')
                   | None => (result, None, h')
                   end
               end
           end
       end).1.1).
  { destruct (escapeEntries (rangeOrder vars) ∅) as [jsonVars [e|]];
      [constructor|].
    destruct (Marshal body h) as [raw [e|]]; [constructor|].
    destruct (substitute raw jsonVars) as [substituted [e|]]; [constructor|].
    unfold Unmarshal.
    destruct (parseJSON substituted) as [j|]; [|constructor].
    pose proof (decodeValue_decoded j h None (decodeValue j h None).1.2
                  (heapIncl_refl _)) as H.
    destruct (decodeValue j h None) as [[v h'] [e|]]; cbn [fst snd] in *;
      [constructor | exact H]. }
  unfold ApplyToBody. destruct body; try exact Hgen.
  - constructor.
  - destruct (substitute s vars) as [result [e|]]; constructor.
Qed.
